(** * ENRICO coupled driver: a shallow embedding of [coupled_driver.cpp]
      and [procinfo.h], with the properties of the coupled iteration engine.

    Layout of the development:
    - the arithmetic of C++ [double], as an interface with two instances:
      IEEE binary64 (primitive floats, what the machine computes) and the
      real numbers (the algebra the relaxation formulas are written in);
    - an error monad for the ways the driver stops ([at] out of range,
      [Expects]/[Ensures], exceptions);
    - [stream::ProcInfo];
    - the members of [CoupledDriver] and the per-process code of its
      methods, with the message-passing steps made explicit;
    - the theorems. *)

From Stdlib Require Import ZArith List Reals Lra.
From Stdlib Require Import Floats.PrimFloat.
From Stdlib Require Uint63.
From stdpp Require Import base option list gmap sorting strings.
Import ListNotations.

Set Warnings "-inexact-float".
Local Open Scope Z_scope.

(** ** Arithmetic of [double] *)

(** The operations the driver performs on [double] values.  [of_int] is the
    implicit conversion of an [int] operand, [dmax] is [std::max] and the
    [MPI_MAX] reduction, [deqb] is [==]. *)
Class DoubleOps (D : Type) := {
  d0 : D;
  d1 : D;
  dadd : D -> D -> D;
  dsub : D -> D -> D;
  dmul : D -> D -> D;
  ddiv : D -> D -> D;
  dabs : D -> D;
  dsqrt : D -> D;
  dltb : D -> D -> bool;
  dleb : D -> D -> bool;
  deqb : D -> D -> bool;
  of_int : Z -> D
}.

Declare Scope double_scope.
Delimit Scope double_scope with D.
Infix "+" := dadd : double_scope.
Infix "-" := dsub : double_scope.
Infix "*" := dmul : double_scope.
Infix "/" := ddiv : double_scope.
Infix "<?" := dltb : double_scope.
Infix "<=?" := dleb : double_scope.
Infix "=?" := deqb : double_scope.

(** [std::max(a, b)] is [(a < b) ? b : a]. *)
Definition dmax `{DoubleOps D} (a b : D) : D := if (a <? b)%D then b else a.

(** Conversion of an [int] to binary64; exact for every 32-bit value. *)
Definition float_of_int (z : Z) : float :=
  if (z <? 0)%Z then PrimFloat.opp (PrimFloat.of_uint63 (Uint63.of_Z (- z)))
  else PrimFloat.of_uint63 (Uint63.of_Z z).

(** IEEE 754 binary64, round to nearest even: the machine's [double]. *)
#[export] Instance Float64 : DoubleOps float := {|
  d0 := 0%float;
  d1 := 1%float;
  dadd := PrimFloat.add;
  dsub := PrimFloat.sub;
  dmul := PrimFloat.mul;
  ddiv := PrimFloat.div;
  dabs := PrimFloat.abs;
  dsqrt := PrimFloat.sqrt;
  dltb := PrimFloat.ltb;
  dleb := PrimFloat.leb;
  deqb := PrimFloat.eqb;
  of_int := float_of_int
|}.

Definition Rltb (x y : R) : bool := if Rlt_dec x y then true else false.
Definition Rleb (x y : R) : bool := if Rle_dec x y then true else false.
Definition Reqb (x y : R) : bool := if Req_dec_T x y then true else false.

(** Exact real arithmetic: [double] without rounding. *)
#[export] Instance RealArith : DoubleOps R := {|
  d0 := 0%R;
  d1 := 1%R;
  dadd := Rplus;
  dsub := Rminus;
  dmul := Rmult;
  ddiv := Rdiv;
  dabs := Rabs;
  dsqrt := R_sqrt.sqrt;
  dltb := Rltb;
  dleb := Rleb;
  deqb := Reqb;
  of_int := IZR
|}.

(** ** Abnormal termination *)

(** Why a process stops: a bounds-checked [at] throws [std::out_of_range];
    a failed [Expects]/[Ensures] calls [std::terminate]; the constructor
    throws [std::runtime_error]; an xtensor expression over arrays of
    different shape throws; a source range longer than the destination of
    [std::copy] and a collective on an invalid root are errors too. *)
Inductive abort : Type :=
  | out_of_range
  | contract_violation
  | runtime_error (what : string)
  | shape_mismatch
  | copy_overrun
  | mpi_error.

Inductive outcome (A : Type) : Type :=
  | Ok (a : A)
  | Abort (e : abort).
Arguments Ok {A} a.
Arguments Abort {A} e.

#[export] Instance outcome_ret : MRet outcome := fun A => @Ok A.
#[export] Instance outcome_bind : MBind outcome := fun A B f m =>
  match m with
  | Ok a => f a
  | Abort e => Abort e
  end.

(** [Expects(c)] and [Ensures(c)] of the GSL. *)
Definition Expects (c : bool) : outcome unit :=
  if c then Ok tt else Abort contract_violation.
Definition Ensures (c : bool) : outcome unit :=
  if c then Ok tt else Abort contract_violation.

(** [v.at(i)]: bounds-checked read. *)
Definition at_ {A} (v : list A) (i : nat) : outcome A :=
  match v !! i with
  | Some a => Ok a
  | None => Abort out_of_range
  end.

(** [v.at(i) = a]: bounds-checked write. *)
Definition set_at {A} (v : list A) (i : nat) (a : A) : outcome (list A) :=
  if decide (i < length v)%nat then Ok (<[i := a]> v) else Abort out_of_range.

(** [m.at(k)] on a [std::map]. *)
Definition map_at {A} (m : gmap Z A) (k : Z) : outcome A :=
  match m !! k with
  | Some a => Ok a
  | None => Abort out_of_range
  end.

(** A loop whose body may stop the process. *)
Fixpoint foldM {A S} (body : S -> A -> outcome S) (s : S) (l : list A)
  : outcome S :=
  match l with
  | [] => Ok s
  | a :: l' => s' ← body s a; foldM body s' l'
  end.

(** [std::copy(src.begin(), src.end(), dst.begin())]: the first
    [src.size()] entries of [dst] are overwritten. *)
Definition std_copy {A} (src dst : list A) : outcome (list A) :=
  if decide (length src <= length dst)%nat
  then Ok (src ++ drop (length src) dst)
  else Abort copy_overrun.

(** Iteration over a [std::map]: ascending keys. *)
Definition key_le {A} (x y : Z * A) : Prop := x.1 <= y.1.
#[export] Instance key_le_dec {A} (x y : Z * A) : Decision (key_le x y).
Proof. unfold key_le. apply _. Defined.

Definition map_items {A} (m : gmap Z A) : list (Z * A) :=
  merge_sort key_le (map_to_list m).

(** ** [stream::ProcInfo] ([procinfo.h]) *)

Module stream.

(** MPI handles.  A communicator is either the null handle or a handle
    the MPI library knows. *)
Inductive MPI_Comm : Type :=
  | MPI_COMM_NULL
  | comm_handle (h : N).

Inductive MPI_Group : Type :=
  | MPI_GROUP_NULL
  | group_handle (h : N).

#[export] Instance MPI_Comm_eq_dec : EqDecision MPI_Comm.
Proof. solve_decision. Defined.

(** What the MPI library answers, and its [MPI_PROC_NULL] constant. *)
Record MPI_library : Type := {
  MPI_PROC_NULL : Z;
  comm_group_of : MPI_Comm -> MPI_Group;
  comm_rank_of : MPI_Comm -> Z;
  comm_size_of : MPI_Comm -> Z
}.

(** The queries a constructor sends to the library, in order. *)
Inductive mpi_query : Type :=
  | MPI_Comm_group (c : MPI_Comm)
  | MPI_Comm_rank (c : MPI_Comm)
  | MPI_Comm_size (c : MPI_Comm).

Record ProcInfo : Type := {
  comm : MPI_Comm;
  group : MPI_Group;
  size : Z;
  rank : Z
}.

(** The default member initialisers (lines 10 to 13). *)
Definition ProcInfo_default (mpi : MPI_library) : ProcInfo :=
  {| comm := MPI_COMM_NULL;
     group := MPI_GROUP_NULL;
     size := 0;
     rank := MPI_PROC_NULL mpi |}.

(** [explicit ProcInfo(MPI_Comm comm) : comm(comm)]: the object and the
    queries it made. *)
Definition ProcInfo_ctor (mpi : MPI_library) (c : MPI_Comm)
  : ProcInfo * list mpi_query :=
  let this := {| comm := c;
                 group := group (ProcInfo_default mpi);
                 size := size (ProcInfo_default mpi);
                 rank := rank (ProcInfo_default mpi) |} in
  if decide (c <> MPI_COMM_NULL) then
    let this := {| comm := comm this; group := comm_group_of mpi c;
                   size := size this; rank := rank this |} in
    let this := {| comm := comm this; group := group this;
                   size := size this; rank := comm_rank_of mpi c |} in
    let this := {| comm := comm this; group := group this;
                   size := comm_size_of mpi c; rank := rank this |} in
    (this, [MPI_Comm_group c; MPI_Comm_rank c; MPI_Comm_size c])
  else (this, []).

End stream.

(** ** The members of [CoupledDriver] *)

(** A [CellHandle] is an integer handle of the neutronics solver; element
    indices are positions in the local arrays of the heat solver. *)
Abbreviation CellHandle := Z (only parsing).

Inductive Norm : Type := L1 | L2 | LINF.
Inductive Initial : Type := Initial_neutronics | Initial_heat.

(** The members read from the [<coupling>] node by the constructor. *)
Record Coupling (D : Type) : Type := {
  power_ : D;
  max_timesteps_ : Z;
  max_picard_iter_ : Z;
  epsilon_ : D;
  alpha_ : D;
  alpha_T_ : D;
  alpha_rho_ : D;
  norm_ : Norm;
  temperature_ic_ : Initial;
  density_ic_ : Initial
}.

(** The members the iteration works on. *)
Record CoupledDriver (D : Type) : Type := {
  coupling : Coupling D;
  i_timestep_ : Z;
  i_picard_ : Z;
  elem_to_cell_ : list CellHandle;
  cell_to_elems_ : gmap Z (list nat);
  cells_ : list CellHandle;
  elem_volumes_ : list D;
  cell_volumes_ : list D;
  cell_fluid_mask_ : list Z;
  cell_temperatures_ : list D;
  cell_temperatures_prev_ : list D;
  cell_densities_ : list D;
  cell_densities_prev_ : list D;
  cell_heat_ : list D;
  cell_heat_prev_ : list D
}.
Arguments power_ {D} _.
Arguments max_timesteps_ {D} _.
Arguments max_picard_iter_ {D} _.
Arguments epsilon_ {D} _.
Arguments alpha_ {D} _.
Arguments alpha_T_ {D} _.
Arguments alpha_rho_ {D} _.
Arguments norm_ {D} _.
Arguments temperature_ic_ {D} _.
Arguments density_ic_ {D} _.
Arguments coupling {D} _.
Arguments i_timestep_ {D} _.
Arguments i_picard_ {D} _.
Arguments elem_to_cell_ {D} _.
Arguments cell_to_elems_ {D} _.
Arguments cells_ {D} _.
Arguments elem_volumes_ {D} _.
Arguments cell_volumes_ {D} _.
Arguments cell_fluid_mask_ {D} _.
Arguments cell_temperatures_ {D} _.
Arguments cell_temperatures_prev_ {D} _.
Arguments cell_densities_ {D} _.
Arguments cell_densities_prev_ {D} _.
Arguments cell_heat_ {D} _.
Arguments cell_heat_prev_ {D} _.

(** Assignment to one member; the others keep their value. *)
Section Setters.
Context {D : Type}.

Definition set_i_picard_ (v : Z) (this : CoupledDriver D)
  : CoupledDriver D :=
  {| coupling := coupling this; i_timestep_ := i_timestep_ this;
     i_picard_ := v; elem_to_cell_ := elem_to_cell_ this;
     cell_to_elems_ := cell_to_elems_ this; cells_ := cells_ this;
     elem_volumes_ := elem_volumes_ this;
     cell_volumes_ := cell_volumes_ this;
     cell_fluid_mask_ := cell_fluid_mask_ this;
     cell_temperatures_ := cell_temperatures_ this;
     cell_temperatures_prev_ := cell_temperatures_prev_ this;
     cell_densities_ := cell_densities_ this;
     cell_densities_prev_ := cell_densities_prev_ this;
     cell_heat_ := cell_heat_ this;
     cell_heat_prev_ := cell_heat_prev_ this |}.

Definition set_elem_to_cell_ (v : list CellHandle) (this : CoupledDriver D)
  : CoupledDriver D :=
  {| coupling := coupling this; i_timestep_ := i_timestep_ this;
     i_picard_ := i_picard_ this; elem_to_cell_ := v;
     cell_to_elems_ := cell_to_elems_ this; cells_ := cells_ this;
     elem_volumes_ := elem_volumes_ this;
     cell_volumes_ := cell_volumes_ this;
     cell_fluid_mask_ := cell_fluid_mask_ this;
     cell_temperatures_ := cell_temperatures_ this;
     cell_temperatures_prev_ := cell_temperatures_prev_ this;
     cell_densities_ := cell_densities_ this;
     cell_densities_prev_ := cell_densities_prev_ this;
     cell_heat_ := cell_heat_ this;
     cell_heat_prev_ := cell_heat_prev_ this |}.

Definition set_cell_to_elems_ (v : gmap Z (list nat)) (this : CoupledDriver D)
  : CoupledDriver D :=
  {| coupling := coupling this; i_timestep_ := i_timestep_ this;
     i_picard_ := i_picard_ this; elem_to_cell_ := elem_to_cell_ this;
     cell_to_elems_ := v; cells_ := cells_ this;
     elem_volumes_ := elem_volumes_ this;
     cell_volumes_ := cell_volumes_ this;
     cell_fluid_mask_ := cell_fluid_mask_ this;
     cell_temperatures_ := cell_temperatures_ this;
     cell_temperatures_prev_ := cell_temperatures_prev_ this;
     cell_densities_ := cell_densities_ this;
     cell_densities_prev_ := cell_densities_prev_ this;
     cell_heat_ := cell_heat_ this;
     cell_heat_prev_ := cell_heat_prev_ this |}.

Definition set_cells_ (v : list CellHandle) (this : CoupledDriver D)
  : CoupledDriver D :=
  {| coupling := coupling this; i_timestep_ := i_timestep_ this;
     i_picard_ := i_picard_ this; elem_to_cell_ := elem_to_cell_ this;
     cell_to_elems_ := cell_to_elems_ this; cells_ := v;
     elem_volumes_ := elem_volumes_ this;
     cell_volumes_ := cell_volumes_ this;
     cell_fluid_mask_ := cell_fluid_mask_ this;
     cell_temperatures_ := cell_temperatures_ this;
     cell_temperatures_prev_ := cell_temperatures_prev_ this;
     cell_densities_ := cell_densities_ this;
     cell_densities_prev_ := cell_densities_prev_ this;
     cell_heat_ := cell_heat_ this;
     cell_heat_prev_ := cell_heat_prev_ this |}.

Definition set_elem_volumes_ (v : list D) (this : CoupledDriver D)
  : CoupledDriver D :=
  {| coupling := coupling this; i_timestep_ := i_timestep_ this;
     i_picard_ := i_picard_ this; elem_to_cell_ := elem_to_cell_ this;
     cell_to_elems_ := cell_to_elems_ this; cells_ := cells_ this;
     elem_volumes_ := v; cell_volumes_ := cell_volumes_ this;
     cell_fluid_mask_ := cell_fluid_mask_ this;
     cell_temperatures_ := cell_temperatures_ this;
     cell_temperatures_prev_ := cell_temperatures_prev_ this;
     cell_densities_ := cell_densities_ this;
     cell_densities_prev_ := cell_densities_prev_ this;
     cell_heat_ := cell_heat_ this;
     cell_heat_prev_ := cell_heat_prev_ this |}.

Definition set_cell_volumes_ (v : list D) (this : CoupledDriver D)
  : CoupledDriver D :=
  {| coupling := coupling this; i_timestep_ := i_timestep_ this;
     i_picard_ := i_picard_ this; elem_to_cell_ := elem_to_cell_ this;
     cell_to_elems_ := cell_to_elems_ this; cells_ := cells_ this;
     elem_volumes_ := elem_volumes_ this; cell_volumes_ := v;
     cell_fluid_mask_ := cell_fluid_mask_ this;
     cell_temperatures_ := cell_temperatures_ this;
     cell_temperatures_prev_ := cell_temperatures_prev_ this;
     cell_densities_ := cell_densities_ this;
     cell_densities_prev_ := cell_densities_prev_ this;
     cell_heat_ := cell_heat_ this;
     cell_heat_prev_ := cell_heat_prev_ this |}.

Definition set_cell_fluid_mask_ (v : list Z) (this : CoupledDriver D)
  : CoupledDriver D :=
  {| coupling := coupling this; i_timestep_ := i_timestep_ this;
     i_picard_ := i_picard_ this; elem_to_cell_ := elem_to_cell_ this;
     cell_to_elems_ := cell_to_elems_ this; cells_ := cells_ this;
     elem_volumes_ := elem_volumes_ this;
     cell_volumes_ := cell_volumes_ this; cell_fluid_mask_ := v;
     cell_temperatures_ := cell_temperatures_ this;
     cell_temperatures_prev_ := cell_temperatures_prev_ this;
     cell_densities_ := cell_densities_ this;
     cell_densities_prev_ := cell_densities_prev_ this;
     cell_heat_ := cell_heat_ this;
     cell_heat_prev_ := cell_heat_prev_ this |}.

Definition set_cell_temperatures_ (v : list D) (this : CoupledDriver D)
  : CoupledDriver D :=
  {| coupling := coupling this; i_timestep_ := i_timestep_ this;
     i_picard_ := i_picard_ this; elem_to_cell_ := elem_to_cell_ this;
     cell_to_elems_ := cell_to_elems_ this; cells_ := cells_ this;
     elem_volumes_ := elem_volumes_ this;
     cell_volumes_ := cell_volumes_ this;
     cell_fluid_mask_ := cell_fluid_mask_ this; cell_temperatures_ := v;
     cell_temperatures_prev_ := cell_temperatures_prev_ this;
     cell_densities_ := cell_densities_ this;
     cell_densities_prev_ := cell_densities_prev_ this;
     cell_heat_ := cell_heat_ this;
     cell_heat_prev_ := cell_heat_prev_ this |}.

Definition set_cell_temperatures_prev_ (v : list D) (this : CoupledDriver D)
  : CoupledDriver D :=
  {| coupling := coupling this; i_timestep_ := i_timestep_ this;
     i_picard_ := i_picard_ this; elem_to_cell_ := elem_to_cell_ this;
     cell_to_elems_ := cell_to_elems_ this; cells_ := cells_ this;
     elem_volumes_ := elem_volumes_ this;
     cell_volumes_ := cell_volumes_ this;
     cell_fluid_mask_ := cell_fluid_mask_ this;
     cell_temperatures_ := cell_temperatures_ this;
     cell_temperatures_prev_ := v; cell_densities_ := cell_densities_ this;
     cell_densities_prev_ := cell_densities_prev_ this;
     cell_heat_ := cell_heat_ this;
     cell_heat_prev_ := cell_heat_prev_ this |}.

Definition set_cell_densities_ (v : list D) (this : CoupledDriver D)
  : CoupledDriver D :=
  {| coupling := coupling this; i_timestep_ := i_timestep_ this;
     i_picard_ := i_picard_ this; elem_to_cell_ := elem_to_cell_ this;
     cell_to_elems_ := cell_to_elems_ this; cells_ := cells_ this;
     elem_volumes_ := elem_volumes_ this;
     cell_volumes_ := cell_volumes_ this;
     cell_fluid_mask_ := cell_fluid_mask_ this;
     cell_temperatures_ := cell_temperatures_ this;
     cell_temperatures_prev_ := cell_temperatures_prev_ this;
     cell_densities_ := v;
     cell_densities_prev_ := cell_densities_prev_ this;
     cell_heat_ := cell_heat_ this;
     cell_heat_prev_ := cell_heat_prev_ this |}.

Definition set_cell_densities_prev_ (v : list D) (this : CoupledDriver D)
  : CoupledDriver D :=
  {| coupling := coupling this; i_timestep_ := i_timestep_ this;
     i_picard_ := i_picard_ this; elem_to_cell_ := elem_to_cell_ this;
     cell_to_elems_ := cell_to_elems_ this; cells_ := cells_ this;
     elem_volumes_ := elem_volumes_ this;
     cell_volumes_ := cell_volumes_ this;
     cell_fluid_mask_ := cell_fluid_mask_ this;
     cell_temperatures_ := cell_temperatures_ this;
     cell_temperatures_prev_ := cell_temperatures_prev_ this;
     cell_densities_ := cell_densities_ this; cell_densities_prev_ := v;
     cell_heat_ := cell_heat_ this;
     cell_heat_prev_ := cell_heat_prev_ this |}.

Definition set_cell_heat_ (v : list D) (this : CoupledDriver D)
  : CoupledDriver D :=
  {| coupling := coupling this; i_timestep_ := i_timestep_ this;
     i_picard_ := i_picard_ this; elem_to_cell_ := elem_to_cell_ this;
     cell_to_elems_ := cell_to_elems_ this; cells_ := cells_ this;
     elem_volumes_ := elem_volumes_ this;
     cell_volumes_ := cell_volumes_ this;
     cell_fluid_mask_ := cell_fluid_mask_ this;
     cell_temperatures_ := cell_temperatures_ this;
     cell_temperatures_prev_ := cell_temperatures_prev_ this;
     cell_densities_ := cell_densities_ this;
     cell_densities_prev_ := cell_densities_prev_ this; cell_heat_ := v;
     cell_heat_prev_ := cell_heat_prev_ this |}.

Definition set_cell_heat_prev_ (v : list D) (this : CoupledDriver D)
  : CoupledDriver D :=
  {| coupling := coupling this; i_timestep_ := i_timestep_ this;
     i_picard_ := i_picard_ this; elem_to_cell_ := elem_to_cell_ this;
     cell_to_elems_ := cell_to_elems_ this; cells_ := cells_ this;
     elem_volumes_ := elem_volumes_ this;
     cell_volumes_ := cell_volumes_ this;
     cell_fluid_mask_ := cell_fluid_mask_ this;
     cell_temperatures_ := cell_temperatures_ this;
     cell_temperatures_prev_ := cell_temperatures_prev_ this;
     cell_densities_ := cell_densities_ this;
     cell_densities_prev_ := cell_densities_prev_ this;
     cell_heat_ := cell_heat_ this; cell_heat_prev_ := v |}.

End Setters.

(** ** The two solvers, as the driver sees them on one process *)

(** The heat-fluids solver: [active()], the local element arrays, and the
    return code of [set_heat_source_at] (zero on success). *)
Record HeatFluidsDriver (D Position : Type) : Type := {
  heat_active : bool;
  temperature_local : list D;
  density_local : list D;
  volume_local : list D;
  fluid_mask_local : list Z;
  centroid_local : list Position;
  set_heat_source_at : nat -> D -> Z
}.
Arguments heat_active {D Position} _.
Arguments temperature_local {D Position} _.
Arguments density_local {D Position} _.
Arguments volume_local {D Position} _.
Arguments fluid_mask_local {D Position} _.
Arguments centroid_local {D Position} _.
Arguments set_heat_source_at {D Position} _ _ _.

(** The neutronics solver: [active()], the cell queries and [find]. *)
Record NeutronicsDriver (D Position : Type) : Type := {
  neutronics_active : bool;
  get_volume : CellHandle -> D;
  get_temperature : CellHandle -> D;
  get_density : CellHandle -> D;
  find : list Position -> list CellHandle
}.
Arguments neutronics_active {D Position} _.
Arguments get_volume {D Position} _ _.
Arguments get_temperature {D Position} _ _.
Arguments get_density {D Position} _ _.
Arguments find {D Position} _ _.

(** ** The methods of [CoupledDriver], on one process *)

Section Driver.
Context {D Position : Type} `{DoubleOps D}.

(** The sentinel [ROBBINS_MONRO] is declared in [coupled_driver.h]; its
    value is a parameter here. *)
Variable ROBBINS_MONRO : D.

(** A default-constructed driver: empty containers, counters at zero. *)
Definition blank (c : Coupling D) : CoupledDriver D :=
  {| coupling := c; i_timestep_ := 0; i_picard_ := 0;
     elem_to_cell_ := []; cell_to_elems_ := ∅; cells_ := [];
     elem_volumes_ := []; cell_volumes_ := []; cell_fluid_mask_ := [];
     cell_temperatures_ := []; cell_temperatures_prev_ := [];
     cell_densities_ := []; cell_densities_prev_ := [];
     cell_heat_ := []; cell_heat_prev_ := [] |}.

(** The value of a computation that did not stop. *)
Definition result_of {A} (o : outcome A) (otherwise : A) : A :=
  match o with
  | Ok a => a
  | Abort _ => otherwise
  end.

(** *** Relaxation *)

(** One entry of the relaxed array (lines 329-334, 380-387, 449-455):
    [x] is the entry of the current array, [x_prev] the entry of the
    previous one.  [n] is the [int] [i_picard_ + 1]; inside the Picard
    loop [i_picard_] is below [max_picard_iter_], so the sum does not
    wrap. *)
Definition relax_at (alpha : D) (i_picard : Z) (x x_prev : D) : D :=
  if (alpha =? ROBBINS_MONRO)%D then
    let n := of_int (i_picard + 1) in
    (x / n + (d1 - d1 / n) * x_prev)%D
  else
    (alpha * x + (d1 - alpha) * x_prev)%D.

(** An xtensor expression over two one-dimensional arrays.  The driver
    sizes both from [cells_.size()]; arrays of different length are
    treated as the shape error xtensor raises (the broadcast of a
    one-entry array is left out). *)
Definition xt_zip (f : D -> D -> D) (a b : list D) : outcome (list D) :=
  if decide (length a = length b) then Ok (zip_with f a b)
  else Abort shape_mismatch.

Definition relax (alpha : D) (i_picard : Z) (cur prev : list D)
  : outcome (list D) :=
  xt_zip (relax_at alpha i_picard) cur prev.

(** *** Volume averages *)

(** The inner loop over the elements of one cell (lines 366-375 and
    437-444): running sums of value times volume and of volume, then the
    quotient, which must be positive. *)
Definition volume_sums (values volumes : list D) (elems : list nat)
  : outcome (D * D) :=
  foldM (fun acc e =>
           T ← at_ values e;
           V ← at_ volumes e;
           Ok ((acc.1 + T * V)%D, (acc.2 + V)%D))
        (d0, d0) elems.

Definition volume_average (values volumes : list D) (elems : list nat)
  : outcome D :=
  acc ← volume_sums values volumes elems;
  let avg := (acc.1 / acc.2)%D in
  _ ← Ensures (d0 <? avg)%D;
  Ok avg.

(** The values [i] takes in [for (gsl::index i = 0; i < n; ++i)]. *)
Definition indices (n : nat) : list nat := seq 0 n.

(** *** [update_temperature], steps 1 and 2 (lines 354-389) *)

Definition average_temperatures (heat : HeatFluidsDriver D Position)
    (this : CoupledDriver D) : outcome (list D) :=
  let elem_temperatures := temperature_local heat in
  foldM (fun temps i =>
           c ← at_ (cells_ this) i;
           elems ← map_at (cell_to_elems_ this) c;
           avg_temp ← volume_average elem_temperatures
                                     (elem_volumes_ this) elems;
           set_at temps i avg_temp)
        (cell_temperatures_ this) (indices (length (cells_ this))).

Definition update_temperature_local (relax_flag : bool)
    (heat : HeatFluidsDriver D Position) (this : CoupledDriver D)
  : outcome (CoupledDriver D) :=
  (* Step 1 *)
  this ← (if relax_flag && heat_active heat then
            prev ← std_copy (cell_temperatures_ this)
                            (cell_temperatures_prev_ this);
            Ok (set_cell_temperatures_prev_ prev this)
          else Ok this);
  (* Step 2 *)
  if heat_active heat then
    temps ← average_temperatures heat this;
    temps ← (if relax_flag then
               relax (alpha_T_ (coupling this)) (i_picard_ this)
                     temps (cell_temperatures_prev_ this)
             else Ok temps);
    Ok (set_cell_temperatures_ temps this)
  else Ok this.

(** *** [update_density], steps 1 and 2 (lines 427-457) *)

Definition average_densities (heat : HeatFluidsDriver D Position)
    (this : CoupledDriver D) : outcome (list D) :=
  let elem_densities := density_local heat in
  foldM (fun dens i =>
           mask ← at_ (cell_fluid_mask_ this) i;
           if (mask =? 1)%Z then
             c ← at_ (cells_ this) i;
             elems ← map_at (cell_to_elems_ this) c;
             avg_rho ← volume_average elem_densities
                                      (elem_volumes_ this) elems;
             set_at dens i avg_rho
           else Ok dens)
        (cell_densities_ this) (indices (length (cells_ this))).

Definition update_density_local (relax_flag : bool)
    (heat : HeatFluidsDriver D Position) (this : CoupledDriver D)
  : outcome (CoupledDriver D) :=
  (* Step 1: the destination of the copy is [cell_densities_] itself *)
  this ← (if relax_flag && heat_active heat then
            dens ← std_copy (cell_densities_ this) (cell_densities_ this);
            Ok (set_cell_densities_ dens this)
          else Ok this);
  (* Step 2 *)
  if heat_active heat then
    dens ← average_densities heat this;
    dens ← (if relax_flag then
              relax (alpha_rho_ (coupling this)) (i_picard_ this)
                    dens (cell_densities_prev_ this)
            else Ok dens);
    Ok (set_cell_densities_ dens this)
  else Ok this.

(** *** [update_heat_source] (lines 291-346) *)

(** The values of [i] in [for (gsl::index i; i < cells_.size(); ++i)]
    (line 339).  The declaration has no initialiser: [i_start] is
    whatever the variable holds when the loop is reached.  The
    comparison is unsigned, so a negative start ends the loop at once. *)
Definition indices_from (i_start : Z) (n : nat) : list nat :=
  if (i_start <? 0)%Z then []
  else seq (Z.to_nat i_start) (n - Z.to_nat i_start).

(** [err_chk(heat.set_heat_source_at(e, q), ...)]: a non-zero return code
    becomes an exception. *)
Definition err_chk (rc : Z) (what : string) : outcome unit :=
  if (rc =? 0)%Z then Ok tt else Abort (runtime_error what).

(** The inner loop of lines 340-343 for cell number [i]: the calls of
    [set_heat_source_at] (element, value) are appended to [calls]. *)
Definition set_heat_source_of_cell (heat : HeatFluidsDriver D Position)
    (this : CoupledDriver D) (i : nat) (calls : list (nat * D))
    (elems : list nat) : outcome (list (nat * D)) :=
  foldM (fun calls e =>
           q ← at_ (cell_heat_ this) i;
           _ ← err_chk (set_heat_source_at heat e q)
                 "Error setting heat source";
           Ok (calls ++ [(e, q)]))
        calls elems.

(** The loop of lines 339-344 over the cell numbers in [range]. *)
Definition set_heat_source (heat : HeatFluidsDriver D Position)
    (this : CoupledDriver D) (range : list nat)
  : outcome (list (nat * D)) :=
  foldM (fun calls i =>
           c ← at_ (cells_ this) i;
           elems ← map_at (cell_to_elems_ this) c;
           set_heat_source_of_cell heat this i calls elems)
        [] range.

(** The driver after the call, and the calls of [set_heat_source_at] in
    the order they are made.  The heat source that the neutronics root
    computes on line 309 stays in a local variable: the loop of lines
    311-325 has an empty body. *)
Definition update_heat_source (relax_flag : bool) (i_start : Z)
    (heat : HeatFluidsDriver D Position) (this : CoupledDriver D)
  : outcome (CoupledDriver D * list (nat * D)) :=
  this ← (if relax_flag && heat_active heat then
            prev ← std_copy (cell_heat_ this) (cell_heat_prev_ this);
            Ok (set_cell_heat_prev_ prev this)
          else Ok this);
  this ← (if relax_flag && heat_active heat then
            q ← relax (alpha_ (coupling this)) (i_picard_ this)
                      (cell_heat_ this) (cell_heat_prev_ this);
            Ok (set_cell_heat_ q this)
          else Ok this);
  calls ← (if heat_active heat then
             set_heat_source heat this
               (indices_from i_start (length (cells_ this)))
           else Ok []);
  Ok (this, calls).

(** *** Initialisation on one process *)

(** Storage whose contents are not initialised ([xt::empty], and
    [resize] to a new shape): [n] entries taken from [garbage], the
    bytes that happen to be there. *)
Definition uninitialized (garbage : list D) (n : nat) : list D :=
  resize n d0 garbage.

(** [a.resize({n})] on an xtensor array: nothing happens when the shape
    is already [n]. *)
Definition xt_resize (garbage : list D) (n : nat) (a : list D) : list D :=
  if decide (length a = n) then a else uninitialized garbage n.

(** The block of [init_mappings] a heat rank runs on the map it received
    (lines 509-517): [operator[]] creates the entry of a new cell. *)
Definition push_back_elem (m : gmap Z (list nat)) (c : CellHandle)
    (e : nat) : gmap Z (list nat) :=
  <[c := default [] (m !! c) ++ [e]]> m.

Fixpoint invert_from (e : nat) (elem_to_cell : list CellHandle)
    (m : gmap Z (list nat)) : gmap Z (list nat) :=
  match elem_to_cell with
  | [] => m
  | c :: rest => invert_from (S e) rest (push_back_elem m c e)
  end.

Definition invert_mapping (this : CoupledDriver D) : CoupledDriver D :=
  let m := invert_from 0 (elem_to_cell_ this) (cell_to_elems_ this) in
  let this := set_cell_to_elems_ m this in
  set_cells_ (cells_ this ++ (map_items m).*1) this.

(** [init_volumes] (lines 579-588). *)
Definition init_volumes (heat : HeatFluidsDriver D Position)
    (this : CoupledDriver D) : outcome (CoupledDriver D) :=
  if heat_active heat then
    let this := set_elem_volumes_ (volume_local heat) this in
    vols ← foldM (fun vols c =>
                    elems ← map_at (cell_to_elems_ this) c;
                    V ← foldM (fun V e =>
                                 v ← at_ (elem_volumes_ this) e;
                                 Ok (V + v)%D)
                              d0 elems;
                    Ok (vols ++ [V]))
                 (cell_volumes_ this) (cells_ this);
    Ok (set_cell_volumes_ vols this)
  else Ok this.

(** [init_cell_fluid_mask] (lines 656-671).  The unchecked [[0]] on the
    element list of a cell is read as a checked access. *)
Definition init_cell_fluid_mask (heat : HeatFluidsDriver D Position)
    (this : CoupledDriver D) : outcome (CoupledDriver D) :=
  if heat_active heat then
    let elem_fluid_mask := fluid_mask_local heat in
    let mask0 := resize (length (cells_ this)) 0%Z
                        (cell_fluid_mask_ this) in
    mask ← foldM (fun mask i =>
                    c ← at_ (cells_ this) i;
                    elems ← map_at (cell_to_elems_ this) c;
                    e ← at_ elems 0;
                    f ← at_ elem_fluid_mask e;
                    set_at mask i f)
                 mask0 (indices (length (cells_ this)));
    Ok (set_cell_fluid_mask_ mask this)
  else Ok this.

(** [init_heat_source] (lines 673-682). *)
Definition init_heat_source (garbage garbage_prev : list D)
    (heat : HeatFluidsDriver D Position) (this : CoupledDriver D)
  : CoupledDriver D :=
  if heat_active heat then
    let n := length (cells_ this) in
    set_cell_heat_prev_ (uninitialized garbage_prev n)
      (set_cell_heat_ (uninitialized garbage n) this)
  else this.

(** ** The processes of a run *)

(** One process of the global communicator [comm_]: its [CoupledDriver]
    and its two solver objects. *)
Record Process : Type := {
  this_ : CoupledDriver D;
  heat : HeatFluidsDriver D Position;
  neutronics : NeutronicsDriver D Position
}.

Definition set_this_ (v : CoupledDriver D) (p : Process) : Process :=
  {| this_ := v; heat := heat p; neutronics := neutronics p |}.

Definition in_heat (p : Process) : bool := heat_active (heat p).
Definition in_neutronics (p : Process) : bool :=
  neutronics_active (neutronics p).

(** *** Communicators *)

(** Modelled from the spec: [comm.h] and [comm_split.h] are not part of
    the sources.  A run is the list of its processes, the position in
    the list being the rank in [comm_]; a solver's communicator holds the
    processes on which the solver is active, ranked in the order of
    their global ranks, and its root is its rank 0.  Every transfer and
    collective is blocking, so a method is run in lock step on all
    processes. *)
Definition gather_subcomm_ranks {S} (member : S -> bool) (w : list S)
  : list nat :=
  (filter (fun ip => member ip.2 = true) (imap pair w)).*1.

(** Modelled from the spec: [Comm::is_root] holds on rank 0 of the
    communicator, here the first of its members. *)
Definition is_root (ranks : list nat) (rank : nat) : bool :=
  match ranks with
  | r :: _ => Nat.eqb r rank
  | [] => false
  end.

(** [MPI_Allreduce(..., MPI_MAX, ...)] on one [int] per process. *)
Definition allreduce_max (vals : list Z) : Z :=
  match vals with
  | [] => -1
  | v :: vs => foldl Z.max v vs
  end.

(** Lines 161-162 and 165-166: the global rank of a solver's root,
    or -1 when no process holds that solver. *)
Definition root_of {S} (member : S -> bool) (w : list S) : Z :=
  let ranks := gather_subcomm_ranks member w in
  allreduce_max
    (imap (fun rank _ => if is_root ranks rank then Z.of_nat rank else -1) w).

Definition heat_ranks_ (w : list Process) : list nat :=
  gather_subcomm_ranks in_heat w.
Definition neutronics_root_ (w : list Process) : Z := root_of in_neutronics w.
Definition heat_root_ (w : list Process) : Z := root_of in_heat w.

Definition at_rank {S} (w : list S) (rank : Z) : option S :=
  if (rank <? 0)%Z then None else w !! Z.to_nat rank.

(** Modelled from the spec: [Comm::send_and_recv(value, dest, source)]
    moves the value held by [source] into the variable of [dest]; a
    rank outside the communicator is an MPI error. *)
Definition send_and_recv {S A} (get : S -> A) (set : A -> S -> S)
    (dest source : Z) (w : list S) : outcome (list S) :=
  match at_rank w source, at_rank w dest with
  | Some src, Some _ => Ok (alter (set (get src)) (Z.to_nat dest) w)
  | _, _ => Abort mpi_error
  end.

(** Modelled from the spec: [Comm::broadcast(value, root)] gives every
    member of the communicator the value held by its root. *)
Definition broadcast {S A} (member : S -> bool) (get : S -> A)
    (set : A -> S -> S) (root : Z) (w : list S) : outcome (list S) :=
  match at_rank w root with
  | Some r => Ok (map (fun p => if member p then set (get r) p else p) w)
  | None => Abort mpi_error
  end.

(** [MPI_Reduce] to the root of a communicator: the contributions of
    its members, combined in rank order. *)
Definition reduce (op : D -> D -> D) (contributions : list D) : D :=
  match contributions with
  | [] => d0
  | x :: xs => foldl op x xs
  end.

(** A method that only works on process-local data runs on every
    process; the first failure stops the run. *)
Definition on_each {S T} (f : S -> outcome T) (w : list S)
  : outcome (list T) :=
  mapM f w.

(** *** [init_mappings] (lines 491-521) *)

(** One pass of the loop over [heat_ranks_] (lines 499-519).  During the
    pass a process also holds the local vector [centroids]. *)
Definition init_mappings_round (root : Z) (w : list Process)
    (heat_rank : nat) : outcome (list Process) :=
  let ws := imap (fun rank p =>
                    (p, if Nat.eqb rank heat_rank
                        then centroid_local (heat p) else []))
                 w in
  ws ← send_and_recv snd (fun c s => (s.1, c))
                     root (Z.of_nat heat_rank) ws;
  let ws := imap (fun rank s =>
                    if (Z.of_nat rank =? root)%Z then
                      (set_this_
                         (set_elem_to_cell_ (find (neutronics s.1) s.2)
                                            (this_ s.1)) s.1, s.2)
                    else s)
                 ws in
  ws ← send_and_recv (fun s => elem_to_cell_ (this_ s.1))
                     (fun v s =>
                        (set_this_ (set_elem_to_cell_ v (this_ s.1)) s.1,
                         s.2))
                     (Z.of_nat heat_rank) root ws;
  Ok (imap (fun rank s =>
              if Nat.eqb rank heat_rank
              then set_this_ (invert_mapping (this_ s.1)) s.1
              else s.1)
           ws).

Definition init_mappings (w : list Process) : outcome (list Process) :=
  foldM (init_mappings_round (neutronics_root_ w)) w (heat_ranks_ w).

(** *** The exchange of steps 3 and 4 *)

(** During steps 3 and 4 a process also holds a local [std::map]. *)
Definition on_driver {L} (f : CoupledDriver D -> CoupledDriver D)
    (s : Process * L) : Process * L :=
  (set_this_ (f (this_ s.1)) s.1, s.2).

(** [comm_.send_and_recv(x, neutronics_root_, heat_rank)] followed by
    [neutronics.comm_.broadcast(x)] for a member [x]. *)
Definition gather_then_broadcast {L A} (get : CoupledDriver D -> A)
    (set : A -> CoupledDriver D -> CoupledDriver D)
    (root : Z) (heat_rank : nat) (ws : list (Process * L))
  : outcome (list (Process * L)) :=
  ws ← send_and_recv (fun s => get (this_ s.1))
                     (fun a => on_driver (set a))
                     root (Z.of_nat heat_rank) ws;
  broadcast (fun s => in_neutronics s.1) (fun s => get (this_ s.1))
            (fun a => on_driver (set a)) root ws.

(** [m[c] += x] on a [std::map<CellHandle, double>]: a missing entry
    starts at 0.0. *)
Definition add_to (m : gmap Z D) (c : CellHandle) (x : D) : gmap Z D :=
  <[c := (default d0 (m !! c) + x)%D]> m.

(** Lines 405-409. *)
Definition accumulate_T_dot_V (this : CoupledDriver D) (T_dot_V : gmap Z D)
  : outcome (gmap Z D) :=
  foldM (fun m i =>
           T ← at_ (cell_temperatures_ this) i;
           V ← at_ (cell_volumes_ this) i;
           c ← at_ (cells_ this) i;
           Ok (add_to m c (T * V)%D))
        T_dot_V (indices (length (cells_ this))).

(** Lines 473-479. *)
Definition accumulate_rho_dot_V (this : CoupledDriver D)
    (rho_dot_V : gmap Z D) : outcome (gmap Z D) :=
  foldM (fun m i =>
           mask ← at_ (cell_fluid_mask_ this) i;
           if (mask =? 1)%Z then
             rho ← at_ (cell_densities_ this) i;
             V ← at_ (cell_volumes_ this) i;
             c ← at_ (cells_ this) i;
             Ok (add_to m c (rho * V)%D)
           else Ok m)
        rho_dot_V (indices (length (cells_ this))).

(** Step 3 for one heat rank, with the accumulation loop [acc]. *)
Definition exchange_round
    (get : CoupledDriver D -> list D)
    (set : list D -> CoupledDriver D -> CoupledDriver D)
    (acc : CoupledDriver D -> gmap Z D -> outcome (gmap Z D))
    (root : Z) (ws : list (Process * gmap Z D)) (heat_rank : nat)
  : outcome (list (Process * gmap Z D)) :=
  ws ← gather_then_broadcast get set root heat_rank ws;
  ws ← gather_then_broadcast cells_ set_cells_ root heat_rank ws;
  ws ← gather_then_broadcast cell_volumes_ set_cell_volumes_
                             root heat_rank ws;
  on_each (fun s =>
             if in_neutronics s.1 then
               m ← acc (this_ s.1) s.2; Ok (s.1, m)
             else Ok s)
          ws.

(** Step 4: the calls [neutronics.set_temperature(c, x)] (or
    [set_density]) a process makes, in the order of the map. *)
Definition set_calls (p : Process) (m : gmap Z D)
  : list (CellHandle * D) :=
  map (fun kv => (kv.1, (kv.2 / get_volume (neutronics p) kv.1)%D))
      (map_items m).

(** *** [update_temperature] (lines 348-419) *)

(** The processes after the call and, for each, its calls of
    [neutronics.set_temperature]. *)
Definition update_temperature (relax_flag : bool) (w : list Process)
  : outcome (list Process * list (list (CellHandle * D))) :=
  let root := neutronics_root_ w in
  let ranks := heat_ranks_ w in
  w ← on_each (fun p =>
                 d ← update_temperature_local relax_flag (heat p) (this_ p);
                 Ok (set_this_ d p))
              w;
  ws ← foldM (exchange_round cell_temperatures_ set_cell_temperatures_
                             accumulate_T_dot_V root)
             (map (fun p => (p, ∅)) w) ranks;
  Ok (ws.*1, map (fun s => set_calls s.1 s.2) ws).

(** *** [update_density] (lines 421-489) *)

Definition update_density (relax_flag : bool) (w : list Process)
  : outcome (list Process * list (list (CellHandle * D))) :=
  let root := neutronics_root_ w in
  let ranks := heat_ranks_ w in
  w ← on_each (fun p =>
                 d ← update_density_local relax_flag (heat p) (this_ p);
                 Ok (set_this_ d p))
              w;
  ws ← foldM (exchange_round cell_densities_ set_cell_densities_
                             accumulate_rho_dot_V root)
             (map (fun p => (p, ∅)) w) ranks;
  Ok (ws.*1, map (fun s => set_calls s.1 s.2) ws).

(** *** [init_densities] (lines 621-654) *)

(** [garbage rank] and [garbage_prev rank] are the contents of the
    storage the two [resize] calls obtain on process [rank]. *)
Definition init_densities (ic : Initial)
    (garbage garbage_prev : nat -> list D) (w : list Process)
  : outcome (list Process * list (list (CellHandle * D))) :=
  let root := neutronics_root_ w in
  let ranks := heat_ranks_ w in
  let w := imap (fun rank p =>
                   if in_heat p then
                     let n := length (cells_ (this_ p)) in
                     let d := this_ p in
                     let d := set_cell_densities_
                                (xt_resize (garbage rank) n
                                           (cell_densities_ d)) d in
                     let d := set_cell_densities_prev_
                                (xt_resize (garbage_prev rank) n
                                           (cell_densities_prev_ d)) d in
                     set_this_ d p
                   else p)
                w in
  r ← match ic with
      | Initial_neutronics =>
          w ← foldM (fun w heat_rank =>
                  w ← send_and_recv (fun p => cells_ (this_ p))
                        (fun v p => set_this_ (set_cells_ v (this_ p)) p)
                        root (Z.of_nat heat_rank) w;
                  w ← on_each (fun rp =>
                          let p := rp.2 in
                          if (Z.of_nat rp.1 =? root)%Z then
                            dens ← foldM (fun dens i =>
                                      c ← at_ (cells_ (this_ p)) i;
                                      set_at dens i
                                        (get_density (neutronics p) c))
                                    (cell_densities_ (this_ p))
                                    (indices (length (cells_ (this_ p))));
                            Ok (set_this_
                                  (set_cell_densities_ dens (this_ p)) p)
                          else Ok p)
                        (imap pair w);
                  send_and_recv (fun p => cell_densities_ (this_ p))
                    (fun v p =>
                       set_this_ (set_cell_densities_ v (this_ p)) p)
                    (Z.of_nat heat_rank) root w)
                w ranks;
          Ok (w, map (fun _ => []) w)
      | Initial_heat => update_density false w
      end;
  w ← on_each (fun p =>
                 if in_heat p then
                   prev ← std_copy (cell_densities_ (this_ p))
                                   (cell_densities_prev_ (this_ p));
                   Ok (set_this_
                         (set_cell_densities_prev_ prev (this_ p)) p)
                 else Ok p)
              r.1;
  Ok (w, r.2).

(** *** [temperature_norm] (lines 237-269) *)

(** [xt::amax] folds [std::max] from [numeric_limits<double>::lowest()],
    a constant of the C++ library. *)
Variable DBL_LOWEST : D.

(** The library calls a process makes inside [temperature_norm]. *)
Inductive norm_call : Type :=
  | call_MPI_Reduce (sendbuf : D)
  | call_sqrt (x : D).

(** [l_sum] or [l_max] of one process. *)
Definition local_term (norm : Norm) (this : CoupledDriver D)
  : outcome D :=
  diff ← xt_zip dsub (cell_temperatures_ this)
                     (cell_temperatures_prev_ this);
  Ok (match norm with
      | L1 => foldl dadd d0 (map dabs diff)
      | L2 => foldl dadd d0 (map (fun x => x * x)%D diff)
      | LINF => foldl dmax DBL_LOWEST (map dabs diff)
      end).

(** The sum, over the cells of one process, of the squared difference
    between the current and the previous cell temperature. *)
Definition squared_change (this : CoupledDriver D) : D :=
  foldl dadd d0
        (map (fun x => x * x)%D
             (zip_with dsub (cell_temperatures_ this)
                       (cell_temperatures_prev_ this))).

(** The value [temperature_norm] returns on each process, with the
    calls it made.  [g_sum rank] is what the uninitialised local
    [g_sum] holds on process [rank] before the reduction; only the
    root's receive buffer is written by [MPI_Reduce]. *)
Definition temperature_norm (norm : Norm) (g_sum : nat -> D)
    (w : list Process) : outcome (list (D * list norm_call)) :=
  let heat_comm := heat_ranks_ w in
  locals ← on_each (fun p =>
                      if in_heat p then
                        l ← local_term norm (this_ p); Ok (Some l)
                      else Ok None)
                   w;
  let contributions := omap (fun l => l) locals in
  let reduced := match norm with
                 | LINF => reduce dmax contributions
                 | _ => reduce dadd contributions
                 end in
  Ok (imap (fun rank local =>
              let tnorm := d0 in
              match local with
              | None => (tnorm, [])
              | Some l =>
                  let recv (buf : D) :=
                    if is_root heat_comm rank then reduced else buf in
                  match norm with
                  | L1 => (recv tnorm, [call_MPI_Reduce l])
                  | L2 => let g := recv (g_sum rank) in
                          (dsqrt g, [call_MPI_Reduce l; call_sqrt g])
                  | LINF => (recv tnorm, [call_MPI_Reduce l])
                  end
              end)
           locals).

(** *** [is_converged] (lines 271-289) *)

(** The value returned on each process.  [converged rank] is what the
    uninitialised local [converged] holds on process [rank]. *)
Definition is_converged (norm : Norm) (g_sum : nat -> D)
    (converged : nat -> bool) (w : list Process) : outcome (list bool) :=
  let root := heat_root_ w in
  norms ← temperature_norm norm g_sum w;
  let locals :=
    imap (fun rank pn =>
            let p := pn.1 in
            let norm := pn.2.1 in
            (if (Z.of_nat rank =? root)%Z
             then (norm <? epsilon_ (coupling (this_ p)))%D
             else converged rank,
             norm))
         (zip w norms) in
  locals ← broadcast (fun _ => true) fst (fun v s => (v, s.2)) root locals;
  locals ← broadcast (fun _ => true) snd (fun v s => (s.1, v)) root locals;
  Ok locals.*1.

(** *** The constructor, up to the checks of lines 106-109 *)

(** The children of the [<coupling>] node the constructor reads: [None]
    when the child is absent, otherwise its text. *)
Record coupling_node : Type := {
  node_power : option string;
  node_max_timesteps : option string;
  node_max_picard_iter : option string;
  node_epsilon : option string;
  node_alpha : option string;
  node_alpha_T : option string;
  node_alpha_rho : option string;
  node_convergence_norm : option string;
  node_temperature_ic : option string;
  node_density_ic : option string
}.

(** [text().as_double()] and [text().as_int()] of pugixml, on the text of
    a node; an absent node reads as zero. *)
Variable as_double : string -> D.
Variable as_int : string -> Z.

Definition text_as_double (node : option string) : D :=
  match node with
  | Some s => as_double s
  | None => d0
  end.

Definition text_as_int (node : option string) : Z :=
  match node with
  | Some s => as_int s
  | None => 0
  end.

(** The lambda [set_alpha] (lines 53-63). *)
Definition set_alpha (node : option string) (alpha : D) : outcome D :=
  match node with
  | Some s =>
      if String.eqb s "robbins-monro" then Ok ROBBINS_MONRO
      else
        let alpha := as_double s in
        _ ← Expects ((d0 <? alpha)%D && (alpha <=? d1)%D);
        Ok alpha
  | None => Ok alpha
  end.

(** A selector given as a number: the child is present, its text is not
    the Robbins-Monro keyword, and it reads as [v]. *)
Definition fixed_coefficient (node : option string) (v : D) : Prop :=
  exists s, node = Some s /\ s <> "robbins-monro" /\ as_double s = v.

(** Membership in the interval (0, 1], with the comparisons of [double]. *)
Definition in_unit_interval (v : D) : bool :=
  (d0 <? v)%D && (v <=? d1)%D.

(** A selector the configuration check refuses, and one it lets pass. *)
Definition rejected (node : option string) : Prop :=
  exists v, fixed_coefficient node v /\ in_unit_interval v = false.

Definition accepted (node : option string) : Prop :=
  node = None \/ node = Some "robbins-monro"
  \/ exists v, fixed_coefficient node v /\ in_unit_interval v = true.

Definition read_initial (node : option string) (default : Initial)
    (what : string) : outcome Initial :=
  match node with
  | Some s =>
      if String.eqb s "neutronics" then Ok Initial_neutronics
      else if String.eqb s "heat_fluids" then Ok Initial_heat
      else Abort (runtime_error what)
  | None => Ok default
  end.

(** Lines 43-109.  [defaults] holds the default member initialisers of
    [coupled_driver.h].  The rest of the constructor builds the
    communicators and the solvers and calls the [init_] methods; the
    Picard loop is in [execute], which needs the constructed object. *)
Definition read_coupling (defaults : Coupling D) (coup_node : coupling_node)
  : outcome (Coupling D) :=
  let power := text_as_double (node_power coup_node) in
  let max_timesteps := text_as_int (node_max_timesteps coup_node) in
  let max_picard_iter := text_as_int (node_max_picard_iter coup_node) in
  let epsilon := match node_epsilon coup_node with
                 | Some s => as_double s
                 | None => epsilon_ defaults
                 end in
  alpha ← set_alpha (node_alpha coup_node) (alpha_ defaults);
  alpha_T ← set_alpha (node_alpha_T coup_node) (alpha_T_ defaults);
  alpha_rho ← set_alpha (node_alpha_rho coup_node) (alpha_rho_ defaults);
  norm ← match node_convergence_norm coup_node with
         | Some s =>
             if String.eqb s "L1" then Ok L1
             else if String.eqb s "L2" then Ok L2
             else if String.eqb s "Linf" then Ok LINF
             else Abort (runtime_error "Invalid value for <convergence_norm>")
         | None => Ok (norm_ defaults)
         end;
  temperature_ic ← read_initial (node_temperature_ic coup_node)
                     (temperature_ic_ defaults)
                     "Invalid value for <temperature_ic>";
  density_ic ← read_initial (node_density_ic coup_node)
                 (density_ic_ defaults)
                 "Invalid value for <density_ic>";
  _ ← Expects (d0 <? power)%D;
  _ ← Expects (0 <=? max_timesteps)%Z;
  _ ← Expects (0 <=? max_picard_iter)%Z;
  _ ← Expects (d0 <? epsilon)%D;
  Ok {| power_ := power;
        max_timesteps_ := max_timesteps;
        max_picard_iter_ := max_picard_iter;
        epsilon_ := epsilon;
        alpha_ := alpha;
        alpha_T_ := alpha_T;
        alpha_rho_ := alpha_rho;
        norm_ := norm;
        temperature_ic_ := temperature_ic;
        density_ic_ := density_ic |}.

End Driver.

(** ** Further definitions used by the properties below *)

Section DriverCalls.
Context {D Position : Type} `{DoubleOps D}.

(** The calls of [set_heat_source_at] that serving the cell numbers in
    [range] amounts to: for each cell number, in order, one call per
    element in the cell's list, with the cell's entry of [cell_heat_]. *)
Definition heat_source_calls (this : CoupledDriver D) (range : list nat)
  : list (nat * D) :=
  flat_map (fun i =>
              match cells_ this !! i, cell_heat_ this !! i with
              | Some c, Some q =>
                  map (fun e => (e, q))
                      (default [] (cell_to_elems_ this !! c))
              | _, _ => []
              end)
           range.

End DriverCalls.

Section NormTerms.
Context {D : Type} `{DoubleOps D}.
Variable DBL_LOWEST : D.

(** [xt::abs(cell_temperatures_ - cell_temperatures_prev_)] of one
    process. *)
Definition absolute_changes (this : CoupledDriver D) : list D :=
  map dabs (zip_with dsub (cell_temperatures_ this)
                     (cell_temperatures_prev_ this)).

(** The send buffer of the [MPI_Reduce] of [temperature_norm] on one
    process (lines 246, 252 and 260). *)
Definition local_change (norm : Norm) (this : CoupledDriver D) : D :=
  match norm with
  | L1 => foldl dadd d0 (absolute_changes this)
  | L2 => squared_change this
  | LINF => foldl dmax DBL_LOWEST (absolute_changes this)
  end.

(** The operation of that [MPI_Reduce]: [MPI_MAX] for the maximum norm,
    [MPI_SUM] otherwise. *)
Definition reduce_for (norm : Norm) : list D -> D :=
  match norm with
  | LINF => reduce dmax
  | _ => reduce dadd
  end.

End NormTerms.

Section ExchangeFrame.
Context {D Position : Type} `{DoubleOps D}.

(** What step 3 of [update_temperature] and [update_density] may change
    between two states of a run: the solvers stay, the accumulated map
    stays on a process without the neutronics solver, and such a process
    is left as it is unless it is the neutronics root. *)
Definition exchange_frame (root : Z)
    (ws ws' : list (@Process D Position * gmap Z D)) : Prop :=
  length ws' = length ws
  /\ forall rank s,
       ws !! rank = Some s ->
       exists s',
         ws' !! rank = Some s'
         /\ heat s'.1 = heat s.1
         /\ neutronics s'.1 = neutronics s.1
         /\ (in_neutronics s.1 = false -> s'.2 = s.2)
         /\ (in_neutronics s.1 = false -> Z.of_nat rank <> root -> s' = s).

End ExchangeFrame.

Section InitTemperatures.
Context {D Position : Type} `{DoubleOps D}.
Variable ROBBINS_MONRO : D.

(** *** [init_temperatures] (lines 533-571) *)

(** [garbage rank] and [garbage_prev rank] are the contents of the
    storage the two [resize] calls obtain on process [rank].  The result
    holds the processes after the call and, for each, its calls of
    [neutronics.set_temperature]. *)
Definition init_temperatures (ic : Initial)
    (garbage garbage_prev : nat -> list D) (w : list (@Process D Position))
  : outcome (list (@Process D Position) * list (list (CellHandle * D))) :=
  let root := neutronics_root_ w in
  let ranks := heat_ranks_ w in
  let w := imap (fun rank p =>
                   if in_heat p then
                     let n := length (cells_ (this_ p)) in
                     let d := this_ p in
                     let d := set_cell_temperatures_
                                (xt_resize (garbage rank) n
                                           (cell_temperatures_ d)) d in
                     let d := set_cell_temperatures_prev_
                                (xt_resize (garbage_prev rank) n
                                           (cell_temperatures_prev_ d)) d in
                     set_this_ d p
                   else p)
                w in
  r ← match ic with
      | Initial_neutronics =>
          w ← foldM (fun w heat_rank =>
                  w ← send_and_recv (fun p => cells_ (this_ p))
                        (fun v p => set_this_ (set_cells_ v (this_ p)) p)
                        root (Z.of_nat heat_rank) w;
                  w ← on_each (fun rp =>
                          let p := rp.2 in
                          if (Z.of_nat rp.1 =? root)%Z then
                            temps ← foldM (fun temps i =>
                                       c ← at_ (cells_ (this_ p)) i;
                                       set_at temps i
                                         (get_temperature (neutronics p) c))
                                     (cell_temperatures_ (this_ p))
                                     (indices (length (cells_ (this_ p))));
                            Ok (set_this_
                                  (set_cell_temperatures_ temps (this_ p)) p)
                          else Ok p)
                        (imap pair w);
                  send_and_recv (fun p => cell_temperatures_ (this_ p))
                    (fun v p =>
                       set_this_ (set_cell_temperatures_ v (this_ p)) p)
                    (Z.of_nat heat_rank) root w)
                w ranks;
          Ok (w, map (fun _ => []) w)
      | Initial_heat => update_temperature ROBBINS_MONRO false w
      end;
  w ← on_each (fun p =>
                 if in_heat p then
                   prev ← std_copy (cell_temperatures_ (this_ p))
                                   (cell_temperatures_prev_ (this_ p));
                   Ok (set_this_
                         (set_cell_temperatures_prev_ prev (this_ p)) p)
                 else Ok p)
              r.1;
  Ok (w, r.2).

End InitTemperatures.

Section VolumeCheck.
Context {D Position : Type} `{DoubleOps D}.

(** *** [init_volumes], the whole method (lines 573-619) *)

(** One pass of the loop of lines 597-605, compiled unless [NDEBUG] is
    defined: the neutronics root receives [cells_] and [cell_volumes_] of
    the heat rank into its own members and adds the volumes to its map
    [glob_volumes]. *)
Definition volume_check_round (root : Z)
    (ws : list (@Process D Position * gmap Z D)) (heat_rank : nat)
  : outcome (list (@Process D Position * gmap Z D)) :=
  ws ← send_and_recv
         (fun s : @Process D Position * gmap Z D => cells_ (this_ s.1))
         (fun a => on_driver (set_cells_ a))
         root (Z.of_nat heat_rank) ws;
  ws ← send_and_recv
         (fun s : @Process D Position * gmap Z D =>
            cell_volumes_ (this_ s.1))
         (fun a => on_driver (set_cell_volumes_ a))
         root (Z.of_nat heat_rank) ws;
  on_each (fun rs : nat * (@Process D Position * gmap Z D) =>
             let s := rs.2 in
             if (Z.of_nat rs.1 =? root)%Z then
               m ← foldM (fun m i =>
                            c ← at_ (cells_ (this_ s.1)) i;
                            V ← at_ (cell_volumes_ (this_ s.1)) i;
                            Ok (add_to m c V))
                         s.2 (indices (length (cells_ (this_ s.1))));
               Ok (s.1, m)
             else Ok s)
          (imap pair ws).

(** The method on all processes: the block of lines 579-588 on each of
    them, then, in a build without [NDEBUG], the volume check.  The
    result holds the processes and, for each, the lines it reports
    (cell, neutronics volume, accumulated volume; lines 609-616). *)
Definition init_volumes_collective (NDEBUG : bool)
    (w : list (@Process D Position))
  : outcome (list (@Process D Position)
             * list (list (CellHandle * D * D))) :=
  let root := neutronics_root_ w in
  let ranks := heat_ranks_ w in
  w ← on_each (fun p => d ← init_volumes (heat p) (this_ p);
                        Ok (set_this_ d p)) w;
  if NDEBUG then Ok (w, map (fun _ => []) w)
  else
    ws ← foldM (volume_check_round root) (map (fun p => (p, ∅)) w) ranks;
    Ok (ws.*1,
        imap (fun rank (s : @Process D Position * gmap Z D) =>
                if (Z.of_nat rank =? root)%Z then
                  map (fun kv =>
                         (kv.1, get_volume (neutronics s.1) kv.1, kv.2))
                      (map_items s.2)
                else [])
             ws).

(** *** The [init_] calls of the constructor (lines 170-178) *)

Variable ROBBINS_MONRO : D.

(** [init_tallies] only tells the neutronics solver to create its
    tallies; no member of the driver is involved.  [garbage] is what the
    storage of every freshly sized array holds. *)
Definition construct (NDEBUG : bool) (temperature_ic density_ic : Initial)
    (garbage : list D) (w : list (@Process D Position))
  : outcome (list (@Process D Position)) :=
  w ← init_mappings w;
  r ← init_volumes_collective NDEBUG w;
  w ← on_each (fun p => d ← init_cell_fluid_mask (heat p) (this_ p);
                        Ok (set_this_ d p)) r.1;
  r ← init_temperatures ROBBINS_MONRO temperature_ic
        (fun _ => garbage) (fun _ => garbage) w;
  r ← init_densities ROBBINS_MONRO density_ic
        (fun _ => garbage) (fun _ => garbage) r.1;
  Ok (map (fun p => set_this_ (init_heat_source garbage garbage
                                 (heat p) (this_ p)) p)
          r.1).

End VolumeCheck.

(** ** Concrete runs *)

(** Binary64 constants used in the runs below: a sentinel outside (0,1]
    for [ROBBINS_MONRO], and [numeric_limits<double>::lowest()]. *)
Definition sentinel64 : float := (-1)%float.
Definition lowest64 : float := (-0x1.fffffffffffffp+1023)%float.

(** A configuration whose temperature selector is the number 1.5. *)
Definition toy_as_double (s : string) : float :=
  if String.eqb s "1.5" then 1.5%float
  else if String.eqb s "10" then 10%float
  else if String.eqb s "0.5" then 0.5%float
  else 0%float.

Definition toy_as_int (s : string) : Z :=
  if String.eqb s "10" then 10 else 0.

Definition header_defaults64 : Coupling float :=
  {| power_ := 0%float; max_timesteps_ := 0; max_picard_iter_ := 0;
     epsilon_ := 0.001%float;
     alpha_ := 1%float; alpha_T_ := 1%float; alpha_rho_ := 1%float;
     norm_ := LINF;
     temperature_ic_ := Initial_neutronics;
     density_ic_ := Initial_neutronics |}.

Definition coupling_with_alpha_T (text : string) : coupling_node :=
  {| node_power := Some "10";
     node_max_timesteps := Some "10";
     node_max_picard_iter := Some "10";
     node_epsilon := None;
     node_alpha := Some "robbins-monro";
     node_alpha_T := Some text;
     node_alpha_rho := None;
     node_convergence_norm := Some "L2";
     node_temperature_ic := None;
     node_density_ic := None |}.

Definition coupling64 (alpha alpha_T alpha_rho : float) : Coupling float :=
  {| power_ := 10%float; max_timesteps_ := 1; max_picard_iter_ := 10;
     epsilon_ := 0.001%float;
     alpha_ := alpha; alpha_T_ := alpha_T; alpha_rho_ := alpha_rho;
     norm_ := L2;
     temperature_ic_ := Initial_neutronics;
     density_ic_ := Initial_neutronics |}.

(** *** A single process holding both solvers *)

(** Two elements: element 0 is fluid and lies in cell 10, element 1 is
    solid and lies in cell 20, whose density is 3.  The density selector
    is the fixed coefficient 0.2. *)
Definition mixed_heat : HeatFluidsDriver float Z :=
  {| heat_active := true;
     temperature_local := [600; 900]%float;
     density_local := [0.75; 3]%float;
     volume_local := [1; 1]%float;
     fluid_mask_local := [1; 0];
     centroid_local := [0; 1];
     set_heat_source_at := fun _ _ => 0 |}.

Definition mixed_neutronics : NeutronicsDriver float Z :=
  {| neutronics_active := true;
     get_volume := fun _ => 1%float;
     get_temperature := fun _ => 600%float;
     get_density := fun c => if (c =? 10)%Z then 0.75%float else 3%float;
     find := map (fun z => if (z =? 0)%Z then 10 else 20) |}.

Definition single_process : list (@Process float Z) :=
  [ {| this_ := blank (coupling64 1 1 0.2);
       heat := mixed_heat;
       neutronics := mixed_neutronics |} ].

(** The [init_] calls of the constructor that set up the mapping, the
    volumes, the mask and the densities (lines 170-177); [init_tallies]
    and [init_temperatures] do not touch these members. *)
Definition startup (ic : Initial) (w : list (@Process float Z))
  : outcome (list (@Process float Z)) :=
  w ← init_mappings w;
  w ← on_each (fun p => d ← init_volumes (heat p) (this_ p);
                        Ok (set_this_ d p)) w;
  w ← on_each (fun p => d ← init_cell_fluid_mask (heat p) (this_ p);
                        Ok (set_this_ d p)) w;
  r ← init_densities sentinel64 ic (fun _ => []) (fun _ => []) w;
  Ok r.1.

(** The driver of that process when the constructor has run them: the
    density of the solid cell and its previous iterate are both 3. *)
Definition mixed_cells : CoupledDriver float :=
  {| coupling := coupling64 1 1 0.2;
     i_timestep_ := 0; i_picard_ := 0;
     elem_to_cell_ := [10; 20];
     cell_to_elems_ := {[ 10 := [0%nat]; 20 := [1%nat] ]};
     cells_ := [10; 20];
     elem_volumes_ := [1; 1]%float;
     cell_volumes_ := [1; 1]%float;
     cell_fluid_mask_ := [1; 0];
     cell_temperatures_ := [];
     cell_temperatures_prev_ := [];
     cell_densities_ := [0.75; 3]%float;
     cell_densities_prev_ := [0.75; 3]%float;
     cell_heat_ := [];
     cell_heat_prev_ := [] |}.

(** *** One fluid cell, relaxed twice *)

(** Cell 10 holds the single element 0; the solver reports the density 3
    for it.  After initialization the cell density and its previous
    iterate are both 1; the density selector is the coefficient 0.5. *)
Definition fluid_heat : HeatFluidsDriver float Z :=
  {| heat_active := true;
     temperature_local := [600%float];
     density_local := [3%float];
     volume_local := [1%float];
     fluid_mask_local := [1];
     centroid_local := [0];
     set_heat_source_at := fun _ _ => 0 |}.

Definition one_fluid_cell : CoupledDriver float :=
  {| coupling := coupling64 1 1 0.5;
     i_timestep_ := 0; i_picard_ := 0;
     elem_to_cell_ := [10];
     cell_to_elems_ := {[ 10 := [0%nat] ]};
     cells_ := [10];
     elem_volumes_ := [1%float];
     cell_volumes_ := [1%float];
     cell_fluid_mask_ := [1];
     cell_temperatures_ := [600%float];
     cell_temperatures_prev_ := [600%float];
     cell_densities_ := [1%float];
     cell_densities_prev_ := [1%float];
     cell_heat_ := [0%float];
     cell_heat_prev_ := [0%float] |}.

(** The driver after the Picard iteration 0 and after the Picard
    iteration 1. *)
Definition after_first_density_update : CoupledDriver float :=
  result_of (update_density_local sentinel64 true fluid_heat one_fluid_cell)
            one_fluid_cell.

Definition after_second_density_update : CoupledDriver float :=
  result_of (update_density_local sentinel64 true fluid_heat
               (set_i_picard_ 1 after_first_density_update))
            one_fluid_cell.

(** *** Two cells waiting for their heat source *)

(** Element 0 lies in cell 10 and element 1 in cell 20;
    [init_heat_source] found the bytes of 5 and 7 in the storage of
    [cell_heat_]. *)
Definition two_cells : CoupledDriver float :=
  init_heat_source [5; 7]%float [0; 0]%float fluid_heat
    (invert_mapping (set_elem_to_cell_ [10; 20] (blank (coupling64 1 1 1)))).

(** *** Two heat ranks and a neutronics root *)

(** Rank 0 holds the neutronics solver, ranks 1 and 2 the heat solver.
    Rank 1 owns two elements of volume 1 at 100 K and 200 K, both in cell
    A; rank 2 owns two elements of volume 2 at 300 K and 400 K, both in
    cell B.  The neutronics volumes of A and B are the sums 2 and 4. *)
Definition cell_A : CellHandle := 1.
Definition cell_B : CellHandle := 2.

Definition idle_heat : HeatFluidsDriver float Z :=
  {| heat_active := false;
     temperature_local := []; density_local := []; volume_local := [];
     fluid_mask_local := []; centroid_local := [];
     set_heat_source_at := fun _ _ => 0 |}.

Definition idle_neutronics : NeutronicsDriver float Z :=
  {| neutronics_active := false;
     get_volume := fun _ => 0%float;
     get_temperature := fun _ => 0%float;
     get_density := fun _ => 0%float;
     find := fun _ => [] |}.

Definition field_solver : NeutronicsDriver float Z :=
  {| neutronics_active := true;
     get_volume := fun c => if (c =? cell_A)%Z then 2%float else 4%float;
     get_temperature := fun _ => 300%float;
     get_density := fun _ => 1%float;
     find := map (fun z => if (z <? 2)%Z then cell_A else cell_B) |}.

Definition heat_rank (temperatures volumes : list float)
    (centroids : list Z) : HeatFluidsDriver float Z :=
  {| heat_active := true;
     temperature_local := temperatures;
     density_local := [1; 1]%float;
     volume_local := volumes;
     fluid_mask_local := [1; 1];
     centroid_local := centroids;
     set_heat_source_at := fun _ _ => 0 |}.

Definition two_heat_ranks (alpha_T : float) : list (@Process float Z) :=
  [ {| this_ := blank (coupling64 1 alpha_T 1);
       heat := idle_heat; neutronics := field_solver |};
    {| this_ := blank (coupling64 1 alpha_T 1);
       heat := heat_rank [100; 200]%float [1; 1]%float [0; 1];
       neutronics := idle_neutronics |};
    {| this_ := blank (coupling64 1 alpha_T 1);
       heat := heat_rank [300; 400]%float [2; 2]%float [2; 3];
       neutronics := idle_neutronics |} ].

(** The mapping and the volumes are initialised; the cell temperature and
    its previous iterate are 140 K on rank 1 and 340 K on rank 2. *)
Definition two_heat_ranks_ready (alpha_T : float)
  : outcome (list (@Process float Z)) :=
  w ← init_mappings (two_heat_ranks alpha_T);
  w ← on_each (fun p => d ← init_volumes (heat p) (this_ p);
                        Ok (set_this_ d p)) w;
  Ok (imap (fun rank p =>
              if in_heat p then
                let T := if Nat.eqb rank 1 then [140%float] else [340%float] in
                set_this_ (set_cell_temperatures_prev_ T
                             (set_cell_temperatures_ T (this_ p))) p
              else p)
           w).

(** What a call of [update_temperature] leaves: the local cell
    temperatures of the heat ranks, and the [set_temperature] calls of
    every process. *)
Definition temperature_report
    (r : list (@Process float Z) * list (list (CellHandle * float)))
  : list (list float) * list (list (CellHandle * float)) :=
  (map (fun p => cell_temperatures_ (this_ p))
       (filter (fun p => in_heat p = true) r.1),
   r.2).

Definition raw_averages (w : list (@Process float Z))
  : outcome (list (list float)) :=
  on_each (fun p => average_temperatures (heat p) (this_ p))
          (filter (fun p => in_heat p = true) w).

(** The processes after a relaxed [update_temperature], and what
    [temperature_norm] returns on them when the uninitialised [g_sum]
    holds 4. *)
Definition two_heat_ranks_moved : list (@Process float Z) :=
  result_of (w ← two_heat_ranks_ready 0.5;
             r ← update_temperature sentinel64 true w;
             Ok r.1) [].

Definition two_heat_ranks_norms : list (float * list (norm_call (D := float))) :=
  result_of (temperature_norm lowest64 L2 (fun _ => 4%float)
                              two_heat_ranks_moved) [].

(** The process of rank 1, the root of the heat communicator. *)
Definition moved_heat_root : @Process float Z :=
  result_of (at_ two_heat_ranks_moved 1)
            {| this_ := blank (coupling64 1 0.5 1);
               heat := idle_heat; neutronics := idle_neutronics |}.

(** ** Concrete runs for the further properties *)

(** One cell at 500 K whose previous iterate is 400 K; the solver now
    reports 600 K for its single element; temperature coefficient 0.5. *)
Definition warm_cell : CoupledDriver float :=
  {| coupling := coupling64 1 0.5 1;
     i_timestep_ := 0; i_picard_ := 1;
     elem_to_cell_ := [10];
     cell_to_elems_ := {[ 10 := [0%nat] ]};
     cells_ := [10];
     elem_volumes_ := [1%float];
     cell_volumes_ := [1%float];
     cell_fluid_mask_ := [1];
     cell_temperatures_ := [500%float];
     cell_temperatures_prev_ := [400%float];
     cell_densities_ := [1%float];
     cell_densities_prev_ := [1%float];
     cell_heat_ := [0%float];
     cell_heat_prev_ := [0%float] |}.

Definition warm_cell_updated : CoupledDriver float :=
  set_cell_temperatures_ [550%float]
    (set_cell_temperatures_prev_ [500%float] warm_cell).

(** A fresh driver that has received the cells of its two elements. *)
Definition two_elements_mapped : CoupledDriver float :=
  set_elem_to_cell_ [10; 20] (blank (coupling64 1 1 0.2)).

(** A configuration without [<power>] whose norm is named [text]. *)
Definition coupling_with_norm (text : string) : coupling_node :=
  {| node_power := None;
     node_max_timesteps := Some "10";
     node_max_picard_iter := Some "10";
     node_epsilon := None;
     node_alpha := Some "0.5";
     node_alpha_T := Some "robbins-monro";
     node_alpha_rho := None;
     node_convergence_norm := Some text;
     node_temperature_ic := None;
     node_density_ic := None |}.

(** A complete configuration that leaves the tolerance to its default. *)
Definition coupling_complete : coupling_node :=
  {| node_power := Some "10";
     node_max_timesteps := Some "10";
     node_max_picard_iter := Some "10";
     node_epsilon := None;
     node_alpha := Some "0.5";
     node_alpha_T := Some "robbins-monro";
     node_alpha_rho := None;
     node_convergence_norm := Some "L1";
     node_temperature_ic := Some "heat_fluids";
     node_density_ic := None |}.

(** What the constructor reads from [coupling_complete]. *)
Definition coupling_complete_read : Coupling float :=
  {| power_ := 10%float; max_timesteps_ := 10; max_picard_iter_ := 10;
     epsilon_ := 0.001%float;
     alpha_ := 0.5%float; alpha_T_ := sentinel64; alpha_rho_ := 1%float;
     norm_ := L1;
     temperature_ic_ := Initial_heat;
     density_ic_ := Initial_neutronics |}.

(** The L1 norm of the run [two_heat_ranks_moved] on each process. *)
Definition two_heat_ranks_norms_L1
  : list (float * list (norm_call (D := float))) :=
  result_of (temperature_norm lowest64 L1 (fun _ => 4%float)
                              two_heat_ranks_moved) [].

(** The three processes before and after a relaxed [update_temperature],
    with the calls of [set_temperature]. *)
Definition two_heat_ranks_world : list (@Process float Z) :=
  result_of (two_heat_ranks_ready 0.5) [].

Definition two_heat_ranks_update
  : list (@Process float Z) * list (list (CellHandle * float)) :=
  result_of (update_temperature sentinel64 true two_heat_ranks_world)
            ([], []).

(** The single process of [single_process] after the constructor, and
    after a relaxed [update_density]. *)
Definition mixed_world : list (@Process float Z) :=
  [ {| this_ := mixed_cells;
       heat := mixed_heat;
       neutronics := mixed_neutronics |} ].

Definition mixed_world_update
  : list (@Process float Z) * list (list (CellHandle * float)) :=
  result_of (update_density sentinel64 true mixed_world) ([], []).

(** Two processes after the mappings, volumes and masks are set: rank 0
    holds both solvers, rank 1 the heat solver only. *)
Definition overlap_world : list (@Process float Z) :=
  [ {| this_ := mixed_cells;
       heat := mixed_heat;
       neutronics := mixed_neutronics |};
    {| this_ := one_fluid_cell;
       heat := fluid_heat;
       neutronics := idle_neutronics |} ].

Definition overlap_world_densities
  : list (@Process float Z) * list (list (CellHandle * float)) :=
  result_of (init_densities sentinel64 Initial_heat
                            (fun _ => []) (fun _ => []) overlap_world)
            ([], []).

Definition overlap_world_temperatures
  : list (@Process float Z) * list (list (CellHandle * float)) :=
  result_of (init_temperatures sentinel64 Initial_heat
                               (fun _ => []) (fun _ => []) overlap_world)
            ([], []).

(** *** Relaxation in binary64 *)

(** One cell at 3 K whose only element, of volume 1, is reported at 3 K
    again. *)
Definition steady_heat : HeatFluidsDriver float Z :=
  {| heat_active := true;
     temperature_local := [3%float];
     density_local := [1%float];
     volume_local := [1%float];
     fluid_mask_local := [1];
     centroid_local := [0];
     set_heat_source_at := fun _ _ => 0 |}.

Definition steady_cell (alpha_T previous : float) : CoupledDriver float :=
  {| coupling := coupling64 1 alpha_T 1;
     i_timestep_ := 0; i_picard_ := 1;
     elem_to_cell_ := [10];
     cell_to_elems_ := {[ 10 := [0%nat] ]};
     cells_ := [10];
     elem_volumes_ := [1%float];
     cell_volumes_ := [1%float];
     cell_fluid_mask_ := [1];
     cell_temperatures_ := [previous];
     cell_temperatures_prev_ := [previous];
     cell_densities_ := [1%float];
     cell_densities_prev_ := [1%float];
     cell_heat_ := [0%float];
     cell_heat_prev_ := [0%float] |}.

(** The two cells of [two_cells] after a relaxed [update_heat_source]
    whose loop variable started at 0, with the calls made. *)
Definition two_cells_relaxed : CoupledDriver float * list (nat * float) :=
  result_of (update_heat_source sentinel64 true 0 fluid_heat two_cells)
            (two_cells, []).

(** *** The two-rank scenario on the processes of a run *)

(** The field solver of the scenario: volumes 2 and 4 and temperatures
    140 K and 340 K for the cells A and B. *)
Definition scenario_solver : NeutronicsDriver float Z :=
  {| neutronics_active := true;
     get_volume := fun c => if (c =? cell_A)%Z then 2%float else 4%float;
     get_temperature :=
       fun c => if (c =? cell_A)%Z then 140%float else 340%float;
     get_density := fun _ => 1%float;
     find := map (fun z => if (z <? 2)%Z then cell_A else cell_B) |}.

(** Two processes, both heat ranks: the elements of rank 0 lie in cell A,
    those of rank 1 in cell B.  The neutronics solver runs on rank 0 or,
    in the second layout, on rank 1.  The drivers are as the member
    initialisers leave them, with temperature coefficient 0.5. *)
Definition two_ranks : list (@Process float Z) :=
  [ {| this_ := blank (coupling64 1 0.5 1);
       heat := heat_rank [100; 200]%float [1; 1]%float [0; 1];
       neutronics := scenario_solver |};
    {| this_ := blank (coupling64 1 0.5 1);
       heat := heat_rank [300; 400]%float [2; 2]%float [2; 3];
       neutronics := idle_neutronics |} ].

Definition two_ranks_root_last : list (@Process float Z) :=
  [ {| this_ := blank (coupling64 1 0.5 1);
       heat := heat_rank [100; 200]%float [1; 1]%float [0; 1];
       neutronics := idle_neutronics |};
    {| this_ := blank (coupling64 1 0.5 1);
       heat := heat_rank [300; 400]%float [2; 2]%float [2; 3];
       neutronics := scenario_solver |} ].

(** The constructor up to [init_cell_fluid_mask] (lines 170-174). *)
Definition construct_geometry (NDEBUG : bool) (w : list (@Process float Z))
  : outcome (list (@Process float Z)) :=
  w ← init_mappings w;
  r ← init_volumes_collective NDEBUG w;
  on_each (fun p => d ← init_cell_fluid_mask (heat p) (this_ p);
                    Ok (set_this_ d p)) r.1.

(** What a process holds of the mapping and of the temperatures. *)
Definition mapping_and_temperatures (p : @Process float Z)
  : list CellHandle * list (CellHandle * list nat)
    * (list float * list float) :=
  (cells_ (this_ p), map_items (cell_to_elems_ (this_ p)),
   (cell_temperatures_ (this_ p), cell_temperatures_prev_ (this_ p))).

(** Steps 1 and 2 of a relaxed [update_temperature] on one process. *)
Definition relaxed_steps (p : @Process float Z)
  : outcome (list float * list float) :=
  d ← update_temperature_local sentinel64 true (heat p) (this_ p);
  Ok (cell_temperatures_ d, cell_temperatures_prev_ d).

(** The processes after [init_mappings], and the driver of rank 0. *)
Definition two_ranks_mapped : list (@Process float Z) :=
  result_of (init_mappings two_ranks) [].

Definition two_ranks_mapped_root : CoupledDriver float :=
  result_of (p ← at_ two_ranks_mapped 0; Ok (this_ p))
            (blank (coupling64 1 0.5 1)).

(** The driver of rank 1 after [init_mappings]. *)
Definition two_ranks_mapped_second : CoupledDriver float :=
  result_of (p ← at_ two_ranks_mapped 1; Ok (this_ p))
            (blank (coupling64 1 0.5 1)).

(** The processes of [two_ranks] after [init_volumes] in a build without
    [NDEBUG], with the lines reported. *)
Definition two_ranks_volumes
  : list (@Process float Z) * list (list (CellHandle * float * float)) :=
  result_of (init_volumes_collective false two_ranks_mapped) ([], []).

(** The two processes of [overlap_world] after a relaxed
    [update_density], with the calls of [set_density]. *)
Definition overlap_world_update
  : list (@Process float Z) * list (list (CellHandle * float)) :=
  result_of (update_density sentinel64 true overlap_world) ([], []).

(** * Properties *)

(** ** The error monad *)

Lemma bind_Ok {A B} (m : outcome A) (f : A -> outcome B) (b : B) :
  m ≫= f = Ok b -> exists a, m = Ok a /\ f a = Ok b.
Proof. destruct m as [a|e]; simpl; [eauto | discriminate]. Qed.

Lemma at_Ok {A} (v : list A) (i : nat) (a : A) :
  at_ v i = Ok a <-> v !! i = Some a.
Proof.
  unfold at_. destruct (v !! i); split; intros E; inversion E; reflexivity.
Qed.

Lemma map_at_Ok {A} (m : gmap Z A) (k : Z) (a : A) :
  map_at m k = Ok a <-> m !! k = Some a.
Proof.
  unfold map_at. destruct (m !! k); split; intros E; inversion E; reflexivity.
Qed.

Lemma set_at_Ok {A} (v v' : list A) (i : nat) (a : A) :
  set_at v i a = Ok v' -> (i < length v)%nat /\ v' = <[i := a]> v.
Proof.
  unfold set_at. destruct (decide (i < length v)%nat); intros E;
    inversion E; auto.
Qed.

Lemma std_copy_self {A} (v : list A) : std_copy v v = Ok v.
Proof.
  unfold std_copy. rewrite decide_True by lia.
  rewrite drop_all, app_nil_r. reflexivity.
Qed.

Lemma std_copy_same_length {A} (src dst : list A) :
  length src = length dst -> std_copy src dst = Ok src.
Proof.
  intros E. unfold std_copy. rewrite decide_True by lia.
  rewrite drop_ge by lia. rewrite app_nil_r. reflexivity.
Qed.

(** Peel the binds of a hypothesis [... = Ok _]. *)
Ltac inv_bind H :=
  repeat match type of H with
         | _ ≫= _ = Ok _ =>
             let a := fresh "a" in
             let Ha := fresh "Ha" in
             apply bind_Ok in H; destruct H as (a & Ha & H)
         | Ok _ = Ok _ => inversion H; subst; clear H
         end.

(** An invariant of a loop that runs to its end holds at its end. *)
Lemma foldM_invariant {A S} (P : S -> Prop) (body : S -> A -> outcome S)
    (l : list A) (s s' : S) :
  (forall s a s', a ∈ l -> P s -> body s a = Ok s' -> P s') ->
  P s -> foldM body s l = Ok s' -> P s'.
Proof.
  revert s. induction l as [|a l IH]; intros s Hstep Hs E; simpl in E.
  - inversion E; subst; assumption.
  - apply bind_Ok in E. destruct E as (s1 & E1 & E2).
    apply (IH s1); [| eapply Hstep; eauto; left | assumption].
    intros; eapply Hstep; eauto. right; assumption.
Qed.

(** ** [stream::ProcInfo] *)

(** C10.  A [ProcInfo] built from [MPI_COMM_NULL] asks the MPI library
    nothing and has every member at its default; built from any other
    communicator, its [rank] and [size] are the ones the library reports
    for that communicator. *)
Theorem ProcInfo_ctor_spec (mpi : stream.MPI_library) :
  stream.ProcInfo_ctor mpi stream.MPI_COMM_NULL
    = (stream.ProcInfo_default mpi, [])
  /\ forall h : N,
      let c := stream.comm_handle h in
      let this := (stream.ProcInfo_ctor mpi c).1 in
      stream.comm this = c
      /\ stream.rank this = stream.comm_rank_of mpi c
      /\ stream.size this = stream.comm_size_of mpi c
      /\ stream.group this = stream.comm_group_of mpi c.
Proof.
  split; [reflexivity |].
  intros h c this. subst this c. unfold stream.ProcInfo_ctor.
  rewrite decide_True by discriminate. simpl. auto.
Qed.

(** ** Validation of the relaxation selectors *)

Section Constructor.
Context {D : Type} `{DoubleOps D}.
Variable ROBBINS_MONRO : D.
Variable as_double : string -> D.
Variable as_int : string -> Z.

Lemma set_alpha_rejected (node : option string) (a : D) :
  rejected as_double node ->
  set_alpha ROBBINS_MONRO as_double node a = Abort contract_violation.
Proof.
  intros (v & (s & -> & Hs & Hv) & Hr). unfold set_alpha.
  apply String.eqb_neq in Hs. rewrite Hs. subst v.
  unfold in_unit_interval in Hr. rewrite Hr. reflexivity.
Qed.

Lemma set_alpha_accepted (node : option string) (a : D) :
  accepted as_double node ->
  exists a', set_alpha ROBBINS_MONRO as_double node a = Ok a'.
Proof.
  intros [-> | [-> | (v & (s & -> & Hs & Hv) & Hr)]]; simpl; eauto.
  apply String.eqb_neq in Hs. rewrite Hs. subst v.
  unfold in_unit_interval in Hr. rewrite Hr. simpl. eauto.
Qed.

(** The lambda never stops the constructor in any other way. *)
Lemma set_alpha_cases (node : option string) (a : D) :
  (exists a', set_alpha ROBBINS_MONRO as_double node a = Ok a')
  \/ set_alpha ROBBINS_MONRO as_double node a = Abort contract_violation.
Proof.
  unfold set_alpha. destruct node as [s|]; [| eauto].
  destruct (String.eqb s "robbins-monro"); [eauto |].
  destruct ((d0 <? as_double s)%D && (as_double s <=? d1)%D); simpl; eauto.
Qed.

(** C8.  A relaxation selector given as a number outside (0, 1] stops the
    constructor at the [Expects] of [set_alpha], whichever of the three
    selectors it is; an absent selector, the Robbins-Monro keyword and a
    number inside (0, 1] pass [set_alpha]. *)
Theorem relaxation_selectors_validated
    (defaults : Coupling D) (coup_node : coupling_node) :
  (rejected as_double (node_alpha coup_node)
   \/ rejected as_double (node_alpha_T coup_node)
   \/ rejected as_double (node_alpha_rho coup_node) ->
   read_coupling ROBBINS_MONRO as_double as_int defaults coup_node
     = Abort contract_violation)
  /\ (forall node a,
        accepted as_double node ->
        exists a', set_alpha ROBBINS_MONRO as_double node a = Ok a'
                   /\ (node = None -> a' = a)
                   /\ (node = Some "robbins-monro" -> a' = ROBBINS_MONRO)
                   /\ (forall v, fixed_coefficient as_double node v -> a' = v)).
Proof.
  split.
  - intros Hbad. unfold read_coupling.
    destruct (set_alpha_cases (node_alpha coup_node) (alpha_ defaults))
      as [[a1 E1] | E1]; rewrite E1; simpl; [| reflexivity].
    destruct (set_alpha_cases (node_alpha_T coup_node) (alpha_T_ defaults))
      as [[a2 E2] | E2]; rewrite E2; simpl; [| reflexivity].
    destruct (set_alpha_cases (node_alpha_rho coup_node) (alpha_rho_ defaults))
      as [[a3 E3] | E3]; rewrite E3; simpl; [| reflexivity].
    destruct Hbad as [Hb | [Hb | Hb]];
      eapply set_alpha_rejected in Hb; rewrite Hb in *; discriminate.
  - intros node a Hacc.
    destruct (set_alpha_accepted node a Hacc) as [a' E]. exists a'.
    split; [exact E |]. repeat split.
    + intros ->. simpl in E. congruence.
    + intros ->. simpl in E. congruence.
    + intros v (s & -> & Hs & Hv). unfold set_alpha in E.
      apply String.eqb_neq in Hs. rewrite Hs in E. subst v.
      destruct ((d0 <? as_double s)%D && (as_double s <=? d1)%D);
        simpl in E; congruence.
Qed.

End Constructor.

Lemma relaxation_selectors_validated_witness :
  read_coupling sentinel64 toy_as_double toy_as_int header_defaults64
                (coupling_with_alpha_T "1.5") = Abort contract_violation
  /\ exists a', set_alpha sentinel64 toy_as_double (Some "0.5") 1%float = Ok a'.
Proof.
  split.
  - apply (proj1 (relaxation_selectors_validated sentinel64 toy_as_double
                    toy_as_int header_defaults64 (coupling_with_alpha_T "1.5"))).
    right; left. exists 1.5%float. split; [| reflexivity].
    exists "1.5"%string. repeat split. discriminate.
  - destruct (proj2 (relaxation_selectors_validated sentinel64 toy_as_double
                       toy_as_int header_defaults64
                       (coupling_with_alpha_T "1.5"))
                    (Some "0.5"%string) 1%float) as (a' & E & _).
    + right; right. exists 0.5%float. split; [| reflexivity].
      exists "0.5"%string. repeat split. discriminate.
    + exists a'. exact E.
Defined.

(** ** The local updates *)

Section LocalUpdates.
Context {D Position : Type} `{DoubleOps D}.
Variable ROBBINS_MONRO : D.

Lemma xt_zip_Ok (f : D -> D -> D) (a b r : list D) :
  xt_zip f a b = Ok r -> length a = length b /\ r = zip_with f a b.
Proof.
  unfold xt_zip. destruct (decide (length a = length b)); intros E;
    inversion E; auto.
Qed.

(** Entry [i] of a relaxed array is computed from entry [i] of the two
    operands. *)
Lemma relax_lookup (alpha : D) (i_picard : Z) (cur prev r : list D)
    (i : nat) (x : D) :
  relax ROBBINS_MONRO alpha i_picard cur prev = Ok r ->
  cur !! i = Some x ->
  exists p, prev !! i = Some p
            /\ r !! i = Some (relax_at ROBBINS_MONRO alpha i_picard x p).
Proof.
  intros E Hx. apply xt_zip_Ok in E. destruct E as [Hlen ->].
  destruct (lookup_lt_is_Some_2 prev i) as [p Hp].
  { rewrite <- Hlen. eapply lookup_lt_Some; eauto. }
  exists p. split; [assumption |].
  rewrite lookup_zip_with, Hx. simpl. rewrite Hp. reflexivity.
Qed.

Lemma relax_length (alpha : D) (i_picard : Z) (cur prev r : list D) :
  relax ROBBINS_MONRO alpha i_picard cur prev = Ok r ->
  length r = length cur /\ length prev = length cur.
Proof.
  intros E. apply xt_zip_Ok in E. destruct E as [Hlen ->].
  rewrite length_zip_with. lia.
Qed.

(** The averaging loop of [update_density] writes cell [i] only when its
    mask is 1. *)
Lemma average_densities_frame (heat : HeatFluidsDriver D Position)
    (this : CoupledDriver D) (dens : list D) :
  average_densities heat this = Ok dens ->
  length dens = length (cell_densities_ this)
  /\ forall i, cell_fluid_mask_ this !! i <> Some 1 ->
               dens !! i = cell_densities_ this !! i.
Proof.
  unfold average_densities.
  apply (foldM_invariant
           (fun d => length d = length (cell_densities_ this)
                     /\ forall i, cell_fluid_mask_ this !! i <> Some 1 ->
                                  d !! i = cell_densities_ this !! i)).
  - intros d j d' _ [Hlen Hd] E. inv_bind E.
    apply at_Ok in Ha. destruct (Z.eqb_spec a 1) as [-> | Hne].
    + inv_bind E. apply set_at_Ok in E. destruct E as [Hj ->].
      rewrite length_insert. split; [assumption |].
      intros i Hi. rewrite list_lookup_insert_ne; [auto |].
      intros ->. congruence.
    + inversion E; subst. auto.
  - auto.
Qed.

(** [update_density] never writes [cell_densities_prev_]. *)
Lemma update_density_local_prev (relax_flag : bool)
    (heat : HeatFluidsDriver D Position) (this this' : CoupledDriver D) :
  update_density_local ROBBINS_MONRO relax_flag heat this = Ok this' ->
  cell_densities_prev_ this' = cell_densities_prev_ this.
Proof.
  unfold update_density_local. intros E.
  rewrite std_copy_self in E.
  destruct (relax_flag && heat_active heat); simpl in E;
    destruct (heat_active heat); inv_bind E; try reflexivity;
    destruct relax_flag; inv_bind E; reflexivity.
Qed.

(** A relaxed [update_density] computes its result from the averaged
    array and from [cell_densities_prev_] as it was on entry. *)
Lemma update_density_local_relaxed (heat : HeatFluidsDriver D Position)
    (this this' : CoupledDriver D) :
  heat_active heat = true ->
  update_density_local ROBBINS_MONRO true heat this = Ok this' ->
  exists dens,
    average_densities heat this = Ok dens
    /\ relax ROBBINS_MONRO (alpha_rho_ (coupling this)) (i_picard_ this)
             dens (cell_densities_prev_ this)
       = Ok (cell_densities_ this').
Proof.
  intros Hact E. unfold update_density_local in E.
  rewrite std_copy_self, Hact in E. simpl in E.
  apply bind_Ok in E. destruct E as (dens & Havg & E).
  apply bind_Ok in E. destruct E as (relaxed & Hrelax & E).
  inversion E; subst this'; clear E. exists dens. split; assumption.
Qed.

End LocalUpdates.

(** C1.  On a heat-active process, steps 1 and 2 of [update_density] treat
    a cell whose mask is not 1 as follows: without relaxation the cell
    keeps its density; with relaxation the cell receives the blend,
    computed in [double], of its prior density [c] and its entry [p] of
    [cell_densities_prev_]. *)
Theorem update_density_nonfluid_cell {D Position : Type} `{DoubleOps D}
    (ROBBINS_MONRO : D) (relax_flag : bool)
    (heat : HeatFluidsDriver D Position) (this this' : CoupledDriver D)
    (i : nat) (c : D) :
  heat_active heat = true ->
  update_density_local ROBBINS_MONRO relax_flag heat this = Ok this' ->
  cell_fluid_mask_ this !! i <> Some 1 ->
  cell_densities_ this !! i = Some c ->
  (relax_flag = false -> cell_densities_ this' !! i = Some c)
  /\ (relax_flag = true ->
      exists p, cell_densities_prev_ this !! i = Some p
                /\ cell_densities_ this' !! i
                   = Some (relax_at ROBBINS_MONRO (alpha_rho_ (coupling this))
                                    (i_picard_ this) c p)).
Proof.
  intros Hact E Hmask Hc. split.
  - intros ->. unfold update_density_local in E.
    rewrite Hact in E. simpl in E.
    apply bind_Ok in E. destruct E as (dens & Havg & E).
    inversion E; subst this'; clear E. simpl.
    apply average_densities_frame in Havg. destruct Havg as [_ Havg].
    rewrite Havg; assumption.
  - intros ->.
    destruct (update_density_local_relaxed _ _ _ _ Hact E)
      as (dens & Havg & Hrelax).
    apply average_densities_frame in Havg. destruct Havg as [_ Havg].
    eapply relax_lookup; [exact Hrelax |]. rewrite Havg; assumption.
Qed.

(** ** Density: what the relaxation does to a solid cell *)

(** C1, counterexample.  A process with a fluid cell and a solid cell of
    density 3, relaxation coefficient 0.2.  The constructor leaves the
    density of the solid cell and its previous iterate at 3; the first
    [update_density(true)] replaces the density of the solid cell by
    0.2 * 3 + (1 - 0.2) * 3, which is 3.0000000000000004 in binary64. *)
Lemma update_density_perturbs_solid_cell :
  (w ← startup Initial_neutronics single_process; Ok (map this_ w))
    = Ok [mixed_cells]
  /\ cell_fluid_mask_ mixed_cells !! 1%nat = Some 0
  /\ cell_densities_ mixed_cells !! 1%nat = Some 3%float
  /\ update_density_local sentinel64 true mixed_heat mixed_cells
     = Ok (set_cell_densities_
             [0.75000000000000011; 3.0000000000000004]%float mixed_cells)
  /\ PrimFloat.eqb 3.0000000000000004 3 = false
  /\ ~ (forall (this' : CoupledDriver float) (i : nat) (c : float),
          update_density_local sentinel64 true mixed_heat mixed_cells
            = Ok this' ->
          cell_fluid_mask_ mixed_cells !! i <> Some 1 ->
          cell_densities_ mixed_cells !! i = Some c ->
          cell_densities_ this' !! i = Some c).
Proof.
  assert (Hrun : update_density_local sentinel64 true mixed_heat mixed_cells
                 = Ok (set_cell_densities_
                         [0.75000000000000011; 3.0000000000000004]%float
                         mixed_cells))
    by (vm_compute; reflexivity).
  split; [vm_compute; reflexivity |].
  split; [reflexivity |]. split; [reflexivity |].
  split; [exact Hrun |]. split; [vm_compute; reflexivity |].
  intros Hkept.
  specialize (Hkept _ 1%nat 3%float Hrun).
  assert (Hsame : Some 3.0000000000000004%float = Some 3%float).
  { apply Hkept; [vm_compute; discriminate | reflexivity]. }
  inversion Hsame.
Qed.

Lemma update_density_nonfluid_cell_witness :
  exists p, cell_densities_prev_ mixed_cells !! 1%nat = Some p
            /\ cell_densities_
                 (set_cell_densities_
                    [0.75000000000000011; 3.0000000000000004]%float
                    mixed_cells) !! 1%nat
               = Some (relax_at sentinel64 0.2%float 0 3%float p).
Proof.
  apply (update_density_nonfluid_cell sentinel64 true mixed_heat mixed_cells
           (set_cell_densities_
              [0.75000000000000011; 3.0000000000000004]%float mixed_cells)
           1 3%float).
  - reflexivity.
  - vm_compute. reflexivity.
  - vm_compute. discriminate.
  - reflexivity.
  - reflexivity.
Defined.

(** In exact arithmetic the blend of a value with itself is that value:
    there the relaxation leaves a cell whose previous iterate equals its
    density where it is. *)
Lemma relax_at_same_real (RM alpha c : R) (i_picard : Z) :
  0 <= i_picard ->
  relax_at RM alpha i_picard c c = c.
Proof.
  intros Hn. unfold relax_at. simpl.
  destruct (Reqb alpha RM).
  - assert (IZR (i_picard + 1) <> 0%R) by (apply not_0_IZR; lia).
    field. assumption.
  - ring.
Qed.

Lemma update_density_local_nonfluid_real {Position : Type} (RM : R)
    (heat : HeatFluidsDriver R Position) (this this' : CoupledDriver R)
    (i : nat) (c : R) :
  heat_active heat = true ->
  update_density_local RM true heat this = Ok this' ->
  cell_fluid_mask_ this !! i <> Some 1 ->
  cell_densities_ this !! i = Some c ->
  cell_densities_prev_ this !! i = Some c ->
  0 <= i_picard_ this ->
  cell_densities_ this' !! i = Some c.
Proof.
  intros Hact E Hmask Hc Hp Hn.
  destruct (update_density_local_relaxed _ _ _ _ Hact E)
    as (dens & Havg & Hrelax).
  apply average_densities_frame in Havg. destruct Havg as [_ Havg].
  destruct (relax_lookup _ _ _ _ _ _ i c Hrelax) as (p & Hp' & ->).
  { rewrite Havg; assumption. }
  rewrite Hp in Hp'. inversion Hp'; subst p.
  rewrite relax_at_same_real by assumption. reflexivity.
Qed.

(** ** Density: the previous iterate *)

(** C2.  Two relaxed updates of one fluid cell whose raw density is 3,
    starting from density 1 with previous iterate 1 and coefficient 0.5.
    The first update gives 0.5 * 3 + 0.5 * 1 = 2.  In the second one
    [cell_densities_prev_] is not overwritten with that 2: it still holds
    1, and the result is 0.5 * 3 + 0.5 * 1 = 2 again, not the blend
    0.5 * 3 + 0.5 * 2 = 2.5 with the preceding iterate. *)
Theorem update_density_keeps_stale_previous :
  update_density_local sentinel64 true fluid_heat one_fluid_cell
    = Ok after_first_density_update
  /\ cell_densities_ after_first_density_update = [2%float]
  /\ update_density_local sentinel64 true fluid_heat
       (set_i_picard_ 1 after_first_density_update)
     = Ok after_second_density_update
  /\ cell_densities_prev_ after_second_density_update = [1%float]
  /\ cell_densities_ after_second_density_update = [2%float]
  /\ relax_at sentinel64 0.5%float 1 3%float 2%float = 2.5%float.
Proof. repeat split; vm_compute; reflexivity. Qed.

(** ** Heat source: where the application loop starts *)

(** C9.  Two cells holding one element each, [cell_heat_] holding 5 and 7.
    When the uninitialised loop variable of line 339 holds 1, the only
    call is [set_heat_source_at(1, 7)]: element 0 of cell 10 receives no
    heat source.  Had the variable held 0, both calls would be made. *)
Theorem update_heat_source_skips_cells :
  update_heat_source sentinel64 false 1 fluid_heat two_cells
    = Ok (two_cells, [(1%nat, 7%float)])
  /\ update_heat_source sentinel64 false 0 fluid_heat two_cells
     = Ok (two_cells, [(0%nat, 5%float); (1%nat, 7%float)])
  /\ cells_ two_cells = [10; 20]
  /\ cell_to_elems_ two_cells !! 10 = Some [0%nat]
  /\ cell_heat_ two_cells = [5; 7]%float.
Proof. repeat split; vm_compute; reflexivity. Qed.

Section HeatSource.
Context {D Position : Type} `{DoubleOps D}.

Lemma set_heat_source_of_cell_calls (heat : HeatFluidsDriver D Position)
    (this : CoupledDriver D) (i : nat) (elems : list nat)
    (calls calls' : list (nat * D)) :
  set_heat_source_of_cell heat this i calls elems = Ok calls' ->
  (forall x, x ∈ calls -> x ∈ calls')
  /\ forall e, e ∈ elems ->
               exists q, cell_heat_ this !! i = Some q /\ (e, q) ∈ calls'.
Proof.
  unfold set_heat_source_of_cell. revert calls.
  induction elems as [|e0 elems IH]; intros calls E; simpl in E.
  - inversion E; subst. split; [auto |]. intros e He. inversion He.
  - apply bind_Ok in E. destruct E as (calls1 & E1 & E).
    apply bind_Ok in E1. destruct E1 as (q & Hq & E1).
    apply bind_Ok in E1. destruct E1 as (_ & _ & E1).
    inversion E1; subst calls1; clear E1. apply at_Ok in Hq.
    destruct (IH _ E) as [Hsub Hall]. split.
    + intros x Hx. apply Hsub, elem_of_app. left. assumption.
    + intros e He. apply elem_of_cons in He. destruct He as [-> | He].
      * exists q. split; [assumption |].
        apply Hsub, elem_of_app. right. left.
      * apply Hall. assumption.
Qed.

Lemma set_heat_source_calls (heat : HeatFluidsDriver D Position)
    (this : CoupledDriver D) (range : list nat) (calls : list (nat * D)) :
  set_heat_source heat this range = Ok calls ->
  forall i c elems e,
    i ∈ range -> cells_ this !! i = Some c ->
    cell_to_elems_ this !! c = Some elems -> e ∈ elems ->
    exists q, cell_heat_ this !! i = Some q /\ (e, q) ∈ calls.
Proof.
  unfold set_heat_source. generalize (@nil (nat * D)) as calls0.
  induction range as [|i0 range IH]; intros calls0 E i c elems e Hi;
    [inversion Hi |].
  simpl in E. apply bind_Ok in E. destruct E as (calls1 & E1 & E).
  intros Hc Hm He. apply elem_of_cons in Hi. destruct Hi as [-> | Hi].
  - apply bind_Ok in E1. destruct E1 as (c' & Hc' & E1).
    apply bind_Ok in E1. destruct E1 as (elems' & Hm' & E1).
    apply at_Ok in Hc'. apply map_at_Ok in Hm'.
    rewrite Hc in Hc'. inversion Hc'; subst c'.
    rewrite Hm in Hm'. inversion Hm'; subst elems'.
    destruct (set_heat_source_of_cell_calls _ _ _ _ _ _ E1) as [_ Hall].
    destruct (Hall e He) as (q & Hq & Hin). exists q. split; [assumption |].
    clear - E Hin. revert calls1 E Hin.
    induction range as [|j range IH]; intros calls1 E Hin; simpl in E.
    + inversion E; subst. assumption.
    + apply bind_Ok in E. destruct E as (calls2 & E2 & E).
      apply (IH _ E).
      apply bind_Ok in E2. destruct E2 as (c2 & _ & E2).
      apply bind_Ok in E2. destruct E2 as (elems2 & _ & E2).
      destruct (set_heat_source_of_cell_calls _ _ _ _ _ _ E2) as [Hsub _].
      apply Hsub. assumption.
  - eapply IH; eauto.
Qed.

(** Had the loop variable been initialised with 0, every element of every
    cell would receive the heat source of its cell. *)
Lemma update_heat_source_from_zero (ROBBINS_MONRO : D) (relax_flag : bool)
    (heat : HeatFluidsDriver D Position) (this this' : CoupledDriver D)
    (calls : list (nat * D)) :
  heat_active heat = true ->
  update_heat_source ROBBINS_MONRO relax_flag 0 heat this
    = Ok (this', calls) ->
  forall i c elems e,
    cells_ this !! i = Some c ->
    cell_to_elems_ this !! c = Some elems -> e ∈ elems ->
    exists q, cell_heat_ this' !! i = Some q /\ (e, q) ∈ calls.
Proof.
  intros Hact E i c elems e Hc Hm He. unfold update_heat_source in E.
  rewrite Hact in E.
  apply bind_Ok in E. destruct E as (this1 & E1 & E).
  apply bind_Ok in E. destruct E as (this2 & E2 & E).
  apply bind_Ok in E. destruct E as (calls' & E3 & E).
  inversion E; subst this' calls'; clear E.
  assert (Hsame : cells_ this2 = cells_ this
                  /\ cell_to_elems_ this2 = cell_to_elems_ this).
  { destruct relax_flag; simpl in E1, E2.
    - apply bind_Ok in E1. destruct E1 as (? & _ & E1).
      apply bind_Ok in E2. destruct E2 as (? & _ & E2).
      inversion E1; inversion E2; subst. auto.
    - inversion E1; inversion E2; subst. auto. }
  destruct Hsame as [Hcells Hmap].
  apply (set_heat_source_calls heat this2 _ calls E3 i c elems e).
  - unfold indices_from. simpl. rewrite Nat.sub_0_r, Hcells.
    apply elem_of_seq. split; [lia |]. simpl.
    eapply lookup_lt_Some; eauto.
  - rewrite Hcells. assumption.
  - rewrite Hmap. assumption.
  - assumption.
Qed.

(** A relaxed [update_heat_source] blends every entry of [cell_heat_]
    with itself: no new heat source reaches the array before the
    relaxation. *)
Lemma update_heat_source_relaxed (ROBBINS_MONRO : D) (i_start : Z)
    (heat : HeatFluidsDriver D Position) (this this' : CoupledDriver D)
    (calls : list (nat * D)) (i : nat) (x : D) :
  heat_active heat = true ->
  update_heat_source ROBBINS_MONRO true i_start heat this
    = Ok (this', calls) ->
  cell_heat_ this !! i = Some x ->
  cell_heat_ this' !! i
  = Some (relax_at ROBBINS_MONRO (alpha_ (coupling this)) (i_picard_ this)
                   x x).
Proof.
  intros Hact E Hx. unfold update_heat_source in E.
  rewrite Hact in E. simpl in E.
  apply bind_Ok in E. destruct E as (this1 & E1 & E).
  apply bind_Ok in E. destruct E as (this2 & E2 & E).
  apply bind_Ok in E. destruct E as (calls' & _ & E).
  inversion E; subst this' calls'; clear E.
  apply bind_Ok in E1. destruct E1 as (prev & Hcopy & E1).
  inversion E1; subst this1; clear E1.
  apply bind_Ok in E2. destruct E2 as (q & Hrelax & E2).
  inversion E2; subst this2; clear E2. simpl in *.
  unfold std_copy in Hcopy.
  destruct (decide (length (cell_heat_ this) <= length (cell_heat_prev_ this))%nat);
    inversion Hcopy; subst prev; clear Hcopy.
  destruct (relax_lookup _ _ _ _ _ _ i x Hrelax Hx) as (p & Hp & Hr).
  rewrite lookup_app_l in Hp by (eapply lookup_lt_Some; eauto).
  rewrite Hx in Hp. inversion Hp; subst p. assumption.
Qed.

End HeatSource.

(** ** Temperature: the relaxation algebra *)

Section TemperatureLocal.
Context {D Position : Type} `{DoubleOps D}.
Variable ROBBINS_MONRO : D.

Lemma average_temperatures_length (heat : HeatFluidsDriver D Position)
    (this : CoupledDriver D) (temps : list D) :
  average_temperatures heat this = Ok temps ->
  length temps = length (cell_temperatures_ this).
Proof.
  unfold average_temperatures.
  apply (foldM_invariant
           (fun t => length t = length (cell_temperatures_ this)));
    [| reflexivity].
  intros t j t' _ Hlen E. inv_bind E.
  apply set_at_Ok in E. destruct E as [_ ->].
  rewrite length_insert. assumption.
Qed.

(** Steps 1 and 2 of a relaxed [update_temperature]: the array that was
    current on entry becomes the previous iterate, and every cell receives
    the blend of its raw average with that previous iterate. *)
Lemma update_temperature_local_relaxed (heat : HeatFluidsDriver D Position)
    (this this' : CoupledDriver D) (raw : list D) (i : nat) (x x_prev : D) :
  heat_active heat = true ->
  update_temperature_local ROBBINS_MONRO true heat this = Ok this' ->
  average_temperatures heat this = Ok raw ->
  raw !! i = Some x ->
  cell_temperatures_ this !! i = Some x_prev ->
  cell_temperatures_prev_ this' !! i = Some x_prev
  /\ cell_temperatures_ this' !! i
     = Some (relax_at ROBBINS_MONRO (alpha_T_ (coupling this))
                      (i_picard_ this) x x_prev).
Proof.
  intros Hact E Hraw Hx Hprev. unfold update_temperature_local in E.
  rewrite Hact in E. simpl in E.
  apply bind_Ok in E. destruct E as (this1 & E1 & E).
  apply bind_Ok in E1. destruct E1 as (prev & Hcopy & E1).
  inversion E1; subst this1; clear E1.
  apply bind_Ok in E. destruct E as (temps & Havg & E).
  apply bind_Ok in E. destruct E as (relaxed & Hrelax & E).
  inversion E; subst this'; clear E.
  change (average_temperatures heat this = Ok temps) in Havg.
  rewrite Hraw in Havg. inversion Havg; subst temps; clear Havg.
  simpl in Hrelax. simpl.
  unfold std_copy in Hcopy.
  destruct (decide (length (cell_temperatures_ this)
                    <= length (cell_temperatures_prev_ this))%nat);
    inversion Hcopy; subst prev; clear Hcopy.
  destruct (relax_lookup _ _ _ _ _ _ i x Hrelax Hx) as (p & Hp & Hr).
  rewrite lookup_app_l in Hp by (eapply lookup_lt_Some; eauto).
  rewrite Hprev in Hp. inversion Hp; subst p.
  split; [| assumption].
  rewrite lookup_app_l by (eapply lookup_lt_Some; eauto). assumption.
Qed.

End TemperatureLocal.

Lemma Reqb_true (x y : R) : Reqb x y = true <-> x = y.
Proof. unfold Reqb. destruct (Req_dec_T x y); split; congruence. Qed.

Lemma relax_at_real_fixed (RM alpha x x_prev : R) (i_picard : Z) :
  alpha <> RM ->
  relax_at RM alpha i_picard x x_prev
  = (alpha * x + (1 - alpha) * x_prev)%R.
Proof.
  intros Hne. unfold relax_at. simpl.
  destruct (Reqb alpha RM) eqn:E; [| reflexivity].
  apply Reqb_true in E. contradiction.
Qed.

Lemma relax_at_real_robbins_monro (RM x x_prev : R) (i_picard : Z) :
  relax_at RM RM i_picard x x_prev
  = (x / IZR (i_picard + 1) + (1 - 1 / IZR (i_picard + 1)) * x_prev)%R.
Proof.
  unfold relax_at. simpl.
  destruct (Reqb RM RM) eqn:E; [reflexivity |].
  assert (Reqb RM RM = true) by (apply Reqb_true; reflexivity). congruence.
Qed.

(** In exact arithmetic the blend is the new value for the coefficient 1
    and at the first Picard iteration of the Robbins-Monro selection. *)
Lemma relax_at_real_identity (RM x x_prev : R) :
  (1%R <> RM -> relax_at RM 1%R 0 x x_prev = x)
  /\ relax_at RM RM 0 x x_prev = x.
Proof.
  split.
  - intros Hne. rewrite relax_at_real_fixed by exact Hne. ring.
  - rewrite relax_at_real_robbins_monro.
    change (IZR (0 + 1)) with 1%R. field.
Qed.

(** *** The blend in binary64

    The facts on the arithmetic of [double] the two limit cases of the
    blend rest on, from the specification of the binary64 operations. *)

From Stdlib Require Floats.SpecFloat Floats.FloatOps Floats.FloatAxioms.

Module Binary64.
Import SpecFloat FloatOps FloatAxioms.
Local Open Scope Z_scope.

Lemma bounded_inv (m : positive) (e : Z) :
  bounded prec emax m e = true ->
  fexp prec emax (Z.pos (digits2_pos m) + e) = e /\ e <= emax - prec.
Proof.
  unfold bounded, canonical_mantissa. intros Hb.
  apply andb_prop in Hb. destruct Hb as [Hc He].
  apply Z.eqb_eq in Hc. apply Z.leb_le in He. split; assumption.
Qed.

(** Rounding a mantissa that already fits leaves it as it is. *)
Lemma binary_round_aux_bounded (s : bool) (m : positive) (e : Z) :
  bounded prec emax m e = true ->
  binary_round_aux prec emax s (Z.pos m) e loc_Exact = S754_finite s m e.
Proof.
  intros Hb. apply bounded_inv in Hb. destruct Hb as [Hc He].
  unfold binary_round_aux, shr_fexp.
  cbn [Zdigits2 shr_record_of_loc].
  rewrite Hc, Z.sub_diag.
  cbn [shr shr_m loc_of_shr_record round_nearest_even Zdigits2
       shr_record_of_loc].
  rewrite Hc, Z.sub_diag. cbn [shr shr_m].
  apply Z.leb_le in He. rewrite He. reflexivity.
Qed.

(** The product of a mantissa with 2^52, at an exponent 52 lower, rounds
    back to the mantissa. *)
Lemma binary_round_aux_shifted (s : bool) (m : positive) (e : Z) :
  bounded prec emax m e = true ->
  binary_round_aux prec emax s (Z.pos (Pos.iter xO m 52)) (e - 52) loc_Exact
  = S754_finite s m e.
Proof.
  intros Hb. apply bounded_inv in Hb. destruct Hb as [Hc He].
  assert (Hd : Z.pos (digits2_pos (Pos.iter xO m 52))
               = Z.pos (digits2_pos m) + 52) by (cbn; lia).
  unfold binary_round_aux, shr_fexp.
  cbn [Zdigits2 shr_record_of_loc].
  rewrite Hd.
  replace (Z.pos (digits2_pos m) + 52 + (e - 52))
    with (Z.pos (digits2_pos m) + e) by lia.
  rewrite Hc.
  replace (e - (e - 52)) with 52 by lia.
  cbn [shr].
  change (iter_pos shr_1 52
            {| shr_m := Z.pos (Pos.iter xO m 52);
               shr_r := false; shr_s := false |})
    with {| shr_m := Z.pos m; shr_r := false; shr_s := false |}.
  cbn [shr_m loc_of_shr_record round_nearest_even Zdigits2
       shr_record_of_loc].
  replace (e - 52 + 52) with e by lia.
  rewrite Hc, Z.sub_diag. cbn [shr shr_m].
  apply Z.leb_le in He. rewrite He. reflexivity.
Qed.

Lemma SFmul_one_l (x : spec_float) :
  valid_binary x = true ->
  SF64mul (S754_finite false 4503599627370496 (-52)) x = x.
Proof.
  destruct x as [s|s| |s m e]; intros Hv; try reflexivity.
  unfold SF64mul, SFmul. cbn [xorb].
  change (4503599627370496 * m)%positive with (Pos.iter xO m 52).
  replace (-52 + e) with (e - 52) by lia.
  apply binary_round_aux_shifted. exact Hv.
Qed.

Lemma div_eucl_exact (q d : Z) :
  0 < d -> Z.div_eucl (q * d) d = (q, 0).
Proof.
  intros Hd.
  pose proof (Z.div_mul q d ltac:(lia)) as Hq.
  pose proof (Z.mod_mul q d ltac:(lia)) as Hr.
  unfold Z.div, Z.modulo in Hq, Hr.
  destruct (Z.div_eucl (q * d) d) as [q' r']. simpl in Hq, Hr. congruence.
Qed.

Lemma SFdiv_one_r (x : spec_float) :
  valid_binary x = true ->
  SF64div x (S754_finite false 4503599627370496 (-52)) = x.
Proof.
  destruct x as [s|s| |s m e]; intros Hv;
    try (destruct s; reflexivity); try reflexivity.
  simpl in Hv. pose proof (bounded_inv _ _ Hv) as [Hc He].
  unfold SF64div, SFdiv, SFdiv_core_binary.
  rewrite xorb_false_r.
  change (Zdigits2 4503599627370496) with 53.
  cbn [Zdigits2].
  replace (Z.pos (digits2_pos m) + e - (53 + -52))
    with (Z.pos (digits2_pos m) + e - 1) by lia.
  replace (e - -52) with (e + 52) by lia.
  assert (Hcases : (e = -1074
                    /\ fexp prec emax (Z.pos (digits2_pos m) + e - 1) = e)
                   \/ (fexp prec emax (Z.pos (digits2_pos m) + e - 1) = e - 1
                       /\ Z.pos (digits2_pos m) = 53)).
  { unfold fexp, SpecFloat.emin, prec, emax in *. lia. }
  destruct Hcases as [[Hmin Hf] | [Hf Hd]]; rewrite Hf.
  - (* a subnormal number: the quotient is the mantissa *)
    rewrite Z.min_l by lia.
    replace (e + 52 - e) with 52 by lia.
    rewrite Z.shiftl_mul_pow2 by lia.
    change (2 ^ 52) with 4503599627370496.
    rewrite div_eucl_exact by lia.
    change (new_location 4503599627370496 0) with loc_Exact.
    apply binary_round_aux_bounded. exact Hv.
  - (* a normal number: the quotient is twice the mantissa *)
    rewrite Z.min_l by lia.
    replace (e + 52 - (e - 1)) with 53 by lia.
    rewrite Z.shiftl_mul_pow2 by lia.
    replace (Z.pos m * 2 ^ 53) with (Z.pos m~0 * 4503599627370496) by lia.
    rewrite div_eucl_exact by lia.
    change (new_location 4503599627370496 0) with loc_Exact.
    unfold binary_round_aux, shr_fexp.
    cbn [Zdigits2 digits2_pos shr_record_of_loc].
    replace (Z.pos (Pos.succ (digits2_pos m)) + (e - 1))
      with (Z.pos (digits2_pos m) + e) by lia.
    rewrite Hc.
    replace (e - (e - 1)) with 1 by lia.
    cbn [shr iter_pos shr_1 orb shr_m loc_of_shr_record round_nearest_even
         Zdigits2 shr_record_of_loc].
    replace (e - 1 + 1) with e by lia.
    rewrite Hc, Z.sub_diag. cbn [shr shr_m].
    apply Z.leb_le in He. rewrite He. reflexivity.
Qed.

(** [1 * x] and [x / 1] are [x], bit for bit. *)
Lemma mul_1_l (x : float) : (1 * x)%float = x.
Proof.
  apply Prim2SF_inj. rewrite mul_spec.
  change (Prim2SF 1) with (S754_finite false 4503599627370496 (-52)).
  apply SFmul_one_l. apply Prim2SF_valid.
Qed.

Lemma div_1_r (x : float) : (x / 1)%float = x.
Proof.
  apply Prim2SF_inj. rewrite div_spec.
  change (Prim2SF 1) with (S754_finite false 4503599627370496 (-52)).
  apply SFdiv_one_r. apply Prim2SF_valid.
Qed.

(** [0 * p] is a zero when [p] is finite. *)
Lemma zero_mul_finite (p : float) :
  is_finite p = true -> exists b, Prim2SF (0 * p)%float = S754_zero b.
Proof.
  unfold is_finite, is_nan, is_infinity.
  rewrite !eqb_spec, abs_spec, mul_spec.
  change (Prim2SF 0) with (S754_zero false).
  change (Prim2SF infinity) with (S754_infinity false).
  destruct (Prim2SF p) as [s|s| |s m e]; intros Hfin.
  - exists s. reflexivity.
  - destruct s; discriminate.
  - discriminate.
  - exists s. reflexivity.
Qed.

(** Adding a zero gives the same number, up to the sign of a zero. *)
Lemma add_zero (x z : float) (b : bool) :
  Prim2SF z = S754_zero b ->
  (is_nan x = false -> (x + z =? x)%float = true)
  /\ (is_zero x = false -> (x + z)%float = x).
Proof.
  intros Hz. split.
  - unfold is_nan. rewrite !eqb_spec, add_spec, Hz. intros Hnan.
    apply negb_false_iff in Hnan.
    destruct (Prim2SF x) as [s|s| |s m e]; try exact Hnan.
    destruct s, b; reflexivity.
  - unfold is_zero. rewrite eqb_spec. intros Hzero.
    apply Prim2SF_inj. rewrite add_spec, Hz.
    change (Prim2SF zero) with (S754_zero false) in Hzero.
    destruct (Prim2SF x) as [s|s| |s m e]; try reflexivity.
    destruct s; discriminate.
Qed.

End Binary64.

(** With the coefficient 1 the blend is [1 * x + (1 - 1) * x_prev]: the
    new value when [x_prev] is finite, up to the sign of a zero. *)
Lemma relax_at_binary64_one (RM x x_prev : float) (i_picard : Z) :
  (1 =? RM)%float = false ->
  is_finite x_prev = true ->
  (is_nan x = false
   -> (relax_at RM 1%float i_picard x x_prev =? x)%float = true)
  /\ (is_zero x = false -> relax_at RM 1%float i_picard x x_prev = x).
Proof.
  intros Hne Hfin. unfold relax_at.
  cbn [deqb dadd dsub dmul d1 Float64]. rewrite Hne.
  change (1 - 1)%float with 0%float.
  rewrite Binary64.mul_1_l.
  destruct (Binary64.zero_mul_finite x_prev Hfin) as [b Hb].
  exact (Binary64.add_zero x _ b Hb).
Qed.

(** At the first Picard iteration the Robbins-Monro blend is
    [x / 1 + (1 - 1 / 1) * x_prev]: again the new value when [x_prev] is
    finite. *)
Lemma relax_at_binary64_first (RM alpha x x_prev : float) :
  (alpha =? RM)%float = true ->
  is_finite x_prev = true ->
  (is_nan x = false -> (relax_at RM alpha 0 x x_prev =? x)%float = true)
  /\ (is_zero x = false -> relax_at RM alpha 0 x x_prev = x).
Proof.
  intros Heq Hfin. unfold relax_at.
  cbn [deqb dadd dsub dmul ddiv d1 of_int Float64]. rewrite Heq.
  change (float_of_int (0 + 1)) with 1%float.
  change (1 - 1 / 1)%float with 0%float.
  rewrite Binary64.div_1_r.
  destruct (Binary64.zero_mul_finite x_prev Hfin) as [b Hb].
  exact (Binary64.add_zero x _ b Hb).
Qed.

Section Relaxation.
Context {D Position : Type} `{DoubleOps D}.
Variable ROBBINS_MONRO : D.

(** A relaxed [update_heat_source] leaves in [cell_heat_prev_] the
    entries [cell_heat_] held on entry. *)
Lemma update_heat_source_previous (i_start : Z)
    (heat : HeatFluidsDriver D Position) (this this' : CoupledDriver D)
    (calls : list (nat * D)) :
  heat_active heat = true ->
  length (cell_heat_ this) = length (cell_heat_prev_ this) ->
  update_heat_source ROBBINS_MONRO true i_start heat this
    = Ok (this', calls) ->
  cell_heat_prev_ this' = cell_heat_ this.
Proof.
  intros Hact Hlen E. unfold update_heat_source in E.
  rewrite Hact in E. cbn [andb] in E.
  rewrite std_copy_same_length in E by exact Hlen.
  cbn [mbind outcome_bind] in E.
  apply bind_Ok in E. destruct E as (this2 & E2 & E).
  apply bind_Ok in E. destruct E as (calls' & _ & E).
  inversion E; subst this' calls'; clear E.
  apply bind_Ok in E2. destruct E2 as (q & _ & E2).
  inversion E2; subst this2. reflexivity.
Qed.

(** C3.  Every relaxed field update evaluates, entry by entry and in the
    arithmetic of [double], alpha * x + (1 - alpha) * x_prev for a fixed
    coefficient and x / n + (1 - 1 / n) * x_prev, n = i_picard + 1, for
    the Robbins-Monro selection, where [x] is the entry of the current
    array and [x_prev] the entry of the previous-iterate array when the
    relaxation is reached: in [update_temperature] the raw volume average
    and the value the cell held on entry, in [update_density] the entry
    after the averaging loop and the entry of [cell_densities_prev_], in
    [update_heat_source] the entry of [cell_heat_] and the entry of
    [cell_heat_prev_].  In binary64, with the coefficient 1 and with the
    Robbins-Monro selection at n = 1, the result compares equal to [x]
    when [x_prev] is finite and [x] is a number, and is [x] bit for bit
    when [x] is not a zero. *)
Theorem relaxation_blend :
  (forall (heat : HeatFluidsDriver D Position) (this this' : CoupledDriver D)
          (raw : list D) (i : nat) (x x_prev : D),
     heat_active heat = true ->
     length (cell_temperatures_ this)
       = length (cell_temperatures_prev_ this) ->
     update_temperature_local ROBBINS_MONRO true heat this = Ok this' ->
     average_temperatures heat this = Ok raw ->
     raw !! i = Some x ->
     cell_temperatures_ this !! i = Some x_prev ->
     cell_temperatures_prev_ this' !! i = Some x_prev
     /\ cell_temperatures_ this' !! i
        = Some (relax_at ROBBINS_MONRO (alpha_T_ (coupling this))
                         (i_picard_ this) x x_prev))
  /\ (forall (heat : HeatFluidsDriver D Position)
             (this this' : CoupledDriver D)
             (averaged : list D) (i : nat) (x x_prev : D),
        heat_active heat = true ->
        length (cell_densities_ this)
          = length (cell_densities_prev_ this) ->
        update_density_local ROBBINS_MONRO true heat this = Ok this' ->
        average_densities heat this = Ok averaged ->
        averaged !! i = Some x ->
        cell_densities_prev_ this' !! i = Some x_prev ->
        cell_densities_ this' !! i
        = Some (relax_at ROBBINS_MONRO (alpha_rho_ (coupling this))
                         (i_picard_ this) x x_prev))
  /\ (forall (i_start : Z) (heat : HeatFluidsDriver D Position)
             (this this' : CoupledDriver D) (calls : list (nat * D))
             (i : nat) (x x_prev : D),
        heat_active heat = true ->
        length (cell_heat_ this) = length (cell_heat_prev_ this) ->
        update_heat_source ROBBINS_MONRO true i_start heat this
          = Ok (this', calls) ->
        cell_heat_ this !! i = Some x ->
        cell_heat_prev_ this' !! i = Some x_prev ->
        cell_heat_ this' !! i
        = Some (relax_at ROBBINS_MONRO (alpha_ (coupling this))
                         (i_picard_ this) x x_prev))
  /\ (forall (alpha : D) (i_picard : Z) (x x_prev : D),
        relax_at ROBBINS_MONRO alpha i_picard x x_prev
        = if (alpha =? ROBBINS_MONRO)%D
          then (x / of_int (i_picard + 1)
                + (d1 - d1 / of_int (i_picard + 1)) * x_prev)%D
          else (alpha * x + (d1 - alpha) * x_prev)%D)
  /\ (forall (RM x x_prev : float) (i_picard : Z),
        (1 =? RM)%float = false ->
        is_finite x_prev = true ->
        (is_nan x = false
         -> (relax_at RM 1%float i_picard x x_prev =? x)%float = true)
        /\ (is_zero x = false
            -> relax_at RM 1%float i_picard x x_prev = x))
  /\ (forall (RM alpha x x_prev : float),
        (alpha =? RM)%float = true ->
        is_finite x_prev = true ->
        (is_nan x = false
         -> (relax_at RM alpha 0 x x_prev =? x)%float = true)
        /\ (is_zero x = false -> relax_at RM alpha 0 x x_prev = x)).
Proof.
  split; [| split; [| split; [| split; [| split]]]].
  - intros heat this this' raw i x x_prev Hact _ E Hraw Hx Hprev.
    exact (update_temperature_local_relaxed ROBBINS_MONRO heat this this'
             raw i x x_prev Hact E Hraw Hx Hprev).
  - intros heat this this' averaged i x x_prev Hact _ E Havg Hx Hprev.
    rewrite (update_density_local_prev ROBBINS_MONRO true heat this this' E)
      in Hprev.
    destruct (update_density_local_relaxed ROBBINS_MONRO heat this this'
                Hact E) as (dens & Hdens & Hrelax).
    rewrite Havg in Hdens. inversion Hdens; subst dens; clear Hdens.
    destruct (relax_lookup ROBBINS_MONRO _ _ _ _ _ i x Hrelax Hx)
      as (p & Hp & Hr).
    rewrite Hprev in Hp. inversion Hp; subst p. exact Hr.
  - intros i_start heat this this' calls i x x_prev Hact Hlen E Hx Hprev.
    rewrite (update_heat_source_previous i_start heat this this' calls
               Hact Hlen E) in Hprev.
    rewrite Hx in Hprev. inversion Hprev; subst x_prev.
    exact (update_heat_source_relaxed ROBBINS_MONRO i_start heat this this'
             calls i x Hact E Hx).
  - intros alpha i_picard x x_prev. reflexivity.
  - exact relax_at_binary64_one.
  - exact relax_at_binary64_first.
Qed.

End Relaxation.

Lemma relaxation_blend_witness :
  (cell_temperatures_prev_ warm_cell_updated !! 0%nat = Some 500%float
   /\ cell_temperatures_ warm_cell_updated !! 0%nat
      = Some (relax_at sentinel64 (alpha_T_ (coupling warm_cell))
                       (i_picard_ warm_cell) 600%float 500%float))
  /\ cell_densities_ after_first_density_update !! 0%nat
     = Some (relax_at sentinel64 (alpha_rho_ (coupling one_fluid_cell))
                      (i_picard_ one_fluid_cell) 3%float 1%float)
  /\ cell_heat_ two_cells_relaxed.1 !! 1%nat
     = Some (relax_at sentinel64 (alpha_ (coupling two_cells))
                      (i_picard_ two_cells) 7%float 7%float)
  /\ relax_at sentinel64 1%float 3 150%float 140%float = 150%float
  /\ relax_at sentinel64 sentinel64 0 150%float 140%float = 150%float.
Proof.
  destruct (relaxation_blend (Position := Z) sentinel64)
    as (Htemp & Hdens & Hheat & _ & Hone & Hfirst).
  split; [| split; [| split; [| split]]].
  - apply (Htemp fluid_heat warm_cell warm_cell_updated [600%float] 0%nat
             600%float 500%float);
      [reflexivity | reflexivity | vm_compute; reflexivity
      | vm_compute; reflexivity | reflexivity | reflexivity].
  - apply (Hdens fluid_heat one_fluid_cell after_first_density_update
             [3%float] 0%nat 3%float 1%float);
      [reflexivity | reflexivity | vm_compute; reflexivity
      | vm_compute; reflexivity | reflexivity | vm_compute; reflexivity].
  - apply (Hheat 0 fluid_heat two_cells two_cells_relaxed.1
             two_cells_relaxed.2 1%nat 7%float 7%float);
      [reflexivity | reflexivity | vm_compute; reflexivity
      | vm_compute; reflexivity | vm_compute; reflexivity].
  - apply (Hone sentinel64 150%float 140%float 3);
      [reflexivity | reflexivity | reflexivity].
  - apply (Hfirst sentinel64 sentinel64 150%float 140%float);
      [reflexivity | reflexivity | reflexivity].
Defined.

(** C3, counterexample.  In binary64 the relaxed [update_temperature]
    does not compute the blend exactly.  A cell at 3 K whose raw average
    is 3 K again ends at 3.0000000000000004 K with the coefficient 0.2,
    although alpha * 3 + (1 - alpha) * 3 is 3 for every alpha; and with
    the coefficient 1 a cell whose value on entry is infinite ends as
    NaN, not as its raw average 3 K. *)
Lemma relaxation_blend_not_exact :
  (average_temperatures steady_heat (steady_cell 0.2 3) = Ok [3%float]
   /\ (d ← update_temperature_local sentinel64 true steady_heat
              (steady_cell 0.2 3);
       Ok (cell_temperatures_ d))
      = Ok [3.0000000000000004%float]
   /\ (3.0000000000000004 =? 3)%float = false
   /\ forall alpha : R, (alpha * 3 + (1 - alpha) * 3 = 3)%R)
  /\ (average_temperatures steady_heat (steady_cell 1 infinity)
      = Ok [3%float]
      /\ (d ← update_temperature_local sentinel64 true steady_heat
                 (steady_cell 1 infinity);
          Ok (cell_temperatures_ d))
         = Ok [nan]
      /\ (nan =? 3)%float = false).
Proof.
  split; [split; [| split; [| split]] | split; [| split]];
    try (vm_compute; reflexivity).
  intros alpha. ring.
Qed.

(** ** The two-rank scenario *)

(** C4.  The two-rank scenario on the processes of a run.  With the
    neutronics solver on the first heat rank, the unrelaxed
    [update_temperature] that [init_temperatures] runs for the heat
    initial condition sets 150 K for A and 350 K for B in the field
    domain, and step 3 leaves rank 0 with the cell and the temperature of
    rank 1.  With the neutronics initial condition the constructor
    returns with the previous iterate 340 K on rank 1 and, again, the
    cell of rank 1 on rank 0: in the first relaxed [update_temperature]
    the steps 1 and 2 of rank 1 give 345 K, those of rank 0 throw at the
    [at] of line 368, and the call ends there.  No layout reaches the
    relaxed values: with the neutronics solver on a process of its own
    the constructor throws, whatever the initial conditions and the
    build. *)
Theorem two_rank_scenario :
  (w ← construct_geometry true two_ranks;
   r ← init_temperatures sentinel64 Initial_heat
         (fun _ => []) (fun _ => []) w;
   Ok (map mapping_and_temperatures r.1, r.2))
  = Ok ([ ([cell_B], [(cell_A, [0; 1]%nat)], ([350], [350])%float);
          ([cell_B], [(cell_B, [0; 1]%nat)], ([350], [350])%float) ],
        [ [(cell_A, 150%float); (cell_B, 350%float)]; [] ])
  /\ (w ← construct sentinel64 true Initial_neutronics Initial_neutronics
            [] two_ranks;
      Ok (map mapping_and_temperatures w))
     = Ok [ ([cell_B], [(cell_A, [0; 1]%nat)], ([340], [340])%float);
            ([cell_B], [(cell_B, [0; 1]%nat)], ([340], [340])%float) ]
  /\ (w ← construct sentinel64 true Initial_neutronics Initial_neutronics
            [] two_ranks;
      Ok (map relaxed_steps w))
     = Ok [ Abort out_of_range; Ok ([345], [340])%float ]
  /\ (forall (NDEBUG : bool) (temperature_ic density_ic : Initial),
        (w ← construct sentinel64 NDEBUG temperature_ic density_ic
               [] two_ranks;
         update_temperature sentinel64 true w)
        = Abort out_of_range)
  /\ (forall (NDEBUG : bool) (temperature_ic density_ic : Initial),
        (w ← construct sentinel64 NDEBUG temperature_ic density_ic
               [] two_ranks_root_last;
         update_temperature sentinel64 true w)
        = Abort out_of_range)
  /\ (forall (NDEBUG : bool) (temperature_ic density_ic : Initial),
        construct sentinel64 NDEBUG temperature_ic density_ic
                  [] (two_heat_ranks 0.5)
        = Abort out_of_range).
Proof.
  split; [vm_compute; reflexivity |].
  split; [vm_compute; reflexivity |].
  split; [vm_compute; reflexivity |].
  split; [| split];
    intros [] [] []; vm_compute; reflexivity.
Qed.

(** Given by hand the state of a layout whose neutronics solver has a
    process of its own, with every array sized and both iterates at 140 K
    and 340 K, the calls compute the values of the scenario: averages 150
    K and 350 K, field values 150 K and 350 K, relaxed values 145 K and
    345 K, the latter being also what the relaxed call sets in the field
    domain. *)
Example two_rank_scenario_on_a_given_state :
  (w ← two_heat_ranks_ready 0.5; raw_averages w)
    = Ok [[150%float]; [350%float]]
  /\ (w ← two_heat_ranks_ready 0.5;
      r ← update_temperature sentinel64 false w;
      Ok (temperature_report r))
     = Ok ([[150%float]; [350%float]],
           [[(cell_A, 150%float); (cell_B, 350%float)]; []; []])
  /\ (w ← two_heat_ranks_ready 0.5;
      r ← update_temperature sentinel64 true w;
      Ok (temperature_report r))
     = Ok ([[145%float]; [345%float]],
           [[(cell_A, 145%float); (cell_B, 345%float)]; []; []]).
Proof. repeat split; vm_compute; reflexivity. Qed.

(** The same blend in binary64 with coefficient 1 and with the
    Robbins-Monro sentinel at the first Picard iteration. *)
Example relax_at_float_identity :
  relax_at sentinel64 1%float 3 150%float 140%float = 150%float
  /\ relax_at sentinel64 sentinel64 0 150%float 140%float = 150%float.
Proof. split; vm_compute; reflexivity. Qed.

(** ** The convergence norm *)

(** C6, counterexample.  After a relaxed update of the two-rank scenario
    every heat rank has moved its cell by 5 K.  With the L2 norm, rank 1
    (the root of the heat communicator) returns the square root of the
    reduced sum 50; rank 2 takes a square root as well, of its own
    [g_sum], which the reduction did not write (it held 4 here). *)
Lemma temperature_norm_sqrt_off_root :
  (w ← two_heat_ranks_ready 0.5;
   r ← update_temperature sentinel64 true w;
   temperature_norm lowest64 L2 (fun _ => 4%float) r.1)
  = Ok [ (0%float, []);
         (7.0710678118654755%float,
          [call_MPI_Reduce 25%float; call_sqrt 50%float]);
         (2%float, [call_MPI_Reduce 25%float; call_sqrt 4%float]) ]
  /\ heat_ranks_ two_heat_ranks_moved = [1%nat; 2%nat]
  /\ ~ (forall (rank : nat) (value x : float) calls,
          two_heat_ranks_norms !! rank = Some (value, calls) ->
          is_root (heat_ranks_ two_heat_ranks_moved) rank = false ->
          call_sqrt x ∉ calls).
Proof.
  split; [vm_compute; reflexivity |]. split; [vm_compute; reflexivity |].
  intros Honly.
  apply (Honly 2%nat 2%float 4%float
               [call_MPI_Reduce 25%float; call_sqrt 4%float]).
  - vm_compute. reflexivity.
  - vm_compute. reflexivity.
  - right. left.
Qed.

(** ** Processes and communicators *)

Section Communicators.
Context {S T : Type}.

Lemma on_each_cons (f : S -> outcome T) (s : S) (w : list S) :
  on_each f (s :: w) = (t ← f s; r ← on_each f w; Ok (t :: r)).
Proof. reflexivity. Qed.

Lemma on_each_lookup (f : S -> outcome T) (w : list S) (r : list T) :
  on_each f w = Ok r ->
  length r = length w
  /\ forall k s, w !! k = Some s -> exists t, f s = Ok t /\ r !! k = Some t.
Proof.
  revert r. induction w as [|s w IH]; intros r E.
  - inversion E; subst. split; [reflexivity |]. intros k s Hk.
    rewrite lookup_nil in Hk. discriminate.
  - rewrite on_each_cons in E. inv_bind E.
    destruct (IH _ Ha0) as [Hlen Hl]. split; [simpl; lia |].
    intros [|k] s' Hk; simpl in *.
    + inversion Hk; subst. eauto.
    + apply Hl. assumption.
Qed.

Lemma elem_of_gather_subcomm_ranks (member : S -> bool) (w : list S)
    (r : nat) :
  r ∈ gather_subcomm_ranks member w
  <-> exists s, w !! r = Some s /\ member s = true.
Proof.
  unfold gather_subcomm_ranks. rewrite list_elem_of_fmap. split.
  - intros ([k s] & -> & Hin). apply list_elem_of_filter in Hin.
    destruct Hin as [Hm Hin]. apply elem_of_lookup_imap in Hin.
    destruct Hin as (i & x & Heq & Hx). inversion Heq; subst. eauto.
  - intros (s & Hs & Hm). exists (r, s). split; [reflexivity |].
    apply list_elem_of_filter. split; [assumption |].
    apply (elem_of_lookup_imap_2 pair w s r). assumption.
Qed.

Lemma NoDup_gather_subcomm_ranks (member : S -> bool) (w : list S) :
  NoDup (gather_subcomm_ranks member w).
Proof.
  unfold gather_subcomm_ranks. apply NoDup_fmap_fst.
  - intros k s1 s2 H1 H2.
    apply list_elem_of_filter in H1, H2. destruct H1 as [_ H1], H2 as [_ H2].
    apply elem_of_lookup_imap in H1, H2.
    destruct H1 as (i1 & x1 & E1 & L1), H2 as (i2 & x2 & E2 & L2).
    inversion E1; inversion E2; subst. congruence.
  - apply NoDup_filter. apply NoDup_alt. intros i j [k s] Hi Hj.
    rewrite list_lookup_imap in Hi, Hj.
    destruct (w !! i); destruct (w !! j); simpl in *; congruence.
Qed.

End Communicators.

Lemma at_rank_of_nat {S} (w : list S) (r : nat) :
  at_rank w (Z.of_nat r) = w !! r.
Proof.
  unfold at_rank. destruct (Z.ltb_spec (Z.of_nat r) 0); [lia |].
  rewrite Nat2Z.id. reflexivity.
Qed.

Lemma broadcast_Ok {S A} (member : S -> bool) (get : S -> A)
    (set : A -> S -> S) (root : nat) (w : list S) (r : S) :
  w !! root = Some r ->
  broadcast member get set (Z.of_nat root) w
  = Ok (map (fun p => if member p then set (get r) p else p) w).
Proof.
  intros Hr. unfold broadcast. rewrite at_rank_of_nat, Hr. reflexivity.
Qed.

Lemma foldl_max_is (vs : list Z) (v m : Z) :
  (forall x, x ∈ v :: vs -> x <= m) -> m ∈ v :: vs ->
  foldl Z.max v vs = m.
Proof.
  revert v. induction vs as [|a vs IH]; intros v Hle Hin; simpl.
  - apply list_elem_of_singleton in Hin. congruence.
  - assert (Hv : v <= m) by (apply Hle; left).
    assert (Ha : a <= m) by (apply Hle; right; left).
    apply IH.
    + intros x Hx. apply elem_of_cons in Hx. destruct Hx as [-> | Hx].
      * apply Z.max_lub; assumption.
      * apply Hle. right; right. assumption.
    + apply elem_of_cons in Hin. destruct Hin as [-> | Hin].
      * rewrite Z.max_l by assumption. left.
      * apply elem_of_cons in Hin. destruct Hin as [-> | Hin].
        -- rewrite Z.max_r by assumption. left.
        -- right. assumption.
Qed.

(** The root rank every process agrees on (lines 161-166) is the global
    rank of the first member of the solver's communicator. *)
Lemma root_of_first {S} (member : S -> bool) (w : list S)
    (r : nat) (rest : list nat) :
  gather_subcomm_ranks member w = r :: rest ->
  root_of member w = Z.of_nat r.
Proof.
  intros E. unfold root_of. rewrite E.
  assert (Hr : exists s, w !! r = Some s).
  { assert (Hin : r ∈ gather_subcomm_ranks member w) by (rewrite E; left).
    apply elem_of_gather_subcomm_ranks in Hin.
    destruct Hin as (s & Hs & _). eauto. }
  destruct Hr as [s Hs].
  set (L := imap _ w).
  assert (HL : forall x, x ∈ L -> x <= Z.of_nat r).
  { intros x Hx. apply elem_of_lookup_imap in Hx.
    destruct Hx as (i & y & -> & _). simpl.
    destruct (Nat.eqb_spec r i); subst; lia. }
  assert (Hin : Z.of_nat r ∈ L).
  { apply elem_of_lookup_imap. exists r, s. split; [| assumption].
    simpl. rewrite Nat.eqb_refl. reflexivity. }
  unfold allreduce_max. destruct L as [|v vs].
  - inversion Hin.
  - apply foldl_max_is; assumption.
Qed.

Section Convergence.
Context {D Position : Type} `{DoubleOps D}.
Variable DBL_LOWEST : D.

Lemma local_term_L2 (this : CoupledDriver D) (l : D) :
  local_term DBL_LOWEST L2 this = Ok l -> l = squared_change this.
Proof.
  unfold local_term. intros E. inv_bind E.
  apply xt_zip_Ok in Ha. destruct Ha as [_ ->]. reflexivity.
Qed.

(** The contributions that enter the reduction are the local sums of the
    heat-active processes, in rank order. *)
Lemma L2_contributions (w : list (@Process D Position))
    (locals : list (option D)) :
  on_each (fun p => if in_heat p
                    then l ← local_term DBL_LOWEST L2 (this_ p); Ok (Some l)
                    else Ok None) w = Ok locals ->
  omap (fun l => l) locals
  = map (fun p => squared_change (this_ p))
        (filter (fun p => in_heat p = true) w).
Proof.
  revert locals. induction w as [|p w IH]; intros locals E.
  - inversion E; subst. reflexivity.
  - rewrite on_each_cons in E.
    apply bind_Ok in E. destruct E as (t & Ht & E).
    apply bind_Ok in E. destruct E as (r & Hr & E).
    inversion E; subst locals; clear E. rewrite filter_cons.
    destruct (in_heat p) eqn:Hp.
    + apply bind_Ok in Ht. destruct Ht as (l & Hl & Ht).
      inversion Ht; subst t; clear Ht. apply local_term_L2 in Hl. subst l.
      rewrite decide_True by reflexivity. simpl. f_equal. apply IH. assumption.
    + inversion Ht; subst t. rewrite decide_False by discriminate.
      simpl. apply IH. assumption.
Qed.

Lemma temperature_norm_length (norm : Norm) (g_sum : nat -> D)
    (w : list (@Process D Position)) (norms : list (D * list norm_call)) :
  temperature_norm DBL_LOWEST norm g_sum w = Ok norms ->
  length norms = length w.
Proof.
  unfold temperature_norm. intros E. inv_bind E.
  apply on_each_lookup in Ha. destruct Ha as [Hlen _].
  rewrite length_imap. assumption.
Qed.

(** C6.  With the L2 norm, the value [temperature_norm] returns on the
    root of the heat communicator is the square root of the sum, over the
    heat-active processes, of their sums of squared temperature
    differences. *)
Theorem temperature_norm_L2_at_root (g_sum : nat -> D)
    (w : list (@Process D Position)) (norms : list (D * list norm_call))
    (root : nat) (rest : list nat) :
  temperature_norm DBL_LOWEST L2 g_sum w = Ok norms ->
  heat_ranks_ w = root :: rest ->
  exists calls,
    norms !! root
    = Some (dsqrt (reduce dadd
                     (map (fun p => squared_change (this_ p))
                          (filter (fun p => in_heat p = true) w))),
            calls).
Proof.
  intros E Hranks. unfold temperature_norm in E.
  apply bind_Ok in E. destruct E as (locals & Hlocals & E).
  inversion E; subst norms; clear E.
  rewrite (L2_contributions _ _ Hlocals).
  assert (Hin : root ∈ heat_ranks_ w) by (rewrite Hranks; left).
  apply elem_of_gather_subcomm_ranks in Hin. destruct Hin as (p & Hp & Hact).
  destruct (on_each_lookup _ _ _ Hlocals) as [_ Hl].
  destruct (Hl root p Hp) as (t & Ht & Hroot).
  rewrite Hact in Ht.
  apply bind_Ok in Ht. destruct Ht as (l & _ & Ht).
  inversion Ht; subst t; clear Ht.
  rewrite list_lookup_imap, Hroot. simpl.
  rewrite Hranks. simpl. rewrite Nat.eqb_refl. eauto.
Qed.

(** C5.  When the heat root exists, [is_converged] returns on every
    process the comparison, made on the heat root, of the norm held
    there with the root's tolerance. *)
Theorem is_converged_same_on_all (norm : Norm) (g_sum : nat -> D)
    (converged : nat -> bool) (w : list (@Process D Position))
    (norms : list (D * list norm_call)) (root : nat)
    (p_root : @Process D Position) (tnorm : D) (calls : list norm_call) :
  temperature_norm DBL_LOWEST norm g_sum w = Ok norms ->
  heat_root_ w = Z.of_nat root ->
  w !! root = Some p_root ->
  norms !! root = Some (tnorm, calls) ->
  is_converged DBL_LOWEST norm g_sum converged w
  = Ok (replicate (length w)
                  (tnorm <? epsilon_ (coupling (this_ p_root)))%D).
Proof.
  intros Hnorms Hroot Hp Hn. unfold is_converged.
  rewrite Hnorms, Hroot. cbn [mbind outcome_bind].
  pose proof (temperature_norm_length _ _ _ _ Hnorms) as Hlen.
  set (locals := imap _ (zip w norms)).
  assert (Hlocals : locals !! root
                    = Some ((tnorm <? epsilon_ (coupling (this_ p_root)))%D,
                            tnorm)).
  { subst locals. rewrite list_lookup_imap.
    assert (Hz : zip w norms !! root = Some (p_root, (tnorm, calls))).
    { apply lookup_zip_with_Some. exists p_root, (tnorm, calls). auto. }
    rewrite Hz. simpl. rewrite Z.eqb_refl. reflexivity. }
  assert (Hlen' : length locals = length w).
  { subst locals. rewrite length_imap, length_zip. lia. }
  rewrite (broadcast_Ok _ _ _ _ _ _ Hlocals). cbn [mbind outcome_bind].
  erewrite broadcast_Ok
    by (rewrite list_lookup_fmap, Hlocals; reflexivity).
  cbn [mbind outcome_bind]. f_equal. rewrite <- Hlen'. clear.
  induction locals as [|s l IH]; simpl; [reflexivity |]. f_equal. exact IH.
Qed.

End Convergence.

Lemma temperature_norm_L2_at_root_witness :
  exists calls,
    two_heat_ranks_norms !! 1%nat
    = Some (dsqrt (reduce dadd
                     (map (fun p => squared_change (this_ p))
                          (filter (fun p => in_heat p = true)
                                  two_heat_ranks_moved))),
            calls).
Proof.
  apply (temperature_norm_L2_at_root lowest64 (fun _ => 4%float)
           two_heat_ranks_moved two_heat_ranks_norms 1 [2%nat]).
  - vm_compute. reflexivity.
  - vm_compute. reflexivity.
Defined.

Lemma is_converged_same_on_all_witness :
  is_converged lowest64 L2 (fun _ => 4%float) (fun _ => true)
               two_heat_ranks_moved
  = Ok (replicate (length two_heat_ranks_moved)
                  (7.0710678118654755%float
                   <? epsilon_ (coupling (this_ moved_heat_root)))%D).
Proof.
  apply (is_converged_same_on_all lowest64 L2 (fun _ => 4%float)
           (fun _ => true) two_heat_ranks_moved two_heat_ranks_norms 1
           moved_heat_root 7.0710678118654755%float
           [call_MPI_Reduce 25%float; call_sqrt 50%float]).
  - vm_compute. reflexivity.
  - vm_compute. reflexivity.
  - vm_compute. reflexivity.
  - vm_compute. reflexivity.
Defined.

(** ** The element-to-cell mapping *)

Lemma push_back_elem_lookup (m : gmap Z (list nat)) (c0 c : Z) (e0 : nat) :
  push_back_elem m c0 e0 !! c
  = if decide (c0 = c) then Some (default [] (m !! c0) ++ [e0]) else m !! c.
Proof. unfold push_back_elem. apply lookup_insert. Qed.

(** An element is listed under a cell after the inversion loop exactly
    when it was listed there before, or the loop met it with that cell. *)
Lemma invert_from_spec (l : list Z) (e0 : nat) (m : gmap Z (list nat))
    (c : Z) (e : nat) :
  (exists es, invert_from e0 l m !! c = Some es /\ e ∈ es)
  <-> (exists es, m !! c = Some es /\ e ∈ es)
      \/ ((e0 <= e)%nat /\ l !! (e - e0)%nat = Some c).
Proof.
  revert e0 m. induction l as [|c0 l IH]; intros e0 m; simpl.
  - split; [auto |]. intros [Hm | [_ Hl]]; [assumption |].
    rewrite lookup_nil in Hl. discriminate.
  - rewrite IH. split.
    + intros [(es & Hes & Hin) | [Hle Hl]].
      * rewrite push_back_elem_lookup in Hes.
        destruct (decide (c0 = c)) as [-> | Hne].
        -- inversion Hes; subst es; clear Hes.
           apply elem_of_app in Hin. destruct Hin as [Hin | Hin].
           ++ left. destruct (m !! c) as [es|] eqn:Hc; simpl in Hin.
              ** eauto.
              ** inversion Hin.
           ++ apply list_elem_of_singleton in Hin. subst e. right.
              split; [lia |]. rewrite Nat.sub_diag. reflexivity.
        -- left. eauto.
      * right. split; [lia |].
        replace (e - e0)%nat with (S (e - S e0)) by lia. assumption.
    + intros [(es & Hes & Hin) | [Hle Hl]].
      * left. rewrite push_back_elem_lookup.
        destruct (decide (c0 = c)) as [-> | Hne].
        -- eexists. split; [reflexivity |]. rewrite Hes. simpl.
           apply elem_of_app. left. assumption.
        -- eauto.
      * destruct (decide (e = e0)) as [-> | Hne].
        -- rewrite Nat.sub_diag in Hl. inversion Hl; subst c0. left.
           rewrite push_back_elem_lookup, decide_True by reflexivity.
           eexists. split; [reflexivity |]. apply elem_of_app. right. left.
        -- right. split; [lia |].
           replace (e - e0)%nat with (S (e - S e0)) in Hl by lia. assumption.
Qed.

Lemma invert_from_nonempty (l : list Z) (e0 : nat) (m : gmap Z (list nat)) :
  (forall c es, m !! c = Some es -> es <> []) ->
  forall c es, invert_from e0 l m !! c = Some es -> es <> [].
Proof.
  revert e0 m. induction l as [|c0 l IH]; intros e0 m Hm; simpl; [exact Hm |].
  apply IH. intros c es. rewrite push_back_elem_lookup.
  destruct (decide (c0 = c)); [| apply Hm].
  intros E; inversion E. intros Hnil. apply app_eq_nil in Hnil.
  destruct Hnil as [_ Hnil]. discriminate.
Qed.

(** The keys of a [std::map], as the range-for of line 515 meets them. *)
Lemma map_items_keys {A} (m : gmap Z A) :
  NoDup (map_items m).*1
  /\ forall c, c ∈ (map_items m).*1 <-> is_Some (m !! c).
Proof.
  assert (Hperm : (map_items m).*1 ≡ₚ (map_to_list m).*1).
  { unfold map_items. apply fmap_Permutation, merge_sort_Permutation. }
  split.
  - rewrite Hperm. apply NoDup_fst_map_to_list.
  - intros c. rewrite Hperm, list_elem_of_fmap. split.
    + intros ([k a] & -> & Hin). apply elem_of_map_to_list in Hin. eauto.
    + intros [a Ha]. exists (c, a). split; [reflexivity |].
      apply elem_of_map_to_list. assumption.
Qed.

Section Mapping.
Context {D Position : Type}.

(** The block a heat rank runs on a freshly constructed driver. *)
Lemma invert_mapping_spec (this : CoupledDriver D) :
  cell_to_elems_ this = ∅ ->
  cells_ this = [] ->
  let d := invert_mapping this in
  elem_to_cell_ d = elem_to_cell_ this
  /\ (forall e c, (exists es, cell_to_elems_ d !! c = Some es /\ e ∈ es)
                  <-> elem_to_cell_ d !! e = Some c)
  /\ NoDup (cells_ d)
  /\ (forall c, c ∈ cells_ d <-> exists e, elem_to_cell_ d !! e = Some c).
Proof.
  intros Hm Hc d. subst d. unfold invert_mapping. simpl.
  rewrite Hm, Hc. simpl.
  assert (Hspec : forall e c,
             (exists es, invert_from 0 (elem_to_cell_ this) ∅ !! c = Some es
                         /\ e ∈ es)
             <-> elem_to_cell_ this !! e = Some c).
  { intros e c. rewrite invert_from_spec. rewrite Nat.sub_0_r. split.
    - intros [(es & Hes & _) | [_ Hl]]; [| assumption].
      rewrite lookup_empty in Hes. discriminate.
    - intros Hl. right. split; [lia | assumption]. }
  split; [reflexivity |]. split; [exact Hspec |].
  destruct (map_items_keys (invert_from 0 (elem_to_cell_ this) ∅))
    as [Hnd Hkeys].
  split; [exact Hnd |].
  intros c. rewrite Hkeys. split.
  - intros [es Hes].
    assert (Hne : es <> []).
    { eapply (invert_from_nonempty (elem_to_cell_ this) 0 ∅); [| exact Hes].
      intros c' es'. rewrite lookup_empty. discriminate. }
    destruct es as [|e es]; [contradiction |].
    exists e. apply Hspec. exists (e :: es). split; [assumption | left].
  - intros [e He]. apply Hspec in He. destruct He as (es & Hes & _). eauto.
Qed.

Lemma send_and_recv_Ok {S A} (get : S -> A) (set : A -> S -> S)
    (dest source : Z) (w w' : list S) :
  send_and_recv get set dest source w = Ok w' ->
  exists src d, at_rank w source = Some src /\ at_rank w dest = Some d
                /\ (0 <= dest)%Z
                /\ w' = alter (set (get src)) (Z.to_nat dest) w.
Proof.
  unfold send_and_recv. intros E.
  destruct (at_rank w source) as [src|] eqn:Hs; [| discriminate].
  destruct (at_rank w dest) as [d|] eqn:Hd; [| discriminate].
  inversion E; subst. exists src, d. repeat split; try reflexivity.
  unfold at_rank in Hd. destruct (Z.ltb_spec dest 0); [discriminate | lia].
Qed.

Lemma foldM_app {A St} (body : St -> A -> outcome St) (s : St)
    (l1 l2 : list A) :
  foldM body s (l1 ++ l2) = (s' ← foldM body s l1; foldM body s' l2).
Proof.
  revert s. induction l1 as [|a l1 IH]; intros s; simpl; [reflexivity |].
  destruct (body s a); simpl; [apply IH | reflexivity].
Qed.

End Mapping.

Section MappingRounds.
Context {D Position : Type}.
Implicit Types w : list (@Process D Position).

(** What one pass of the loop does to the process of rank [r]: its own
    pass gives it the cells the root found for its centroids and runs the
    inversion; another rank's pass leaves its mapping alone. *)
Lemma init_mappings_round_lookup (root : Z) w w' (h r : nat)
    (p : @Process D Position) :
  init_mappings_round root w h = Ok w' ->
  w !! r = Some p ->
  exists p' p_root,
    w' !! r = Some p' /\ at_rank w root = Some p_root
    /\ heat p' = heat p /\ neutronics p' = neutronics p
    /\ (r = h ->
        this_ p' = invert_mapping
                     (set_elem_to_cell_
                        (find (neutronics p_root) (centroid_local (heat p)))
                        (this_ p)))
    /\ (r <> h ->
        cell_to_elems_ (this_ p') = cell_to_elems_ (this_ p)
        /\ cells_ (this_ p') = cells_ (this_ p)
        /\ (Z.of_nat r <> root -> this_ p' = this_ p)).
Proof.
  intros E Hp. unfold init_mappings_round in E.
  apply bind_Ok in E. destruct E as (ws1 & E1 & E).
  apply bind_Ok in E. destruct E as (ws3 & E3 & E).
  inversion E; subst w'; clear E.
  apply send_and_recv_Ok in E1.
  destruct E1 as (src0 & dst0 & Hsrc0 & Hdst0 & Hroot & ->).
  apply send_and_recv_Ok in E3.
  destruct E3 as (src2 & dst2 & Hsrc2 & Hdst2 & _ & ->).
  assert (Hrt' : exists rt, root = Z.of_nat rt)
    by (exists (Z.to_nat root); lia).
  destruct Hrt' as [rt ->]. clear Hroot. rewrite Nat2Z.id in *.
  rewrite at_rank_of_nat in Hsrc0, Hdst0, Hsrc2, Hdst2.
  rewrite list_lookup_imap in Hsrc0, Hdst0.
  destruct (w !! h) as [p_h|] eqn:Hh; [| discriminate].
  destruct (w !! rt) as [p_rt|] eqn:Hrt; [| discriminate].
  simpl in Hsrc0, Hdst0. rewrite Nat.eqb_refl in Hsrc0.
  inversion Hsrc0; subst src0; clear Hsrc0. clear Hdst0 dst0 Hdst2 dst2.
  rewrite list_lookup_imap, list_lookup_alter_eq, list_lookup_imap, Hrt
    in Hsrc2.
  simpl in Hsrc2. rewrite Z.eqb_refl in Hsrc2.
  inversion Hsrc2; subst src2; clear Hsrc2. simpl.
  rewrite at_rank_of_nat, ?Nat2Z.id.
  destruct (decide (h = r)) as [-> | Hhr];
    destruct (decide (rt = r)) as [-> | Hrr];
    repeat first [ rewrite list_lookup_imap
                 | rewrite list_lookup_alter_eq
                 | rewrite list_lookup_alter_ne by congruence ];
    rewrite Hp; simpl; rewrite ?Nat.eqb_refl, ?Z.eqb_refl; simpl.
  - rewrite Hp in Hh, Hrt. inversion Hh; inversion Hrt; subst.
    eexists _, _. repeat split; try reflexivity; intros; congruence.
  - destruct (Z.eqb_spec (Z.of_nat r) (Z.of_nat rt)); [lia |]. simpl.
    rewrite Hp in Hh. inversion Hh; subst.
    eexists _, _. repeat split; try reflexivity; intros; congruence.
  - destruct (Nat.eqb_spec r h); [congruence |]. simpl.
    rewrite Hp in Hrt. inversion Hrt; subst.
    eexists _, _. repeat split; try reflexivity; intros; congruence.
  - destruct (Z.eqb_spec (Z.of_nat r) (Z.of_nat rt)); [lia |].
    destruct (Nat.eqb_spec r h); [congruence |]. simpl.
    exists p, p_rt. repeat split; try reflexivity; intros; congruence.
Qed.

Lemma init_mappings_round_length (root : Z) w w' (h : nat) :
  init_mappings_round root w h = Ok w' -> length w' = length w.
Proof.
  intros E. unfold init_mappings_round in E.
  apply bind_Ok in E. destruct E as (ws1 & E1 & E).
  apply bind_Ok in E. destruct E as (ws3 & E3 & E).
  inversion E; subst w'; clear E.
  apply send_and_recv_Ok in E1. destruct E1 as (? & ? & _ & _ & _ & ->).
  apply send_and_recv_Ok in E3. destruct E3 as (? & ? & _ & _ & _ & ->).
  rewrite length_imap, length_alter, length_imap, length_alter, length_imap.
  reflexivity.
Qed.

(** Passes of other ranks leave the mapping of rank [r] alone. *)
Lemma init_mappings_rounds_lookup (root : Z) (l : list nat) w w' (r : nat)
    (p : @Process D Position) :
  foldM (init_mappings_round root) w l = Ok w' ->
  w !! r = Some p ->
  length w' = length w
  /\ exists p',
      w' !! r = Some p'
      /\ heat p' = heat p /\ neutronics p' = neutronics p
      /\ (r ∉ l ->
          cell_to_elems_ (this_ p') = cell_to_elems_ (this_ p)
          /\ cells_ (this_ p') = cells_ (this_ p)
          /\ (Z.of_nat r <> root -> this_ p' = this_ p)).
Proof.
  revert w p. induction l as [|h l IH]; intros w p E Hp; simpl in E.
  - inversion E; subst w'. split; [reflexivity |]. exists p.
    repeat split; auto.
  - apply bind_Ok in E. destruct E as (w1 & E1 & E).
    destruct (init_mappings_round_lookup _ _ _ _ _ _ E1 Hp)
      as (p1 & p_root & Hp1 & _ & Hheat & Hneut & _ & Hother).
    destruct (IH _ _ E Hp1) as (Hlen & p' & Hp' & Hheat' & Hneut' & Hrest).
    split; [rewrite Hlen; eapply init_mappings_round_length; eauto |].
    exists p'. split; [assumption |]. split; [congruence |].
    split; [congruence |].
    intros Hnotin. apply not_elem_of_cons in Hnotin.
    destruct Hnotin as [Hne Hnotin].
    destruct (Hother Hne) as (Hm1 & Hc1 & Ht1).
    destruct (Hrest Hnotin) as (Hm2 & Hc2 & Ht2).
    split; [congruence |]. split; [congruence |].
    intros Hroot. rewrite Ht2, Ht1 by assumption. reflexivity.
Qed.

End MappingRounds.

(** C7.  After [init_mappings], on a heat rank whose driver was freshly
    constructed: element [e] is listed in [cell_to_elems_[c]] exactly
    when [c] is the cell the neutronics root found for the centroid of
    [e], so every element is listed under one cell only; and [cells_]
    holds, once each, the cells that own an element of the rank.
    [elem_to_cell_] itself still holds what the root found for the rank,
    unless the rank is the neutronics root and another heat rank follows
    it: the pass of that rank overwrites it on line 505. *)
Theorem init_mappings_inverts {D Position : Type}
    (w w' : list (@Process D Position)) (r : nat) (p : @Process D Position) :
  init_mappings w = Ok w' ->
  w !! r = Some p ->
  in_heat p = true ->
  cell_to_elems_ (this_ p) = ∅ ->
  cells_ (this_ p) = [] ->
  exists p' p_root,
    w' !! r = Some p'
    /\ at_rank w (neutronics_root_ w) = Some p_root
    /\ let received := find (neutronics p_root) (centroid_local (heat p)) in
       (forall e c,
          (exists es, cell_to_elems_ (this_ p') !! c = Some es /\ e ∈ es)
          <-> received !! e = Some c)
       /\ (forall e c1 c2 es1 es2,
             cell_to_elems_ (this_ p') !! c1 = Some es1 -> e ∈ es1 ->
             cell_to_elems_ (this_ p') !! c2 = Some es2 -> e ∈ es2 ->
             c1 = c2)
       /\ NoDup (cells_ (this_ p'))
       /\ (forall c, c ∈ cells_ (this_ p')
                     <-> exists e, received !! e = Some c)
       /\ (Z.of_nat r <> neutronics_root_ w
           \/ last (heat_ranks_ w) = Some r ->
           elem_to_cell_ (this_ p') = received).
Proof.
  intros E Hp Hact Hm Hc. unfold init_mappings in E.
  set (root := neutronics_root_ w) in *.
  assert (Hin : r ∈ heat_ranks_ w)
    by (apply elem_of_gather_subcomm_ranks; eauto).
  pose proof (NoDup_gather_subcomm_ranks in_heat w) as Hnd.
  fold (heat_ranks_ w) in Hnd.
  apply list_elem_of_split in Hin. destruct Hin as (l1 & l2 & Hsplit).
  rewrite Hsplit in E, Hnd.
  apply NoDup_app in Hnd. destruct Hnd as (_ & Hl1 & Hnd).
  apply NoDup_cons in Hnd. destruct Hnd as [Hl2 _].
  assert (Hr1 : r ∉ l1) by (intros Hr; apply (Hl1 r Hr); left).
  rewrite foldM_app in E. apply bind_Ok in E. destruct E as (w1 & E1 & E).
  simpl in E. apply bind_Ok in E. destruct E as (w2 & E2 & E).
  destruct (init_mappings_rounds_lookup _ _ _ _ _ _ E1 Hp)
    as (Hlen1 & p1 & Hp1 & Hheat1 & _ & Hframe1).
  destruct (Hframe1 Hr1) as (Hm1 & Hc1 & _).
  destruct (init_mappings_round_lookup _ _ _ _ _ _ E2 Hp1)
    as (p2 & p_root1 & Hp2 & Hroot1 & _ & _ & Hself & _).
  specialize (Hself eq_refl).
  destruct (init_mappings_rounds_lookup _ _ _ _ _ _ E Hp2)
    as (_ & p' & Hp' & _ & _ & Hframe2).
  destruct (Hframe2 Hl2) as (Hm2 & Hc2 & Hsame).
  (* the root process holds the same solver as at the start *)
  assert (Hroot : exists p_root, at_rank w root = Some p_root
                                 /\ neutronics p_root1 = neutronics p_root).
  { unfold at_rank in *. destruct (root <? 0)%Z; [discriminate |].
    destruct (lookup_lt_is_Some_2 w (Z.to_nat root)) as [p_root Hpr].
    { rewrite <- Hlen1. eapply lookup_lt_Some; eauto. }
    exists p_root. split; [assumption |].
    destruct (init_mappings_rounds_lookup _ _ _ _ _ _ E1 Hpr)
      as (_ & q & Hq & _ & Hneut & _).
    congruence. }
  destruct Hroot as (p_root & Hpr & Hneut).
  set (start := set_elem_to_cell_
                  (find (neutronics p_root1) (centroid_local (heat p1)))
                  (this_ p1)) in *.
  destruct (invert_mapping_spec start) as (Hsame_e2c & Hspec & Hnodup & Hcells).
  { subst start. simpl. congruence. }
  { subst start. simpl. congruence. }
  rewrite <- Hself in Hsame_e2c, Hspec, Hnodup, Hcells.
  assert (Hreceived : elem_to_cell_ (this_ p2)
                      = find (neutronics p_root) (centroid_local (heat p))).
  { rewrite Hsame_e2c. subst start. simpl. congruence. }
  rewrite Hreceived in Hspec, Hcells.
  rewrite <- Hm2 in Hspec. rewrite <- Hc2 in Hnodup, Hcells.
  exists p', p_root. split; [assumption |]. split; [assumption |].
  cbv zeta.
  split; [exact Hspec |]. split; [| split; [exact Hnodup |
                                            split; [exact Hcells |]]].
  - intros e c1 c2 es1 es2 H1 He1 H2 He2.
    assert (G1 : find (neutronics p_root) (centroid_local (heat p)) !! e
                 = Some c1) by (apply Hspec; eauto).
    assert (G2 : find (neutronics p_root) (centroid_local (heat p)) !! e
                 = Some c2) by (apply Hspec; eauto).
    congruence.
  - (* the driver of rank r keeps what its own pass received *)
    intros Hlast. rewrite <- Hreceived.
    destruct Hlast as [Hne | Hl].
    + rewrite Hsame by assumption. reflexivity.
    + rewrite Hsplit in Hl. destruct l2 as [|x l2].
      * simpl in E. inversion E; subst w'. congruence.
      * exfalso. apply Hl2. rewrite last_app in Hl.
        change (last (r :: x :: l2)) with (last (x :: l2)) in Hl.
        destruct (last (x :: l2)) as [y|] eqn:Hy.
        -- inversion Hl; subst y. apply last_Some_elem_of. assumption.
        -- apply last_None in Hy. discriminate.
Qed.

Lemma init_mappings_inverts_witness :
  exists p' p_root,
    two_ranks_mapped !! 1%nat = Some p'
    /\ at_rank two_ranks (neutronics_root_ two_ranks) = Some p_root
    /\ let received :=
         find (neutronics p_root)
              (centroid_local
                 (heat_rank [300; 400]%float [2; 2]%float [2; 3])) in
       (forall e c,
          (exists es, cell_to_elems_ (this_ p') !! c = Some es /\ e ∈ es)
          <-> received !! e = Some c)
       /\ (forall e c1 c2 es1 es2,
             cell_to_elems_ (this_ p') !! c1 = Some es1 -> e ∈ es1 ->
             cell_to_elems_ (this_ p') !! c2 = Some es2 -> e ∈ es2 ->
             c1 = c2)
       /\ NoDup (cells_ (this_ p'))
       /\ (forall c, c ∈ cells_ (this_ p')
                     <-> exists e, received !! e = Some c)
       /\ elem_to_cell_ (this_ p') = received.
Proof.
  destruct (init_mappings_inverts two_ranks two_ranks_mapped 1
              {| this_ := blank (coupling64 1 0.5 1);
                 heat := heat_rank [300; 400]%float [2; 2]%float [2; 3];
                 neutronics := idle_neutronics |})
    as (p' & p_root & Hp' & Hroot & Hrest);
    [vm_compute; reflexivity | reflexivity | reflexivity | reflexivity
    | reflexivity |].
  cbv zeta in Hrest.
  destruct Hrest as (Hinv & Hone & Hnodup & Hcells & Hkept).
  exists p', p_root.
  split; [exact Hp' |]. split; [exact Hroot |]. cbv zeta.
  split; [exact Hinv |]. split; [exact Hone |].
  split; [exact Hnodup |]. split; [exact Hcells |].
  apply Hkept. left. intros Heq. vm_compute in Heq. discriminate Heq.
Defined.

(** C7, counterexample.  With the neutronics solver on the first of two
    heat ranks, rank 0 ends [init_mappings] with the cells the root found
    for the elements of rank 1 in [elem_to_cell_], and with its own two
    elements listed under cell A: element 0 is listed under A while
    [elem_to_cell_[0]] is B. *)
Lemma init_mappings_overwrites_root_map :
  init_mappings two_ranks = Ok two_ranks_mapped
  /\ (p ← at_ two_ranks_mapped 0; Ok (in_heat p, this_ p))
     = Ok (true, two_ranks_mapped_root)
  /\ elem_to_cell_ two_ranks_mapped_root = [cell_B; cell_B]
  /\ map_items (cell_to_elems_ two_ranks_mapped_root)
     = [(cell_A, [0; 1]%nat)]
  /\ ~ (forall e c,
          (exists es, cell_to_elems_ two_ranks_mapped_root !! c = Some es
                      /\ e ∈ es)
          <-> elem_to_cell_ two_ranks_mapped_root !! e = Some c).
Proof.
  split; [vm_compute; reflexivity |].
  split; [vm_compute; reflexivity |].
  split; [vm_compute; reflexivity |].
  split; [vm_compute; reflexivity |].
  intros Hinv.
  destruct (proj2 (Hinv 0%nat cell_B)) as (es & Hes & _);
    [vm_compute; reflexivity |].
  vm_compute in Hes. discriminate.
Qed.

(** * Further properties of the driver *)

(** ** What the local updates leave alone *)

Section LocalFrames.
Context {D Position : Type} `{DoubleOps D}.
Variable ROBBINS_MONRO : D.

Lemma average_densities_length (heat : HeatFluidsDriver D Position)
    (this : CoupledDriver D) (dens : list D) :
  average_densities heat this = Ok dens ->
  length dens = length (cell_densities_ this).
Proof. intros E. apply average_densities_frame in E. tauto. Qed.

(** X1.  Steps 1 and 2 of [update_density] assign to [cell_densities_] and
    to nothing else, and keep the length of that array. *)
Theorem update_density_local_frame (relax_flag : bool)
    (heat : HeatFluidsDriver D Position) (this this' : CoupledDriver D) :
  update_density_local ROBBINS_MONRO relax_flag heat this = Ok this' ->
  this' = set_cell_densities_ (cell_densities_ this') this
  /\ length (cell_densities_ this') = length (cell_densities_ this).
Proof.
  unfold update_density_local. intros E. rewrite std_copy_self in E.
  assert (Hid : set_cell_densities_ (cell_densities_ this) this = this)
    by (destruct this; reflexivity).
  destruct (heat_active heat).
  - rewrite andb_true_r in E.
    assert (E' : (dens ← average_densities heat this;
                  dens ← (if relax_flag
                          then relax ROBBINS_MONRO (alpha_rho_ (coupling this))
                                     (i_picard_ this) dens
                                     (cell_densities_prev_ this)
                          else Ok dens);
                  Ok (set_cell_densities_ dens this)) = Ok this').
    { destruct relax_flag; exact E. }
    clear E. apply bind_Ok in E'. destruct E' as (dens & Havg & E).
    apply bind_Ok in E. destruct E as (dens' & Hrel & E).
    inversion E; subst this'; clear E. split; [reflexivity |]. simpl.
    apply average_densities_length in Havg.
    destruct relax_flag.
    + apply relax_length in Hrel. lia.
    + inversion Hrel; subst. assumption.
  - rewrite andb_false_r in E. inversion E; subst this'.
    rewrite Hid. auto.
Qed.

(** X2.  A relaxed [update_temperature] on a heat-active process whose two
    temperature arrays have the same length stores the array that was
    current on entry as the previous iterate, assigns to the two
    temperature arrays only, and keeps their length. *)
Theorem update_temperature_local_saves_previous
    (heat : HeatFluidsDriver D Position) (this this' : CoupledDriver D) :
  heat_active heat = true ->
  length (cell_temperatures_ this) = length (cell_temperatures_prev_ this) ->
  update_temperature_local ROBBINS_MONRO true heat this = Ok this' ->
  cell_temperatures_prev_ this' = cell_temperatures_ this
  /\ this' = set_cell_temperatures_ (cell_temperatures_ this')
               (set_cell_temperatures_prev_ (cell_temperatures_ this) this)
  /\ length (cell_temperatures_ this') = length (cell_temperatures_ this).
Proof.
  intros Hact Hlen E. unfold update_temperature_local in E.
  rewrite Hact in E. cbn [andb] in E.
  rewrite std_copy_same_length in E by exact Hlen.
  cbn [mbind outcome_bind] in E.
  apply bind_Ok in E. destruct E as (temps & Havg & E).
  apply bind_Ok in E. destruct E as (relaxed & Hrelax & E).
  inversion E; subst this'; clear E.
  change (average_temperatures heat this = Ok temps) in Havg.
  apply average_temperatures_length in Havg.
  cbn [cell_temperatures_prev_ set_cell_temperatures_prev_] in Hrelax.
  unfold relax, xt_zip in Hrelax.
  rewrite decide_True in Hrelax by congruence.
  inversion Hrelax; subst relaxed; clear Hrelax.
  cbn [cell_temperatures_ cell_temperatures_prev_ set_cell_temperatures_
       set_cell_temperatures_prev_].
  split; [reflexivity |]. split; [reflexivity |].
  rewrite length_zip_with. lia.
Qed.

End LocalFrames.

Lemma update_density_local_frame_witness :
  let this' := set_cell_densities_
                 [0.75000000000000011; 3.0000000000000004]%float
                 mixed_cells in
  this' = set_cell_densities_ (cell_densities_ this') mixed_cells
  /\ length (cell_densities_ this') = length (cell_densities_ mixed_cells).
Proof.
  apply (update_density_local_frame sentinel64 true mixed_heat mixed_cells).
  vm_compute. reflexivity.
Defined.

Lemma update_temperature_local_saves_previous_witness :
  cell_temperatures_prev_ warm_cell_updated = cell_temperatures_ warm_cell
  /\ warm_cell_updated
     = set_cell_temperatures_ (cell_temperatures_ warm_cell_updated)
         (set_cell_temperatures_prev_ (cell_temperatures_ warm_cell) warm_cell)
  /\ length (cell_temperatures_ warm_cell_updated)
     = length (cell_temperatures_ warm_cell).
Proof.
  apply (update_temperature_local_saves_previous sentinel64 fluid_heat
           warm_cell warm_cell_updated).
  - reflexivity.
  - reflexivity.
  - vm_compute. reflexivity.
Defined.

(** ** The heat source application loop *)

Section HeatSourceCalls.
Context {D Position : Type} `{DoubleOps D}.

Lemma set_heat_source_of_cell_exact (heat : HeatFluidsDriver D Position)
    (this : CoupledDriver D) (i : nat) (elems : list nat)
    (calls calls' : list (nat * D)) :
  set_heat_source_of_cell heat this i calls elems = Ok calls' ->
  calls' = calls ++ match cell_heat_ this !! i with
                    | Some q => map (fun e => (e, q)) elems
                    | None => []
                    end
  /\ (elems <> [] -> is_Some (cell_heat_ this !! i)).
Proof.
  unfold set_heat_source_of_cell. revert calls.
  induction elems as [|e elems IH]; intros calls E; simpl in E.
  - inversion E; subst. split; [| congruence].
    destruct (cell_heat_ this !! i); simpl; rewrite app_nil_r; reflexivity.
  - apply bind_Ok in E. destruct E as (calls1 & E1 & E).
    apply bind_Ok in E1. destruct E1 as (q & Hq & E1).
    apply bind_Ok in E1. destruct E1 as (_ & _ & E1).
    inversion E1; subst calls1; clear E1. apply at_Ok in Hq.
    destruct (IH _ E) as [-> _]. rewrite Hq. split; [| eauto].
    simpl. rewrite <- app_assoc. reflexivity.
Qed.

Lemma set_heat_source_exact (heat : HeatFluidsDriver D Position)
    (this : CoupledDriver D) (range : list nat) (calls : list (nat * D)) :
  set_heat_source heat this range = Ok calls ->
  calls = heat_source_calls this range.
Proof.
  unfold set_heat_source.
  assert (G : forall calls0,
             foldM (fun calls i =>
                      c ← at_ (cells_ this) i;
                      elems ← map_at (cell_to_elems_ this) c;
                      set_heat_source_of_cell heat this i calls elems)
                   calls0 range = Ok calls ->
             calls = calls0 ++ heat_source_calls this range).
  { induction range as [|i range IH]; intros calls0 E; simpl in E.
    - inversion E; subst. simpl. rewrite app_nil_r. reflexivity.
    - apply bind_Ok in E. destruct E as (calls1 & E1 & E).
      apply bind_Ok in E1. destruct E1 as (c & Hc & E1).
      apply bind_Ok in E1. destruct E1 as (elems & Hm & E1).
      apply at_Ok in Hc. apply map_at_Ok in Hm.
      apply set_heat_source_of_cell_exact in E1. destruct E1 as [-> Hsome].
      rewrite (IH _ E). unfold heat_source_calls at 2. simpl.
      rewrite Hc, Hm. simpl. rewrite <- app_assoc. reflexivity. }
  intros E. apply G in E. exact E.
Qed.

(** X3.  The calls [update_heat_source] makes on a heat-active process are,
    in order from the start value of the loop variable, one per element of
    each cell with the cell's entry of [cell_heat_]; a start value that is
    negative or not below [cells_.size()] gives no call at all. *)
Theorem update_heat_source_calls (ROBBINS_MONRO : D) (relax_flag : bool)
    (i_start : Z) (heat : HeatFluidsDriver D Position)
    (this this' : CoupledDriver D) (calls : list (nat * D)) :
  heat_active heat = true ->
  update_heat_source ROBBINS_MONRO relax_flag i_start heat this
    = Ok (this', calls) ->
  calls = heat_source_calls this'
            (indices_from i_start (length (cells_ this')))
  /\ (i_start < 0 \/ Z.of_nat (length (cells_ this')) <= i_start ->
      calls = []).
Proof.
  intros Hact E. unfold update_heat_source in E. rewrite Hact in E.
  apply bind_Ok in E. destruct E as (this1 & _ & E).
  apply bind_Ok in E. destruct E as (this2 & _ & E).
  apply bind_Ok in E. destruct E as (calls' & E3 & E).
  inversion E; subst this' calls'; clear E.
  apply set_heat_source_exact in E3. split; [exact E3 |].
  intros Hout. rewrite E3. unfold indices_from.
  destruct (Z.ltb_spec i_start 0); [reflexivity |].
  destruct Hout as [Hneg | Hbig]; [lia |].
  replace (length (cells_ this2) - Z.to_nat i_start)%nat with 0%nat by lia.
  reflexivity.
Qed.

(** [update_heat_source] assigns to the two heat arrays only. *)
Lemma update_heat_source_frame (ROBBINS_MONRO : D) (relax_flag : bool)
    (i_start : Z) (heat : HeatFluidsDriver D Position)
    (this this' : CoupledDriver D) (calls : list (nat * D)) :
  update_heat_source ROBBINS_MONRO relax_flag i_start heat this
    = Ok (this', calls) ->
  cells_ this' = cells_ this
  /\ cell_to_elems_ this' = cell_to_elems_ this
  /\ calls = if heat_active heat
             then heat_source_calls this'
                    (indices_from i_start (length (cells_ this')))
             else [].
Proof.
  intros E. unfold update_heat_source in E.
  apply bind_Ok in E. destruct E as (this1 & E1 & E).
  apply bind_Ok in E. destruct E as (this2 & E2 & E).
  apply bind_Ok in E. destruct E as (calls' & E3 & E).
  inversion E; subst this' calls'; clear E.
  assert (H1 : cells_ this1 = cells_ this
               /\ cell_to_elems_ this1 = cell_to_elems_ this).
  { destruct (relax_flag && heat_active heat).
    - apply bind_Ok in E1. destruct E1 as (prev & _ & E1).
      inversion E1; subst this1. split; reflexivity.
    - inversion E1; subst this1. split; reflexivity. }
  assert (H2 : cells_ this2 = cells_ this1
               /\ cell_to_elems_ this2 = cell_to_elems_ this1).
  { destruct (relax_flag && heat_active heat).
    - apply bind_Ok in E2. destruct E2 as (q & _ & E2).
      inversion E2; subst this2. split; reflexivity.
    - inversion E2; subst this2. split; reflexivity. }
  destruct H1 as [H1c H1m], H2 as [H2c H2m].
  split; [congruence |]. split; [congruence |].
  destruct (heat_active heat).
  - apply set_heat_source_exact in E3. exact E3.
  - inversion E3. reflexivity.
Qed.

End HeatSourceCalls.

Lemma update_heat_source_calls_witness :
  [(1%nat, 7%float)]
  = heat_source_calls two_cells (indices_from 1 (length (cells_ two_cells)))
  /\ (1 < 0 \/ Z.of_nat (length (cells_ two_cells)) <= 1 ->
      [(1%nat, 7%float)] = []).
Proof.
  apply (update_heat_source_calls sentinel64 false 1 fluid_heat
           two_cells two_cells).
  - reflexivity.
  - vm_compute. reflexivity.
Defined.


Section HeatSourceInPlace.
Context {D Position : Type} `{DoubleOps D}.
Variable ROBBINS_MONRO : D.

(** X4.  [update_heat_source] brings no heat source into [cell_heat_]: a
    relaxed call on a heat-active process whose two heat arrays have the
    same length copies [cell_heat_] to [cell_heat_prev_] and replaces
    every entry [x] by the blend of [x] with that copy of itself,
    evaluated in the arithmetic of [double]; any other call assigns no
    member.  The calls made hand the entries of the resulting array to
    the heat solver. *)
Theorem update_heat_source_relaxes_in_place (relax_flag : bool)
    (i_start : Z) (heat : HeatFluidsDriver D Position)
    (this this' : CoupledDriver D) (calls : list (nat * D)) :
  update_heat_source ROBBINS_MONRO relax_flag i_start heat this
    = Ok (this', calls) ->
  length (cell_heat_ this) = length (cell_heat_prev_ this) ->
  (if relax_flag && heat_active heat
   then cell_heat_ this'
        = map (fun x => relax_at ROBBINS_MONRO (alpha_ (coupling this))
                                 (i_picard_ this) x x)
              (cell_heat_ this)
        /\ cell_heat_prev_ this' = cell_heat_ this
        /\ this' = set_cell_heat_ (cell_heat_ this')
                     (set_cell_heat_prev_ (cell_heat_ this) this)
   else this' = this)
  /\ calls = if heat_active heat
             then heat_source_calls this'
                    (indices_from i_start (length (cells_ this')))
             else [].
Proof.
  intros E Hlen.
  destruct (update_heat_source_frame ROBBINS_MONRO relax_flag i_start heat
              this this' calls E) as (_ & _ & Hcalls).
  split; [| exact Hcalls]. clear Hcalls.
  unfold update_heat_source in E.
  destruct (relax_flag && heat_active heat) eqn:Hrelax.
  - rewrite std_copy_same_length in E by exact Hlen.
    cbn [mbind outcome_bind] in E.
    apply bind_Ok in E. destruct E as (this2 & E2 & E).
    apply bind_Ok in E. destruct E as (calls' & _ & E).
    inversion E; subst this' calls'; clear E.
    apply bind_Ok in E2. destruct E2 as (q & Hq & E2).
    inversion E2; subst this2; clear E2.
    cbn [cell_heat_ cell_heat_prev_ set_cell_heat_ set_cell_heat_prev_
         coupling i_picard_] in *.
    unfold relax, xt_zip in Hq. rewrite decide_True in Hq by reflexivity.
    inversion Hq; subst q; clear Hq.
    split; [| split; reflexivity].
    apply list_eq. intros i.
    rewrite lookup_zip_with, list_lookup_fmap.
    destruct (cell_heat_ this !! i); reflexivity.
  - cbn [mbind outcome_bind] in E.
    apply bind_Ok in E. destruct E as (calls' & _ & E).
    inversion E; subst. reflexivity.
Qed.

End HeatSourceInPlace.

Lemma update_heat_source_relaxes_in_place_witness :
  (if true && heat_active fluid_heat
   then cell_heat_ two_cells_relaxed.1
        = map (fun x => relax_at sentinel64 (alpha_ (coupling two_cells))
                                 (i_picard_ two_cells) x x)
              (cell_heat_ two_cells)
        /\ cell_heat_prev_ two_cells_relaxed.1 = cell_heat_ two_cells
        /\ two_cells_relaxed.1
           = set_cell_heat_ (cell_heat_ two_cells_relaxed.1)
               (set_cell_heat_prev_ (cell_heat_ two_cells) two_cells)
   else two_cells_relaxed.1 = two_cells)
  /\ two_cells_relaxed.2
     = if heat_active fluid_heat
       then heat_source_calls two_cells_relaxed.1
              (indices_from 0 (length (cells_ two_cells_relaxed.1)))
       else [].
Proof.
  apply (update_heat_source_relaxes_in_place sentinel64 true 0 fluid_heat
           two_cells two_cells_relaxed.1 two_cells_relaxed.2).
  - vm_compute. reflexivity.
  - reflexivity.
Defined.

(** ** The order of the mapping *)

Lemma key_le_total {A} : Total (@key_le A).
Proof. intros x y. unfold key_le. lia. Qed.

Lemma key_le_transitive {A} : Transitive (@key_le A).
Proof. intros x y z. unfold key_le. lia. Qed.

(** The keys of a [std::map] come in strictly ascending order. *)
Lemma map_items_ascending {A} (m : gmap Z A) :
  StronglySorted Z.lt (map_items m).*1.
Proof.
  destruct (map_items_keys m) as [Hnd _].
  assert (Hle : StronglySorted Z.le (map_items m).*1).
  { apply (StronglySorted_fmap fst key_le Z.le).
    - intros x y Hxy. exact Hxy.
    - unfold map_items.
      apply (@StronglySorted_merge_sort _ key_le _
               key_le_transitive key_le_total). }
  induction Hle as [|k ks Hks IH Hall]; [constructor |].
  apply NoDup_cons in Hnd. destruct Hnd as [Hk Hnd].
  constructor; [apply IH; assumption |].
  rewrite Forall_forall in *. intros y Hy.
  assert (k <> y) by (intros ->; contradiction).
  specialize (Hall y Hy). lia.
Qed.

(** Every element list the inversion loop builds is strictly ascending
    and holds element numbers below the loop counter. *)
Lemma invert_from_ascending (l : list Z) (e0 : nat) (m : gmap Z (list nat)) :
  (forall c es, m !! c = Some es ->
                StronglySorted lt es /\ Forall (fun e => e < e0)%nat es) ->
  forall c es, invert_from e0 l m !! c = Some es ->
               StronglySorted lt es
               /\ Forall (fun e => e < e0 + length l)%nat es.
Proof.
  revert e0 m. induction l as [|c0 l IH]; intros e0 m Hm c es Hes;
    simpl in Hes.
  - rewrite Nat.add_0_r. exact (Hm c es Hes).
  - replace (e0 + length (c0 :: l))%nat with (S e0 + length l)%nat
      by (simpl; lia).
    apply (IH (S e0) (push_back_elem m c0 e0)) with (c := c); [| exact Hes].
    clear c es Hes. intros c es. rewrite push_back_elem_lookup.
    destruct (decide (c0 = c)) as [-> | Hne].
    + intros E. inversion E; subst es; clear E.
      assert (Hold : StronglySorted lt (default [] (m !! c))
                     /\ Forall (fun e => e < e0)%nat (default [] (m !! c))).
      { destruct (m !! c) as [es|] eqn:Hc; simpl.
        - apply (Hm c). assumption.
        - split; constructor. }
      destruct Hold as [Hs Hb]. split.
      * apply StronglySorted_app. split; [| split].
        -- intros x1 x2 H1 H2. apply list_elem_of_singleton in H2. subst x2.
           rewrite Forall_forall in Hb. apply Hb. assumption.
        -- assumption.
        -- repeat constructor.
      * apply Forall_app. split.
        -- eapply Forall_impl; [exact Hb |]. simpl. intros; lia.
        -- repeat constructor.
    + intros Hc. destruct (Hm c es Hc) as [Hs Hb]. split; [assumption |].
      eapply Forall_impl; [exact Hb |]. simpl. intros; lia.
Qed.

Section MappingOrder.
Context {D : Type}.

(** After the block of [init_mappings], every cell of [cells_] has an
    entry in [cell_to_elems_], and the entry is a non-empty ascending list
    of elements of the rank. *)
Lemma invert_mapping_covers (this : CoupledDriver D) :
  cell_to_elems_ this = ∅ ->
  cells_ this = [] ->
  forall c, c ∈ cells_ (invert_mapping this) ->
    exists e es,
      cell_to_elems_ (invert_mapping this) !! c = Some (e :: es)
      /\ StronglySorted lt (e :: es)
      /\ Forall (fun e' => e' < length (elem_to_cell_ this))%nat (e :: es).
Proof.
  intros Hm Hc c. unfold invert_mapping. simpl.
  rewrite Hm, Hc. simpl. intros Hin.
  destruct (map_items_keys (invert_from 0 (elem_to_cell_ this) ∅))
    as [_ Hkeys].
  apply Hkeys in Hin. destruct Hin as [es Hes].
  assert (Hne : es <> []).
  { eapply (invert_from_nonempty (elem_to_cell_ this) 0 ∅); [| exact Hes].
    intros c' es'. rewrite lookup_empty. discriminate. }
  destruct (invert_from_ascending (elem_to_cell_ this) 0 ∅) with (c := c)
    (es := es) as [Hs Hb]; [| exact Hes |].
  { intros c' es'. rewrite lookup_empty. discriminate. }
  destruct es as [|e es]; [contradiction |].
  exists e, es. split; [assumption |]. split; assumption.
Qed.

(** X5.  On a freshly constructed driver the block of [init_mappings] leaves
    [cells_] strictly ascending, and under every cell a strictly ascending,
    non-empty list of element numbers, all of them elements of the rank. *)
Theorem invert_mapping_ascending (this : CoupledDriver D) :
  cell_to_elems_ this = ∅ ->
  cells_ this = [] ->
  let d := invert_mapping this in
  StronglySorted Z.lt (cells_ d)
  /\ forall c, c ∈ cells_ d ->
       exists e es,
         cell_to_elems_ d !! c = Some (e :: es)
         /\ StronglySorted lt (e :: es)
         /\ Forall (fun e' => e' < length (elem_to_cell_ d))%nat (e :: es).
Proof.
  intros Hm Hc d. split.
  - subst d. unfold invert_mapping. simpl. rewrite Hc. simpl.
    apply map_items_ascending.
  - intros c Hin. apply (invert_mapping_covers this Hm Hc c Hin).
Qed.

End MappingOrder.

Lemma invert_mapping_ascending_witness :
  let d := invert_mapping
             (set_elem_to_cell_ [20; 10; 20] (blank (coupling64 1 1 1))) in
  StronglySorted Z.lt (cells_ d)
  /\ forall c, c ∈ cells_ d ->
       exists e es,
         cell_to_elems_ d !! c = Some (e :: es)
         /\ StronglySorted lt (e :: es)
         /\ Forall (fun e' => e' < length (elem_to_cell_ d))%nat (e :: es).
Proof.
  apply (invert_mapping_ascending
           (set_elem_to_cell_ [20; 10; 20] (blank (coupling64 1 1 1))));
    reflexivity.
Defined.

Example invert_mapping_order_example :
  let d := invert_mapping
             (set_elem_to_cell_ [20; 10; 20] (blank (coupling64 1 1 1))) in
  cells_ d = [10; 20]
  /\ cell_to_elems_ d !! 20 = Some [0; 2]%nat
  /\ cell_to_elems_ d !! 10 = Some [1%nat].
Proof. repeat split; vm_compute; reflexivity. Qed.

(** ** Initialisation after the mapping *)

(** A loop whose body succeeds whenever the invariant holds runs to its
    end; the invariant may mention the part of the range already done. *)
Lemma foldM_runs {A S} (P : list A -> S -> Prop) (body : S -> A -> outcome S)
    (l : list A) (s : S) :
  (forall done a s, a ∈ l -> P done s ->
                    exists s', body s a = Ok s' /\ P (done ++ [a]) s') ->
  P [] s ->
  exists s', foldM body s l = Ok s' /\ P l s'.
Proof.
  intros Hstep.
  assert (G : forall rest done s,
             (forall a, a ∈ rest -> a ∈ l) -> P done s ->
             exists s', foldM body s rest = Ok s' /\ P (done ++ rest) s').
  { induction rest as [|a rest IH]; intros done s0 Hsub Hs; simpl.
    - exists s0. rewrite app_nil_r. auto.
    - destruct (Hstep done a s0) as (s1 & E1 & H1);
        [apply Hsub; left | assumption |].
      rewrite E1. simpl.
      destruct (IH (done ++ [a]) s1) as (s' & E & H');
        [intros x Hx; apply Hsub; right; assumption | assumption |].
      exists s'. split; [assumption |].
      rewrite <- app_assoc in H'. exact H'. }
  intros Hs. apply (G l [] s); auto.
Qed.

Section InitAfterMapping.
Context {D Position : Type} `{DoubleOps D}.

(** The volume the loop of [init_volumes] accumulates for a list of
    elements. *)
Lemma volume_loop_runs (volumes : list D) (elems : list nat) (V0 : D) :
  Forall (fun e => e < length volumes)%nat elems ->
  foldM (fun V e => v ← at_ volumes e; Ok (V + v)%D) V0 elems
  = Ok (foldl (fun V e => (V + default d0 (volumes !! e))%D) V0 elems).
Proof.
  revert V0. induction elems as [|e elems IH]; intros V0 Hall; simpl;
    [reflexivity |].
  apply Forall_cons in Hall. destruct Hall as [He Hall].
  destruct (lookup_lt_is_Some_2 volumes e He) as [v Hv].
  unfold at_. rewrite Hv. simpl. apply IH. assumption.
Qed.

(** The block of lines 579-588 on a heat-active process whose
    [cell_volumes_] is still empty: when every cell of [cells_] has an
    entry in [cell_to_elems_] and the solver reports a volume for each of
    its elements, no [at] fails; the block stores the solver's element
    volumes and appends, for every cell in order, the sum of the volumes
    of its elements. *)
Lemma init_volumes_block_runs (heat : HeatFluidsDriver D Position)
    (this : CoupledDriver D) :
  heat_active heat = true ->
  cell_volumes_ this = [] ->
  Forall (fun c =>
            exists elems,
              cell_to_elems_ this !! c = Some elems
              /\ Forall (fun e => (e < length (volume_local heat))%nat) elems)
         (cells_ this) ->
  exists this',
    init_volumes heat this = Ok this'
    /\ this' = set_cell_volumes_ (cell_volumes_ this')
                 (set_elem_volumes_ (volume_local heat) this)
    /\ length (cell_volumes_ this') = length (cells_ this)
    /\ forall i c elems,
         cells_ this !! i = Some c ->
         cell_to_elems_ this !! c = Some elems ->
         cell_volumes_ this' !! i
         = Some (foldl (fun V e =>
                          (V + default d0 (volume_local heat !! e))%D)
                       d0 elems).
Proof.
  intros Hact Hvols0 Hcover. unfold init_volumes. rewrite Hact.
  rewrite Forall_forall in Hcover.
  set (volume_of := fun c : Z =>
         foldl (fun V e => (V + default d0 (volume_local heat !! e))%D) d0
               (default [] (cell_to_elems_ this !! c))).
  destruct (foldM_runs
              (fun done vols => vols = map volume_of done)
              (fun vols c =>
                 elems ← map_at (cell_to_elems_
                                   (set_elem_volumes_ (volume_local heat)
                                                      this)) c;
                 V ← foldM (fun V e =>
                              v ← at_ (elem_volumes_
                                         (set_elem_volumes_
                                            (volume_local heat) this)) e;
                              Ok (V + v)%D) d0 elems;
                 Ok (vols ++ [V]))
              (cells_ this) (cell_volumes_ this)) as (vols & E & Hvols).
  - intros done c vols Hin ->.
    destruct (Hcover c Hin) as (elems & Hes & Hb).
    cbn [cell_to_elems_ elem_volumes_ set_elem_volumes_].
    unfold map_at. rewrite Hes. cbn [mbind outcome_bind].
    rewrite volume_loop_runs by exact Hb.
    cbn [mbind outcome_bind]. eexists. split; [reflexivity |].
    rewrite map_app. simpl. unfold volume_of. rewrite Hes. reflexivity.
  - assumption.
  - simpl in E |- *. rewrite E. simpl.
    eexists. split; [reflexivity |]. simpl.
    split; [reflexivity |]. split.
    + rewrite Hvols, length_map. reflexivity.
    + intros i c elems Hi Helems. rewrite Hvols, list_lookup_fmap, Hi.
      simpl. unfold volume_of. rewrite Helems. reflexivity.
Qed.

(** X7.  After the block of [init_mappings] on a fresh driver,
    [init_cell_fluid_mask] runs to its end whenever the solver reports a
    flag for every element: the [[0]] of line 667 always finds an element.
    Every cell receives the flag of its first, that is lowest-numbered,
    element, and the mask is as long as [cells_]. *)
Theorem init_cell_fluid_mask_after_mapping
    (heat : HeatFluidsDriver D Position) (this : CoupledDriver D) :
  heat_active heat = true ->
  cell_to_elems_ this = ∅ -> cells_ this = [] ->
  (length (elem_to_cell_ this) <= length (fluid_mask_local heat))%nat ->
  exists this',
    init_cell_fluid_mask heat (invert_mapping this) = Ok this'
    /\ this' = set_cell_fluid_mask_ (cell_fluid_mask_ this')
                 (invert_mapping this)
    /\ length (cell_fluid_mask_ this') = length (cells_ this')
    /\ forall i c,
         cells_ this' !! i = Some c ->
         exists e es f,
           cell_to_elems_ this' !! c = Some (e :: es)
           /\ Forall (fun e' => e <= e')%nat es
           /\ fluid_mask_local heat !! e = Some f
           /\ cell_fluid_mask_ this' !! i = Some f.
Proof.
  intros Hact Hm Hc Hlen. unfold init_cell_fluid_mask. rewrite Hact.
  pose proof (invert_mapping_covers this Hm Hc) as Hcover.
  remember (invert_mapping this) as d eqn:Hd. clear Hd.
  remember (length (cells_ d)) as n eqn:Hn.
  set (flag_ok := fun (mask : list Z) (i : nat) =>
         forall c, cells_ d !! i = Some c ->
           exists e es f,
             cell_to_elems_ d !! c = Some (e :: es)
             /\ Forall (fun e' => e <= e')%nat es
             /\ fluid_mask_local heat !! e = Some f
             /\ mask !! i = Some f).
  destruct (foldM_runs
              (fun done mask => length mask = n
                                /\ forall i, i ∈ done -> flag_ok mask i)
              (fun mask i =>
                 c ← at_ (cells_ d) i;
                 elems ← map_at (cell_to_elems_ d) c;
                 e ← at_ elems 0;
                 f ← at_ (fluid_mask_local heat) e;
                 set_at mask i f)
              (indices n) (resize n 0 (cell_fluid_mask_ d)))
    as (mask & E & Hlenm & Hmask).
  - intros done j mask Hin [Hlm Hdone].
    apply elem_of_seq in Hin. simpl in Hin.
    destruct (lookup_lt_is_Some_2 (cells_ d) j) as [c Hcj]; [lia |].
    assert (Hcin : c ∈ cells_ d) by (eapply list_elem_of_lookup_2; eauto).
    destruct (Hcover c Hcin) as (e & es & Hes & Hs & Hb).
    apply Forall_cons in Hb. destruct Hb as [He _].
    destruct (lookup_lt_is_Some_2 (fluid_mask_local heat) e) as [f Hf];
      [lia |].
    unfold at_, map_at. rewrite Hcj. simpl. rewrite Hes. simpl.
    rewrite Hf. simpl. unfold set_at. rewrite decide_True by lia.
    eexists. split; [reflexivity |]. split; [rewrite length_insert; lia |].
    assert (Hfirst : Forall (fun e' => e <= e')%nat es).
    { apply StronglySorted_cons in Hs. destruct Hs as [Hall _].
      eapply Forall_impl; [exact Hall |]. simpl. intros; lia. }
    intros i Hi c' Hc'. destruct (decide (i = j)) as [-> | Hne].
    + rewrite Hcj in Hc'. inversion Hc'; subst c'.
      exists e, es, f. rewrite list_lookup_insert_eq by lia. auto.
    + apply elem_of_app in Hi. destruct Hi as [Hi | Hi];
        [| apply list_elem_of_singleton in Hi; contradiction].
      destruct (Hdone i Hi c' Hc') as (e' & es' & f' & H1 & H2 & H3 & H4).
      exists e', es', f'. rewrite list_lookup_insert_ne by congruence. auto.
  - split; [apply length_resize |]. intros i Hi. inversion Hi.
  - simpl in E |- *. rewrite E. simpl.
    eexists. split; [reflexivity |]. simpl.
    split; [reflexivity |]. split; [lia |].
    intros i c Hi. apply (Hmask i); [| assumption].
    apply elem_of_seq. simpl. split; [lia |].
    rewrite Hn. eapply lookup_lt_Some; eauto.
Qed.

End InitAfterMapping.

Lemma init_cell_fluid_mask_after_mapping_witness :
  exists this',
    init_cell_fluid_mask mixed_heat (invert_mapping two_elements_mapped)
      = Ok this'
    /\ this' = set_cell_fluid_mask_ (cell_fluid_mask_ this')
                 (invert_mapping two_elements_mapped)
    /\ length (cell_fluid_mask_ this') = length (cells_ this')
    /\ forall i c,
         cells_ this' !! i = Some c ->
         exists e es f,
           cell_to_elems_ this' !! c = Some (e :: es)
           /\ Forall (fun e' => e <= e')%nat es
           /\ fluid_mask_local mixed_heat !! e = Some f
           /\ cell_fluid_mask_ this' !! i = Some f.
Proof.
  apply (init_cell_fluid_mask_after_mapping mixed_heat two_elements_mapped);
    [reflexivity | reflexivity | reflexivity | simpl; lia].
Defined.

(** ** [init_volumes] on all processes *)

Section VolumeCheckFrame.
Context {D Position : Type} `{DoubleOps D}.

(** One pass of the volume check assigns, on the neutronics root, to
    [cells_] and [cell_volumes_]; it leaves every other process as it
    is. *)
Lemma volume_check_round_frame (root : Z) (heat_rank : nat)
    (ws ws' : list (@Process D Position * gmap Z D)) (rank : nat)
    (s : @Process D Position * gmap Z D) :
  volume_check_round root ws heat_rank = Ok ws' ->
  ws !! rank = Some s ->
  exists s',
    ws' !! rank = Some s'
    /\ heat s'.1 = heat s.1 /\ neutronics s'.1 = neutronics s.1
    /\ this_ s'.1 = set_cell_volumes_ (cell_volumes_ (this_ s'.1))
                      (set_cells_ (cells_ (this_ s'.1)) (this_ s.1))
    /\ (Z.of_nat rank <> root -> s'.1 = s.1).
Proof.
  intros E Hs. unfold volume_check_round in E.
  apply bind_Ok in E. destruct E as (ws1 & E1 & E).
  apply bind_Ok in E. destruct E as (ws2 & E2 & E).
  apply send_and_recv_Ok in E1.
  destruct E1 as (src1 & dst1 & _ & _ & Hroot & ->).
  apply send_and_recv_Ok in E2.
  destruct E2 as (src2 & dst2 & _ & _ & _ & ->).
  apply on_each_lookup in E. destruct E as [_ Hl].
  set (ws2 := alter _ (Z.to_nat root) (alter _ (Z.to_nat root) ws)) in *.
  assert (Hs2 : exists s2,
             ws2 !! rank = Some s2
             /\ heat s2.1 = heat s.1 /\ neutronics s2.1 = neutronics s.1
             /\ s2.2 = s.2
             /\ this_ s2.1 = set_cell_volumes_ (cell_volumes_ (this_ s2.1))
                               (set_cells_ (cells_ (this_ s2.1))
                                           (this_ s.1))
             /\ (Z.of_nat rank <> root -> s2 = s)).
  { subst ws2. destruct (decide (Z.to_nat root = rank)) as [<- | Hne].
    - rewrite !list_lookup_alter_eq, Hs. simpl.
      eexists. split; [reflexivity |]. simpl.
      repeat split; try reflexivity. intros Hr. lia.
    - rewrite !list_lookup_alter_ne by exact Hne.
      exists s. split; [exact Hs |].
      repeat split; try reflexivity.
      destruct s as [[d ? ?] ?]. destruct d. reflexivity. }
  destruct Hs2 as (s2 & Hs2 & Hh & Hn & Hmap & Hthis & Hsame).
  destruct (Hl rank (rank, s2)) as (t & Ht & Hrank).
  { rewrite list_lookup_imap, Hs2. reflexivity. }
  exists t. split; [exact Hrank |]. cbn [fst snd] in Ht.
  destruct (Z.eqb_spec (Z.of_nat rank) root) as [Heq | Hne].
  - apply bind_Ok in Ht. destruct Ht as (m & _ & Ht).
    inversion Ht; subst t. cbn [fst].
    repeat split; try assumption. intros Hr. contradiction.
  - inversion Ht; subst t.
    repeat split; try assumption.
    intros _. rewrite (Hsame Hne). reflexivity.
Qed.

Lemma volume_check_rounds_frame (root : Z) (ranks : list nat)
    (ws ws' : list (@Process D Position * gmap Z D)) (rank : nat)
    (s : @Process D Position * gmap Z D) :
  foldM (volume_check_round root) ws ranks = Ok ws' ->
  ws !! rank = Some s ->
  exists s',
    ws' !! rank = Some s'
    /\ heat s'.1 = heat s.1 /\ neutronics s'.1 = neutronics s.1
    /\ this_ s'.1 = set_cell_volumes_ (cell_volumes_ (this_ s'.1))
                      (set_cells_ (cells_ (this_ s'.1)) (this_ s.1))
    /\ (Z.of_nat rank <> root -> s'.1 = s.1).
Proof.
  revert ws s. induction ranks as [|h ranks IH]; intros ws s E Hs.
  - inversion E; subst ws'. exists s. split; [exact Hs |].
    repeat split; try reflexivity.
    destruct s as [[d ? ?] ?]. destruct d. reflexivity.
  - cbn [foldM] in E. apply bind_Ok in E. destruct E as (ws1 & E1 & E).
    destruct (volume_check_round_frame root h ws ws1 rank s E1 Hs)
      as (s1 & Hs1 & Hh1 & Hn1 & Ht1 & Hsame1).
    destruct (IH ws1 s1 E Hs1) as (s' & Hs' & Hh & Hn & Ht & Hsame).
    exists s'. split; [exact Hs' |].
    split; [congruence |]. split; [congruence |]. split.
    + rewrite Ht. rewrite Ht1. reflexivity.
    + intros Hr. rewrite (Hsame Hr). apply Hsame1. exact Hr.
Qed.

(** X6.  On a heat-active process whose [cell_volumes_] is empty, whose
    cells all have an entry in [cell_to_elems_] and whose solver reports
    a volume for every element listed, the block of lines 579-588 of
    [init_volumes] throws nothing: it stores the solver's element volumes
    and appends for every cell, in order, the sum of the volumes of its
    elements.  When the method returns on all processes, the process
    holds that result, except that in a build without [NDEBUG] the
    neutronics root holds in [cells_] and [cell_volumes_] what the volume
    check received last. *)
Theorem init_volumes_sums_and_check (NDEBUG : bool)
    (w : list (@Process D Position)) (rank : nat)
    (p : @Process D Position) :
  w !! rank = Some p ->
  in_heat p = true ->
  cell_volumes_ (this_ p) = [] ->
  Forall (fun c =>
            exists elems,
              cell_to_elems_ (this_ p) !! c = Some elems
              /\ Forall (fun e => (e < length (volume_local (heat p)))%nat)
                        elems)
         (cells_ (this_ p)) ->
  exists d,
    init_volumes (heat p) (this_ p) = Ok d
    /\ d = set_cell_volumes_ (cell_volumes_ d)
             (set_elem_volumes_ (volume_local (heat p)) (this_ p))
    /\ length (cell_volumes_ d) = length (cells_ (this_ p))
    /\ (forall i c elems,
          cells_ (this_ p) !! i = Some c ->
          cell_to_elems_ (this_ p) !! c = Some elems ->
          cell_volumes_ d !! i
          = Some (foldl (fun V e =>
                           (V + default d0 (volume_local (heat p) !! e))%D)
                        d0 elems))
    /\ forall w' reports,
         init_volumes_collective NDEBUG w = Ok (w', reports) ->
         exists p',
           w' !! rank = Some p'
           /\ heat p' = heat p /\ neutronics p' = neutronics p
           /\ this_ p' = set_cell_volumes_ (cell_volumes_ (this_ p'))
                           (set_cells_ (cells_ (this_ p')) d)
           /\ (NDEBUG = true \/ Z.of_nat rank <> neutronics_root_ w ->
               this_ p' = d).
Proof.
  intros Hp Hact Hvols Hcover.
  destruct (init_volumes_block_runs (heat p) (this_ p) Hact Hvols Hcover)
    as (d & Ed & Hd & Hlen & Hsum).
  exists d. split; [exact Ed |]. split; [exact Hd |].
  split; [exact Hlen |]. split; [exact Hsum |].
  intros w' reports E. unfold init_volumes_collective in E.
  apply bind_Ok in E. destruct E as (w1 & Hlocal & E).
  apply on_each_lookup in Hlocal. destruct Hlocal as [_ Hl].
  destruct (Hl rank p Hp) as (t & Ht & Hrank).
  rewrite Ed in Ht. inversion Ht; subst t; clear Ht.
  assert (Heta : d = set_cell_volumes_ (cell_volumes_ d)
                       (set_cells_ (cells_ d) d))
    by (destruct d; reflexivity).
  destruct NDEBUG.
  - inversion E; subst w' reports; clear E.
    exists (set_this_ d p). split; [exact Hrank |].
    split; [reflexivity |]. split; [reflexivity |].
    split; [exact Heta | reflexivity].
  - apply bind_Ok in E. destruct E as (ws & Hfold & E).
    inversion E; subst w' reports; clear E.
    destruct (volume_check_rounds_frame (neutronics_root_ w)
                (heat_ranks_ w) _ ws rank (set_this_ d p, ∅) Hfold)
      as (s' & Hs' & Hh & Hn & Ht & Hsame).
    { rewrite list_lookup_fmap, Hrank. reflexivity. }
    exists s'.1. split; [rewrite list_lookup_fmap, Hs'; reflexivity |].
    split; [exact Hh |]. split; [exact Hn |]. split; [exact Ht |].
    intros [Hnd | Hroot]; [discriminate |].
    rewrite (Hsame Hroot). reflexivity.
Qed.

End VolumeCheckFrame.

Lemma init_volumes_sums_and_check_witness :
  exists d p',
    init_volumes (heat_rank [300; 400]%float [2; 2]%float [2; 3])
                 two_ranks_mapped_second = Ok d
    /\ d = set_cell_volumes_ (cell_volumes_ d)
             (set_elem_volumes_
                (volume_local
                   (heat_rank [300; 400]%float [2; 2]%float [2; 3]))
                two_ranks_mapped_second)
    /\ length (cell_volumes_ d) = length (cells_ two_ranks_mapped_second)
    /\ cell_volumes_ d !! 0%nat
       = Some (foldl (fun V e =>
                        (V + default d0
                               (volume_local
                                  (heat_rank [300; 400]%float
                                             [2; 2]%float [2; 3])
                                !! e))%D)
                     d0 [0; 1]%nat)
    /\ init_volumes_collective false two_ranks_mapped = Ok two_ranks_volumes
    /\ two_ranks_volumes.1 !! 1%nat = Some p'
    /\ heat p' = heat_rank [300; 400]%float [2; 2]%float [2; 3]
    /\ neutronics p' = idle_neutronics
    /\ this_ p' = d.
Proof.
  destruct (init_volumes_sums_and_check false two_ranks_mapped 1
              {| this_ := two_ranks_mapped_second;
                 heat := heat_rank [300; 400]%float [2; 2]%float [2; 3];
                 neutronics := idle_neutronics |})
    as (d & Hd & Heta & Hlen & Hsum & Hworld).
  - vm_compute. reflexivity.
  - reflexivity.
  - reflexivity.
  - constructor; [| constructor].
    exists [0; 1]%nat. split; [vm_compute; reflexivity |].
    repeat constructor.
  - destruct (Hworld two_ranks_volumes.1 two_ranks_volumes.2)
      as (p' & Hp' & Hheat & Hneutronics & _ & Hsame);
      [vm_compute; reflexivity |].
    exists d, p'.
    split; [exact Hd |]. split; [exact Heta |]. split; [exact Hlen |].
    split; [apply (Hsum 0%nat cell_B [0; 1]%nat); vm_compute; reflexivity |].
    split; [vm_compute; reflexivity |].
    split; [exact Hp' |]. split; [exact Hheat |].
    split; [exact Hneutronics |].
    apply Hsame. right. intros Heq. vm_compute in Heq. discriminate Heq.
Defined.

(** In that run rank 0 computes the volume 2 for its cell A and ends,
    after the check, with the cell B and the volume 4 of rank 1; the
    check reports both cells. *)
Example init_volumes_check_overwrites_root :
  init_volumes_collective false two_ranks_mapped = Ok two_ranks_volumes
  /\ map (fun p => (cells_ (this_ p), cell_volumes_ (this_ p)))
         two_ranks_volumes.1
     = [([cell_B], [4%float]); ([cell_B], [4%float])]
  /\ two_ranks_volumes.2
     = [[(cell_A, 2%float, 2%float); (cell_B, 4%float, 4%float)]; []]
  /\ (r ← init_volumes_collective true two_ranks_mapped;
      Ok (map (fun p => (cells_ (this_ p), cell_volumes_ (this_ p))) r.1))
     = Ok [([cell_A], [2%float]); ([cell_B], [4%float])].
Proof.
  split; [vm_compute; reflexivity |].
  split; [vm_compute; reflexivity |].
  split; vm_compute; reflexivity.
Qed.

(** ** The configuration checks of the constructor *)

Section ConstructorChecks.
Context {D : Type} `{DoubleOps D}.
Variable ROBBINS_MONRO : D.
Variable as_double : string -> D.
Variable as_int : string -> Z.

Lemma Expects_Ok (c : bool) (u : unit) : Expects c = Ok u -> c = true.
Proof. destruct c; [reflexivity | discriminate]. Qed.

(** X9.  A configuration the constructor accepts has passed the four
    [Expects] of lines 106-109 on the values read from the node: the power
    read from [<power>] (zero when the child is absent) is positive, the two
    iteration limits are not negative, and the tolerance, the default when
    [<epsilon>] is absent, is positive. *)
Theorem read_coupling_checked (defaults : Coupling D)
    (coup_node : coupling_node) (c : Coupling D) :
  read_coupling ROBBINS_MONRO as_double as_int defaults coup_node = Ok c ->
  power_ c = text_as_double as_double (node_power coup_node)
  /\ (d0 <? power_ c)%D = true
  /\ max_timesteps_ c = text_as_int as_int (node_max_timesteps coup_node)
  /\ 0 <= max_timesteps_ c
  /\ max_picard_iter_ c = text_as_int as_int (node_max_picard_iter coup_node)
  /\ 0 <= max_picard_iter_ c
  /\ (d0 <? epsilon_ c)%D = true
  /\ (node_epsilon coup_node = None -> epsilon_ c = epsilon_ defaults).
Proof.
  intros E. unfold read_coupling in E.
  apply bind_Ok in E. destruct E as (a1 & _ & E).
  apply bind_Ok in E. destruct E as (a2 & _ & E).
  apply bind_Ok in E. destruct E as (a3 & _ & E).
  apply bind_Ok in E. destruct E as (n & _ & E).
  apply bind_Ok in E. destruct E as (tic & _ & E).
  apply bind_Ok in E. destruct E as (dic & _ & E).
  apply bind_Ok in E. destruct E as (u1 & H1 & E).
  apply bind_Ok in E. destruct E as (u2 & H2 & E).
  apply bind_Ok in E. destruct E as (u3 & H3 & E).
  apply bind_Ok in E. destruct E as (u4 & H4 & E).
  apply Expects_Ok in H1, H2, H3, H4.
  inversion E; subst c; clear E. cbn [power_ max_timesteps_ max_picard_iter_
                                       epsilon_].
  split; [reflexivity |]. split; [exact H1 |].
  split; [reflexivity |]. split; [apply Z.leb_le; exact H2 |].
  split; [reflexivity |]. split; [apply Z.leb_le; exact H3 |].
  split; [exact H4 |].
  intros Hnone. rewrite Hnone. reflexivity.
Qed.

(** X10.  When the three relaxation selectors pass, a [<convergence_norm>]
    whose text is none of L1, L2 and Linf ends the constructor with the
    [runtime_error] of line 79, whatever the power, the limits and the
    tolerance are: those are checked only afterwards. *)
Theorem read_coupling_invalid_norm (defaults : Coupling D)
    (coup_node : coupling_node) (s : string) :
  accepted as_double (node_alpha coup_node) ->
  accepted as_double (node_alpha_T coup_node) ->
  accepted as_double (node_alpha_rho coup_node) ->
  node_convergence_norm coup_node = Some s ->
  s <> "L1"%string -> s <> "L2"%string -> s <> "Linf"%string ->
  read_coupling ROBBINS_MONRO as_double as_int defaults coup_node
  = Abort (runtime_error "Invalid value for <convergence_norm>").
Proof.
  intros Ha HaT Harho Hs H1 H2 Hinf. unfold read_coupling.
  destruct (set_alpha_accepted ROBBINS_MONRO as_double _ (alpha_ defaults) Ha)
    as [a1 E1].
  destruct (set_alpha_accepted ROBBINS_MONRO as_double _ (alpha_T_ defaults)
              HaT) as [a2 E2].
  destruct (set_alpha_accepted ROBBINS_MONRO as_double _
              (alpha_rho_ defaults) Harho) as [a3 E3].
  rewrite E1, E2, E3, Hs. cbn [mbind outcome_bind].
  apply String.eqb_neq in H1, H2, Hinf. rewrite H1, H2, Hinf. reflexivity.
Qed.

End ConstructorChecks.

Lemma read_coupling_checked_witness :
  read_coupling sentinel64 toy_as_double toy_as_int header_defaults64
                coupling_complete = Ok coupling_complete_read
  /\ power_ coupling_complete_read
     = text_as_double toy_as_double (node_power coupling_complete)
  /\ (d0 <? power_ coupling_complete_read)%D = true
  /\ max_timesteps_ coupling_complete_read
     = text_as_int toy_as_int (node_max_timesteps coupling_complete)
  /\ 0 <= max_timesteps_ coupling_complete_read
  /\ max_picard_iter_ coupling_complete_read
     = text_as_int toy_as_int (node_max_picard_iter coupling_complete)
  /\ 0 <= max_picard_iter_ coupling_complete_read
  /\ (d0 <? epsilon_ coupling_complete_read)%D = true
  /\ (node_epsilon coupling_complete = None ->
      epsilon_ coupling_complete_read = epsilon_ header_defaults64).
Proof.
  split; [vm_compute; reflexivity |].
  apply (@read_coupling_checked float Float64 sentinel64 toy_as_double
           toy_as_int header_defaults64 coupling_complete
           coupling_complete_read).
  vm_compute. reflexivity.
Defined.

Lemma read_coupling_invalid_norm_witness :
  read_coupling sentinel64 toy_as_double toy_as_int header_defaults64
                (coupling_with_norm "l2")
  = Abort (runtime_error "Invalid value for <convergence_norm>").
Proof.
  apply (read_coupling_invalid_norm sentinel64 toy_as_double toy_as_int
           header_defaults64 (coupling_with_norm "l2") "l2"%string).
  - right; right. exists 0.5%float. split; [| reflexivity].
    exists "0.5"%string. repeat split. discriminate.
  - right; left. reflexivity.
  - left. reflexivity.
  - reflexivity.
  - discriminate.
  - discriminate.
  - discriminate.
Defined.

(** ** The L1 and maximum norms *)

Section NormOnEveryRank.
Context {D Position : Type} `{DoubleOps D}.
Variable DBL_LOWEST : D.

Lemma local_term_value (norm : Norm) (this : CoupledDriver D) (l : D) :
  local_term DBL_LOWEST norm this = Ok l ->
  l = local_change DBL_LOWEST norm this.
Proof.
  unfold local_term. intros E.
  apply bind_Ok in E. destruct E as (diff & Hd & E).
  apply xt_zip_Ok in Hd. destruct Hd as [_ ->].
  inversion E. destruct norm; reflexivity.
Qed.

(** The contributions that enter the reduction are the send buffers of
    the heat-active processes, in rank order. *)
Lemma norm_contributions (norm : Norm) (w : list (@Process D Position))
    (locals : list (option D)) :
  on_each (fun p => if in_heat p
                    then l ← local_term DBL_LOWEST norm (this_ p); Ok (Some l)
                    else Ok None) w = Ok locals ->
  omap (fun l => l) locals
  = map (fun p => local_change DBL_LOWEST norm (this_ p))
        (filter (fun p => in_heat p = true) w).
Proof.
  revert locals. induction w as [|p w IH]; intros locals E.
  - inversion E; subst. reflexivity.
  - rewrite on_each_cons in E.
    apply bind_Ok in E. destruct E as (t & Ht & E).
    apply bind_Ok in E. destruct E as (r & Hr & E).
    inversion E; subst locals; clear E. rewrite filter_cons.
    destruct (in_heat p) eqn:Hp.
    + apply bind_Ok in Ht. destruct Ht as (l & Hl & Ht).
      inversion Ht; subst t; clear Ht. apply local_term_value in Hl. subst l.
      rewrite decide_True by reflexivity. simpl. f_equal. apply IH. assumption.
    + inversion Ht; subst t. rewrite decide_False by discriminate.
      simpl. apply IH. assumption.
Qed.

Lemma is_root_member (w : list (@Process D Position)) (rank : nat)
    (p : @Process D Position) :
  w !! rank = Some p -> is_root (heat_ranks_ w) rank = true ->
  in_heat p = true.
Proof.
  intros Hp Hroot. unfold is_root in Hroot.
  destruct (heat_ranks_ w) as [|r rest] eqn:Hranks; [discriminate |].
  apply Nat.eqb_eq in Hroot. subst r.
  assert (Hin : rank ∈ heat_ranks_ w) by (rewrite Hranks; left).
  apply elem_of_gather_subcomm_ranks in Hin.
  destruct Hin as (q & Hq & Hact). congruence.
Qed.

(** X11.  With the L1 or the maximum norm, [temperature_norm] returns the
    reduction of the send buffers of the heat-active processes on the root
    of the heat communicator and 0 on every other process; a heat-active
    process makes the one [MPI_Reduce] call and no [sqrt], an inactive one
    makes no call. *)
Theorem temperature_norm_sum_and_max (norm : Norm) (g_sum : nat -> D)
    (w : list (@Process D Position)) (norms : list (D * list norm_call)) :
  norm <> L2 ->
  temperature_norm DBL_LOWEST norm g_sum w = Ok norms ->
  length norms = length w
  /\ forall rank p,
       w !! rank = Some p ->
       norms !! rank
       = Some (if is_root (heat_ranks_ w) rank
               then reduce_for norm
                      (map (fun p => local_change DBL_LOWEST norm (this_ p))
                           (filter (fun p => in_heat p = true) w))
               else d0,
               if in_heat p
               then [call_MPI_Reduce
                       (local_change DBL_LOWEST norm (this_ p))]
               else []).
Proof.
  intros Hnorm E.
  split; [apply (temperature_norm_length DBL_LOWEST norm g_sum w norms E) |].
  intros rank p Hp. unfold temperature_norm in E.
  apply bind_Ok in E. destruct E as (locals & Hlocals & E).
  inversion E; subst norms; clear E.
  rewrite (norm_contributions _ _ _ Hlocals).
  destruct (on_each_lookup _ _ _ Hlocals) as [_ Hl].
  destruct (Hl rank p Hp) as (t & Ht & Hrank).
  rewrite list_lookup_imap, Hrank. simpl.
  destruct (in_heat p) eqn:Hact.
  - apply bind_Ok in Ht. destruct Ht as (l & Hlt & Ht).
    inversion Ht; subst t; clear Ht.
    apply local_term_value in Hlt. subst l.
    destruct norm; [reflexivity | contradiction | reflexivity].
  - inversion Ht; subst t; clear Ht.
    destruct (is_root (heat_ranks_ w) rank) eqn:Hroot; [| reflexivity].
    pose proof (is_root_member w rank p Hp Hroot). congruence.
Qed.

End NormOnEveryRank.

Lemma temperature_norm_sum_and_max_witness :
  length two_heat_ranks_norms_L1 = length two_heat_ranks_moved
  /\ forall rank p,
       two_heat_ranks_moved !! rank = Some p ->
       two_heat_ranks_norms_L1 !! rank
       = Some (if is_root (heat_ranks_ two_heat_ranks_moved) rank
               then reduce_for L1
                      (map (fun p => local_change lowest64 L1 (this_ p))
                           (filter (fun p => in_heat p = true)
                                   two_heat_ranks_moved))
               else d0,
               if in_heat p
               then [call_MPI_Reduce (local_change lowest64 L1 (this_ p))]
               else []).
Proof.
  apply (temperature_norm_sum_and_max lowest64 L1 (fun _ => 4%float)
           two_heat_ranks_moved two_heat_ranks_norms_L1).
  - discriminate.
  - vm_compute. reflexivity.
Defined.

(** ** The accumulation loops of step 3 *)

(** A loop whose body succeeds whenever an invariant on the part already
    traversed holds runs to its end and establishes the invariant for the
    whole list. *)
Lemma foldM_runs_in_order {A S} (P : list A -> S -> Prop)
    (body : S -> A -> outcome S) (l : list A) (s : S) :
  (forall done a rest s, l = done ++ a :: rest -> P done s ->
                         exists s', body s a = Ok s' /\ P (done ++ [a]) s') ->
  P [] s ->
  exists s', foldM body s l = Ok s' /\ P l s'.
Proof.
  intros Hstep.
  assert (G : forall rest done s,
             l = done ++ rest -> P done s ->
             exists s', foldM body s rest = Ok s' /\ P (done ++ rest) s').
  { induction rest as [|a rest IH]; intros done s0 Hl Hs; simpl.
    - exists s0. rewrite app_nil_r. auto.
    - destruct (Hstep done a rest s0 Hl Hs) as (s1 & E1 & H1).
      rewrite E1. simpl.
      destruct (IH (done ++ [a]) s1) as (s' & E & H');
        [rewrite <- app_assoc; exact Hl | assumption |].
      exists s'. split; [assumption |].
      rewrite <- app_assoc in H'. exact H'. }
  intros Hs. apply (G l [] s); auto.
Qed.

Lemma indices_split (n : nat) (done rest : list nat) (a : nat) :
  indices n = done ++ a :: rest -> a = length done /\ (a < n)%nat.
Proof.
  unfold indices. intros E.
  assert (Ha : seq 0 n !! length done = Some a).
  { rewrite E. rewrite lookup_app_r by lia.
    rewrite Nat.sub_diag. reflexivity. }
  apply lookup_seq in Ha. lia.
Qed.

Lemma at_lt {A} (v : list A) (i : nat) :
  (i < length v)%nat -> exists a, at_ v i = Ok a /\ v !! i = Some a.
Proof.
  intros Hi. destruct (lookup_lt_is_Some_2 v i Hi) as [a Ha].
  exists a. split; [apply at_Ok |]; assumption.
Qed.

Section Accumulation.
Context {D : Type} `{DoubleOps D}.

(** X12.  When every cell occurs once in [cells_] and the arrays cover it,
    the loop of lines 405-409 succeeds; it adds to the entry of each cell
    the product of its temperature and volume, an entry that was missing
    counting as 0, and leaves the entries of all other cells alone. *)
Theorem accumulate_T_dot_V_distinct (this : CoupledDriver D)
    (T_dot_V : gmap Z D) :
  NoDup (cells_ this) ->
  (length (cells_ this) <= length (cell_temperatures_ this))%nat ->
  (length (cells_ this) <= length (cell_volumes_ this))%nat ->
  exists m,
    accumulate_T_dot_V this T_dot_V = Ok m
    /\ (forall i c T V,
          cells_ this !! i = Some c ->
          cell_temperatures_ this !! i = Some T ->
          cell_volumes_ this !! i = Some V ->
          m !! c = Some (default d0 (T_dot_V !! c) + T * V)%D)
    /\ (forall c, c ∉ cells_ this -> m !! c = T_dot_V !! c).
Proof.
  intros Hnd HT HV. unfold accumulate_T_dot_V.
  set (n := length (cells_ this)).
  destruct (foldM_runs_in_order
              (fun done m =>
                 (forall i c T V,
                    (i < length done)%nat ->
                    cells_ this !! i = Some c ->
                    cell_temperatures_ this !! i = Some T ->
                    cell_volumes_ this !! i = Some V ->
                    m !! c = Some (default d0 (T_dot_V !! c) + T * V)%D)
                 /\ (forall c,
                       (forall i, (i < length done)%nat ->
                                  cells_ this !! i <> Some c) ->
                       m !! c = T_dot_V !! c))
              (fun m i =>
                 T ← at_ (cell_temperatures_ this) i;
                 V ← at_ (cell_volumes_ this) i;
                 c ← at_ (cells_ this) i;
                 Ok (add_to m c (T * V)%D))
              (indices n) T_dot_V) as (m & E & Hdone & Hrest).
  - intros done a rest s Hsplit [Hd Hr].
    apply indices_split in Hsplit. destruct Hsplit as [-> Hlt].
    destruct (at_lt (cell_temperatures_ this) (length done)) as (T & ET & HT');
      [lia |].
    destruct (at_lt (cell_volumes_ this) (length done)) as (V & EV & HV');
      [lia |].
    destruct (at_lt (cells_ this) (length done)) as (c & Ec & Hc');
      [exact Hlt |].
    rewrite ET, EV, Ec. cbn [mbind outcome_bind].
    eexists. split; [reflexivity |].
    assert (Hfresh : forall i, (i < length done)%nat ->
                               cells_ this !! i <> Some c).
    { intros i Hi Hic.
      pose proof (NoDup_lookup _ _ _ _ Hnd Hic Hc'). lia. }
    rewrite length_app. cbn [length]. unfold add_to. split.
    + intros i c' T' V' Hi Hic HiT HiV.
      destruct (decide (i = length done)) as [-> | Hne].
      * assert (c' = c) by congruence. assert (T' = T) by congruence.
        assert (V' = V) by congruence. subst c' T' V'.
        rewrite lookup_insert_eq. rewrite (Hr c Hfresh). reflexivity.
      * assert (Hi' : (i < length done)%nat) by lia.
        assert (c' <> c) by (intros ->; exact (Hfresh i Hi' Hic)).
        rewrite lookup_insert_ne by congruence.
        apply (Hd i c' T' V' Hi' Hic HiT HiV).
    + intros c' Hnone.
      assert (c' <> c).
      { intros ->. apply (Hnone (length done)); [lia | exact Hc']. }
      rewrite lookup_insert_ne by congruence.
      apply Hr. intros i Hi. apply Hnone. lia.
  - split.
    + intros i c T V Hi. simpl in Hi. lia.
    + intros c _. reflexivity.
  - exists m. split; [exact E |]. split.
    + intros i c T V Hic HiT HiV. apply (Hdone i c T V); try assumption.
      unfold indices. rewrite length_seq. eapply lookup_lt_Some; eauto.
    + intros c Hnot. apply Hrest. intros i _ Hic.
      apply Hnot. eapply list_elem_of_lookup_2; eauto.
Qed.

End Accumulation.

Section AccumulationOfDensity.
Context {D : Type} `{DoubleOps D}.

(** X13.  When every cell occurs once in [cells_] and the arrays cover it,
    the loop of lines 473-479 succeeds; it adds to the entry of each cell
    whose mask is 1 the product of its density and volume, and leaves alone
    the entry of every cell that is not listed with mask 1: a cell masked as
    solid gets no entry from this loop. *)
Theorem accumulate_rho_dot_V_fluid_only (this : CoupledDriver D)
    (rho_dot_V : gmap Z D) :
  NoDup (cells_ this) ->
  (length (cells_ this) <= length (cell_fluid_mask_ this))%nat ->
  (length (cells_ this) <= length (cell_densities_ this))%nat ->
  (length (cells_ this) <= length (cell_volumes_ this))%nat ->
  exists m,
    accumulate_rho_dot_V this rho_dot_V = Ok m
    /\ (forall i c rho V,
          cells_ this !! i = Some c ->
          cell_fluid_mask_ this !! i = Some 1 ->
          cell_densities_ this !! i = Some rho ->
          cell_volumes_ this !! i = Some V ->
          m !! c = Some (default d0 (rho_dot_V !! c) + rho * V)%D)
    /\ (forall c,
          (forall i, cells_ this !! i = Some c ->
                     cell_fluid_mask_ this !! i <> Some 1) ->
          m !! c = rho_dot_V !! c).
Proof.
  intros Hnd Hmask Hrho HV. unfold accumulate_rho_dot_V.
  set (n := length (cells_ this)).
  destruct (foldM_runs_in_order
              (fun done m =>
                 (forall i c rho V,
                    (i < length done)%nat ->
                    cells_ this !! i = Some c ->
                    cell_fluid_mask_ this !! i = Some 1 ->
                    cell_densities_ this !! i = Some rho ->
                    cell_volumes_ this !! i = Some V ->
                    m !! c = Some (default d0 (rho_dot_V !! c) + rho * V)%D)
                 /\ (forall c,
                       (forall i, (i < length done)%nat ->
                                  cells_ this !! i = Some c ->
                                  cell_fluid_mask_ this !! i <> Some 1) ->
                       m !! c = rho_dot_V !! c))
              (fun m i =>
                 mask ← at_ (cell_fluid_mask_ this) i;
                 if (mask =? 1)%Z then
                   rho ← at_ (cell_densities_ this) i;
                   V ← at_ (cell_volumes_ this) i;
                   c ← at_ (cells_ this) i;
                   Ok (add_to m c (rho * V)%D)
                 else Ok m)
              (indices n) rho_dot_V) as (m & E & Hdone & Hrest).
  - intros done a rest s Hsplit [Hd Hr].
    apply indices_split in Hsplit. destruct Hsplit as [-> Hlt].
    destruct (at_lt (cell_fluid_mask_ this) (length done))
      as (mask & Em & Hm'); [lia |].
    destruct (at_lt (cell_densities_ this) (length done))
      as (rho & Erho & Hrho'); [lia |].
    destruct (at_lt (cell_volumes_ this) (length done)) as (V & EV & HV');
      [lia |].
    destruct (at_lt (cells_ this) (length done)) as (c & Ec & Hc');
      [exact Hlt |].
    rewrite Em. cbn [mbind outcome_bind].
    rewrite length_app. cbn [length].
    destruct (Z.eqb_spec mask 1) as [-> | Hsolid].
    + rewrite Erho, EV, Ec. cbn [mbind outcome_bind].
      eexists. split; [reflexivity |].
      assert (Hfresh : forall i, (i < length done)%nat ->
                                 cells_ this !! i <> Some c).
      { intros i Hi Hic.
        pose proof (NoDup_lookup _ _ _ _ Hnd Hic Hc'). lia. }
      unfold add_to. split.
      * intros i c' rho' V' Hi Hic Him Hirho HiV.
        destruct (decide (i = length done)) as [-> | Hne].
        -- assert (c' = c) by congruence. assert (rho' = rho) by congruence.
           assert (V' = V) by congruence. subst c' rho' V'.
           rewrite lookup_insert_eq. rewrite (Hr c); [reflexivity |].
           intros i Hi' Hic'. exfalso. exact (Hfresh i Hi' Hic').
        -- assert (Hi' : (i < length done)%nat) by lia.
           assert (c' <> c) by (intros ->; exact (Hfresh i Hi' Hic)).
           rewrite lookup_insert_ne by congruence.
           apply (Hd i c' rho' V' Hi' Hic Him Hirho HiV).
      * intros c' Hnone.
        assert (c' <> c).
        { intros ->. apply (Hnone (length done)); [lia | exact Hc' |].
          exact Hm'. }
        rewrite lookup_insert_ne by congruence.
        apply Hr. intros i Hi. apply Hnone. lia.
    + exists s. split; [reflexivity |]. split.
      * intros i c' rho' V' Hi Hic Him Hirho HiV.
        destruct (decide (i = length done)) as [-> | Hne].
        -- rewrite Hm' in Him. inversion Him. contradiction.
        -- apply (Hd i c' rho' V'); try assumption. lia.
      * intros c' Hnone. apply Hr. intros i Hi. apply Hnone. lia.
  - split.
    + intros i c rho V Hi. simpl in Hi. lia.
    + intros c _. reflexivity.
  - exists m. split; [exact E |]. split.
    + intros i c rho V Hic Him Hirho HiV.
      apply (Hdone i c rho V); try assumption.
      unfold indices. rewrite length_seq. eapply lookup_lt_Some; eauto.
    + intros c Hnot. apply Hrest. intros i _ Hic. apply Hnot. exact Hic.
Qed.

End AccumulationOfDensity.

Lemma accumulate_T_dot_V_distinct_witness :
  exists m,
    accumulate_T_dot_V one_fluid_cell ∅ = Ok m
    /\ (forall i c T V,
          cells_ one_fluid_cell !! i = Some c ->
          cell_temperatures_ one_fluid_cell !! i = Some T ->
          cell_volumes_ one_fluid_cell !! i = Some V ->
          m !! c = Some (default d0 ((∅ : gmap Z float) !! c) + T * V)%D)
    /\ (forall c, c ∉ cells_ one_fluid_cell ->
                  m !! c = (∅ : gmap Z float) !! c).
Proof.
  apply (accumulate_T_dot_V_distinct one_fluid_cell ∅).
  - apply (bool_decide_unpack _). vm_compute. exact I.
  - simpl. lia.
  - simpl. lia.
Defined.

Lemma accumulate_rho_dot_V_fluid_only_witness :
  exists m,
    accumulate_rho_dot_V mixed_cells ∅ = Ok m
    /\ (forall i c rho V,
          cells_ mixed_cells !! i = Some c ->
          cell_fluid_mask_ mixed_cells !! i = Some 1 ->
          cell_densities_ mixed_cells !! i = Some rho ->
          cell_volumes_ mixed_cells !! i = Some V ->
          m !! c = Some (default d0 ((∅ : gmap Z float) !! c) + rho * V)%D)
    /\ (forall c,
          (forall i, cells_ mixed_cells !! i = Some c ->
                     cell_fluid_mask_ mixed_cells !! i <> Some 1) ->
          m !! c = (∅ : gmap Z float) !! c).
Proof.
  apply (accumulate_rho_dot_V_fluid_only mixed_cells ∅).
  - apply (bool_decide_unpack _). vm_compute. exact I.
  - simpl. lia.
  - simpl. lia.
  - simpl. lia.
Defined.

(** ** What the exchange of step 3 leaves alone *)

Section Exchange.
Context {D Position : Type} `{DoubleOps D}.

Lemma exchange_frame_refl (root : Z)
    (ws : list (@Process D Position * gmap Z D)) :
  exchange_frame root ws ws.
Proof. split; [reflexivity |]. intros rank s Hs. exists s. auto. Qed.

Lemma exchange_frame_trans (root : Z)
    (ws1 ws2 ws3 : list (@Process D Position * gmap Z D)) :
  exchange_frame root ws1 ws2 -> exchange_frame root ws2 ws3 ->
  exchange_frame root ws1 ws3.
Proof.
  intros [Hl12 H12] [Hl23 H23]. split; [congruence |].
  intros rank s Hs.
  destruct (H12 rank s Hs) as (s2 & Hs2 & Hh2 & Hn2 & Hm2 & Hf2).
  destruct (H23 rank s2 Hs2) as (s3 & Hs3 & Hh3 & Hn3 & Hm3 & Hf3).
  assert (Hact : in_neutronics s2.1 = in_neutronics s.1).
  { unfold in_neutronics. rewrite Hn2. reflexivity. }
  exists s3. split; [exact Hs3 |].
  split; [congruence |]. split; [congruence |]. split.
  - intros Hoff. rewrite Hm3 by congruence. apply Hm2. exact Hoff.
  - intros Hoff Hroot. rewrite Hf3 by congruence. apply Hf2; assumption.
Qed.

Lemma send_to_root_frame {A} (get : CoupledDriver D -> A)
    (set : A -> CoupledDriver D -> CoupledDriver D)
    (root source : Z)
    (ws ws' : list (@Process D Position * gmap Z D)) :
  send_and_recv (fun s : @Process D Position * gmap Z D => get (this_ s.1))
                (fun a => on_driver (set a)) root source ws = Ok ws' ->
  exchange_frame root ws ws'.
Proof.
  intros E. apply send_and_recv_Ok in E.
  destruct E as (src & d & _ & _ & Hroot & ->).
  split; [apply length_alter |].
  intros rank s Hs.
  destruct (decide (Z.to_nat root = rank)) as [<- | Hne].
  - rewrite list_lookup_alter_eq, Hs. simpl.
    eexists. split; [reflexivity |].
    split; [reflexivity |]. split; [reflexivity |].
    split; [reflexivity |]. intros _ Hr. lia.
  - rewrite list_lookup_alter_ne by exact Hne.
    exists s. auto.
Qed.

Lemma broadcast_to_neutronics_frame {A} (get : CoupledDriver D -> A)
    (set : A -> CoupledDriver D -> CoupledDriver D)
    (root : Z) (ws ws' : list (@Process D Position * gmap Z D)) :
  broadcast (fun s : @Process D Position * gmap Z D => in_neutronics s.1)
            (fun s => get (this_ s.1))
            (fun a => on_driver (set a)) root ws = Ok ws' ->
  exchange_frame root ws ws'.
Proof.
  unfold broadcast. destruct (at_rank ws root) as [r|]; [| discriminate].
  intros E. inversion E; subst ws'; clear E.
  split; [apply length_map |].
  intros rank s Hs. rewrite list_lookup_fmap, Hs. simpl.
  eexists. split; [reflexivity |].
  destruct (in_neutronics s.1) eqn:Hact; simpl; auto.
  repeat split; intros; discriminate.
Qed.

Lemma gather_then_broadcast_frame {A} (get : CoupledDriver D -> A)
    (set : A -> CoupledDriver D -> CoupledDriver D)
    (root : Z) (heat_rank : nat)
    (ws ws' : list (@Process D Position * gmap Z D)) :
  gather_then_broadcast get set root heat_rank ws = Ok ws' ->
  exchange_frame root ws ws'.
Proof.
  unfold gather_then_broadcast. intros E.
  apply bind_Ok in E. destruct E as (ws1 & E1 & E2).
  eapply exchange_frame_trans.
  - eapply send_to_root_frame. exact E1.
  - eapply broadcast_to_neutronics_frame. exact E2.
Qed.

Lemma exchange_round_frame (get : CoupledDriver D -> list D)
    (set : list D -> CoupledDriver D -> CoupledDriver D)
    (acc : CoupledDriver D -> gmap Z D -> outcome (gmap Z D))
    (root : Z) (heat_rank : nat)
    (ws ws' : list (@Process D Position * gmap Z D)) :
  exchange_round get set acc root ws heat_rank = Ok ws' ->
  exchange_frame root ws ws'.
Proof.
  unfold exchange_round. intros E.
  apply bind_Ok in E. destruct E as (ws1 & E1 & E).
  apply bind_Ok in E. destruct E as (ws2 & E2 & E).
  apply bind_Ok in E. destruct E as (ws3 & E3 & E).
  apply gather_then_broadcast_frame in E1, E2, E3.
  eapply exchange_frame_trans; [exact E1 |].
  eapply exchange_frame_trans; [exact E2 |].
  eapply exchange_frame_trans; [exact E3 |].
  apply on_each_lookup in E. destruct E as [Hlen Hl].
  split; [exact Hlen |].
  intros rank s Hs. destruct (Hl rank s Hs) as (t & Ht & Hrank).
  exists t. split; [exact Hrank |].
  destruct (in_neutronics s.1) eqn:Hact.
  - apply bind_Ok in Ht. destruct Ht as (m & _ & Ht).
    inversion Ht; subst t. simpl.
    repeat split; intros; discriminate.
  - inversion Ht; subst t. auto.
Qed.

Lemma set_calls_cells (p : @Process D Position) (m : gmap Z D) :
  (set_calls p m).*1 = (map_items m).*1.
Proof.
  unfold set_calls. rewrite <- list_fmap_compose. reflexivity.
Qed.

(** A call of [update_temperature] or [update_density], with [local] for
    steps 1 and 2 on one process. *)
Lemma update_in_the_world
    (local : @Process D Position -> outcome (CoupledDriver D))
    (get : CoupledDriver D -> list D)
    (set : list D -> CoupledDriver D -> CoupledDriver D)
    (acc : CoupledDriver D -> gmap Z D -> outcome (gmap Z D))
    (root : Z) (ranks : list nat)
    (w w' : list (@Process D Position))
    (calls : list (list (CellHandle * D))) :
  (w1 ← on_each (fun p => d ← local p; Ok (set_this_ d p)) w;
   ws ← foldM (exchange_round get set acc root)
              (map (fun p => (p, ∅)) w1) ranks;
   Ok (ws.*1, map (fun s => set_calls s.1 s.2) ws)) = Ok (w', calls) ->
  length w' = length w
  /\ length calls = length w
  /\ forall rank p,
       w !! rank = Some p ->
       exists p' cs,
         w' !! rank = Some p'
         /\ calls !! rank = Some cs
         /\ heat p' = heat p
         /\ neutronics p' = neutronics p
         /\ StronglySorted Z.lt cs.*1
         /\ (in_neutronics p = false -> cs = [])
         /\ (in_neutronics p = false -> Z.of_nat rank <> root ->
             local p = Ok (this_ p')).
Proof.
  intros E.
  apply bind_Ok in E. destruct E as (w1 & Hlocal & E).
  apply bind_Ok in E. destruct E as (ws & Hfold & E).
  inversion E; subst w' calls; clear E.
  apply on_each_lookup in Hlocal. destruct Hlocal as [Hlen1 Hl1].
  assert (Hframe : exchange_frame root (map (fun p => (p, ∅)) w1) ws).
  { apply (foldM_invariant
             (exchange_frame root (map (fun p => (p, ∅)) w1))
             (exchange_round get set acc root) ranks
             (map (fun p => (p, ∅)) w1) ws);
      [| apply exchange_frame_refl | exact Hfold].
    intros s a s' _ Hs Hstep.
    eapply exchange_frame_trans; [exact Hs |].
    eapply exchange_round_frame. exact Hstep. }
  destruct Hframe as [Hlen Hf]. rewrite length_map in Hlen.
  split; [rewrite length_fmap; congruence |].
  split; [rewrite length_map; congruence |].
  intros rank p Hp.
  destruct (Hl1 rank p Hp) as (t & Ht & Hrank).
  apply bind_Ok in Ht. destruct Ht as (d & Hd & Ht).
  inversion Ht; subst t; clear Ht.
  destruct (Hf rank (set_this_ d p, ∅)) as (s' & Hs' & Hh & Hn & Hm & Hsame).
  { rewrite list_lookup_fmap, Hrank. reflexivity. }
  simpl in Hh, Hn, Hm, Hsame.
  exists s'.1, (set_calls s'.1 s'.2).
  split; [rewrite list_lookup_fmap, Hs'; reflexivity |].
  split; [rewrite list_lookup_fmap, Hs'; reflexivity |].
  split; [exact Hh |]. split; [exact Hn |].
  split; [rewrite set_calls_cells; apply map_items_ascending |].
  split.
  - intros Hoff. rewrite (Hm Hoff). unfold set_calls, map_items.
    rewrite map_to_list_empty. reflexivity.
  - intros Hoff Hroot. rewrite (Hsame Hoff Hroot). simpl. exact Hd.
Qed.

Variable ROBBINS_MONRO : D.

(** X14.  A call of [update_temperature] that returns leaves as many
    processes as it found, each with its solvers.  On every process the
    cells of the [set_temperature] calls are strictly ascending; a process
    without the neutronics solver makes no such call and, unless it is the
    neutronics root, ends with the driver its own steps 1 and 2 gave. *)
Theorem update_temperature_frame (relax_flag : bool)
    (w w' : list (@Process D Position))
    (calls : list (list (CellHandle * D))) :
  update_temperature ROBBINS_MONRO relax_flag w = Ok (w', calls) ->
  length w' = length w
  /\ length calls = length w
  /\ forall rank p,
       w !! rank = Some p ->
       exists p' cs,
         w' !! rank = Some p'
         /\ calls !! rank = Some cs
         /\ heat p' = heat p
         /\ neutronics p' = neutronics p
         /\ StronglySorted Z.lt cs.*1
         /\ (in_neutronics p = false -> cs = [])
         /\ (in_neutronics p = false ->
             Z.of_nat rank <> neutronics_root_ w ->
             update_temperature_local ROBBINS_MONRO relax_flag
                                      (heat p) (this_ p)
             = Ok (this_ p')).
Proof.
  intros E.
  apply (update_in_the_world
           (fun p => update_temperature_local ROBBINS_MONRO relax_flag
                                              (heat p) (this_ p))
           cell_temperatures_ set_cell_temperatures_ accumulate_T_dot_V
           (neutronics_root_ w) (heat_ranks_ w) w w' calls).
  exact E.
Qed.

(** X15.  A call of [update_density] that returns leaves as many processes
    as it found, each with its solvers.  On every process the cells of the
    [set_density] calls are strictly ascending; a process without the
    neutronics solver makes no such call and, unless it is the neutronics
    root, ends with the driver its own steps 1 and 2 gave. *)
Theorem update_density_frame (relax_flag : bool)
    (w w' : list (@Process D Position))
    (calls : list (list (CellHandle * D))) :
  update_density ROBBINS_MONRO relax_flag w = Ok (w', calls) ->
  length w' = length w
  /\ length calls = length w
  /\ forall rank p,
       w !! rank = Some p ->
       exists p' cs,
         w' !! rank = Some p'
         /\ calls !! rank = Some cs
         /\ heat p' = heat p
         /\ neutronics p' = neutronics p
         /\ StronglySorted Z.lt cs.*1
         /\ (in_neutronics p = false -> cs = [])
         /\ (in_neutronics p = false ->
             Z.of_nat rank <> neutronics_root_ w ->
             update_density_local ROBBINS_MONRO relax_flag
                                  (heat p) (this_ p)
             = Ok (this_ p')).
Proof.
  intros E.
  apply (update_in_the_world
           (fun p => update_density_local ROBBINS_MONRO relax_flag
                                          (heat p) (this_ p))
           cell_densities_ set_cell_densities_ accumulate_rho_dot_V
           (neutronics_root_ w) (heat_ranks_ w) w w' calls).
  exact E.
Qed.

End Exchange.

Lemma update_temperature_frame_witness :
  length two_heat_ranks_update.1 = length two_heat_ranks_world
  /\ length two_heat_ranks_update.2 = length two_heat_ranks_world
  /\ forall rank p,
       two_heat_ranks_world !! rank = Some p ->
       exists p' cs,
         two_heat_ranks_update.1 !! rank = Some p'
         /\ two_heat_ranks_update.2 !! rank = Some cs
         /\ heat p' = heat p
         /\ neutronics p' = neutronics p
         /\ StronglySorted Z.lt cs.*1
         /\ (in_neutronics p = false -> cs = [])
         /\ (in_neutronics p = false ->
             Z.of_nat rank <> neutronics_root_ two_heat_ranks_world ->
             update_temperature_local sentinel64 true (heat p) (this_ p)
             = Ok (this_ p')).
Proof.
  apply (update_temperature_frame sentinel64 true two_heat_ranks_world
           two_heat_ranks_update.1 two_heat_ranks_update.2).
  vm_compute. reflexivity.
Defined.

Lemma update_density_frame_witness :
  length overlap_world_update.1 = length overlap_world
  /\ length overlap_world_update.2 = length overlap_world
  /\ forall rank p,
       overlap_world !! rank = Some p ->
       exists p' cs,
         overlap_world_update.1 !! rank = Some p'
         /\ overlap_world_update.2 !! rank = Some cs
         /\ heat p' = heat p
         /\ neutronics p' = neutronics p
         /\ StronglySorted Z.lt cs.*1
         /\ (in_neutronics p = false -> cs = [])
         /\ (in_neutronics p = false ->
             Z.of_nat rank <> neutronics_root_ overlap_world ->
             update_density_local sentinel64 true (heat p) (this_ p)
             = Ok (this_ p')).
Proof.
  apply (update_density_frame sentinel64 true overlap_world
           overlap_world_update.1 overlap_world_update.2).
  vm_compute. reflexivity.
Defined.

(** In that run rank 1 holds the heat solver only: it makes no call and
    keeps the density 2 its own steps 1 and 2 gave, while rank 0 sets the
    density of cell 10 from the contributions of both ranks. *)
Example update_density_frame_on_two_processes :
  map (fun p => (in_heat p, in_neutronics p)) overlap_world
  = [(true, true); (true, false)]
  /\ neutronics_root_ overlap_world = 0
  /\ overlap_world_update.2 = [[(10, 2.75%float)]; []]
  /\ (p ← at_ overlap_world 1;
      d ← update_density_local sentinel64 true (heat p) (this_ p);
      Ok (cell_densities_ d))
     = Ok [2%float]
  /\ (p ← at_ overlap_world_update.1 1; Ok (cell_densities_ (this_ p)))
     = Ok [2%float].
Proof.
  split; [vm_compute; reflexivity |].
  split; [vm_compute; reflexivity |].
  split; [vm_compute; reflexivity |].
  split; vm_compute; reflexivity.
Qed.

(** ** The initial densities and temperatures *)

Lemma gather_subcomm_ranks_flags {St} (member : St -> bool) (w : list St) :
  gather_subcomm_ranks member w
  = gather_subcomm_ranks (fun b : bool => b) (map member w).
Proof.
  unfold gather_subcomm_ranks.
  assert (G : forall (g : nat -> nat),
             (filter (fun ip : nat * St => member ip.2 = true)
                     (imap (fun i x => (g i, x)) w)).*1
             = (filter (fun ib : nat * bool => ib.2 = true)
                       (imap (fun i b => (g i, b)) (map member w))).*1).
  { induction w as [|x w IH]; intros g; [reflexivity |].
    cbn [imap map]. rewrite !filter_cons. cbn [snd].
    specialize (IH (g ∘ Datatypes.S)).
    destruct (decide (member x = true)); cbn [fmap list_fmap fst];
      [f_equal |]; exact IH. }
  exact (G (fun i => i)).
Qed.

Lemma root_of_flags {S} (member : S -> bool) (w : list S) :
  root_of member w = root_of (fun b : bool => b) (map member w).
Proof.
  unfold root_of. rewrite <- gather_subcomm_ranks_flags. f_equal.
  apply list_eq. intros i.
  rewrite !list_lookup_imap, list_lookup_fmap.
  destruct (w !! i); reflexivity.
Qed.

Lemma std_copy_Ok {A} (src dst r : list A) :
  std_copy src dst = Ok r ->
  (length src <= length dst)%nat /\ r = src ++ drop (length src) dst.
Proof.
  unfold std_copy. destruct (decide (length src <= length dst)%nat);
    intros E; inversion E; auto.
Qed.

Lemma send_and_recv_length {S A} (get : S -> A) (set : A -> S -> S)
    (dest source : Z) (w w' : list S) :
  send_and_recv get set dest source w = Ok w' -> length w' = length w.
Proof.
  intros E. apply send_and_recv_Ok in E.
  destruct E as (? & ? & _ & _ & _ & ->). apply length_alter.
Qed.

(** One pass of the loop that fetches initial values from the neutronics
    root keeps the number of processes. *)
Lemma initial_values_round_length {S A B} (get1 : S -> A)
    (set1 : A -> S -> S) (step : nat * S -> outcome S) (get2 : S -> B)
    (set2 : B -> S -> S) (root : Z) (h : nat) (w w' : list S) :
  (w ← send_and_recv get1 set1 root (Z.of_nat h) w;
   w ← on_each step (imap pair w);
   send_and_recv get2 set2 (Z.of_nat h) root w) = Ok w' ->
  length w' = length w.
Proof.
  intros E.
  apply bind_Ok in E. destruct E as (w1 & E1 & E).
  apply bind_Ok in E. destruct E as (w2 & E2 & E3).
  apply send_and_recv_length in E1, E3.
  apply on_each_lookup in E2. destruct E2 as [E2 _].
  rewrite length_imap in E2. congruence.
Qed.

Section InitialValues.
Context {D Position : Type} `{DoubleOps D}.
Variable ROBBINS_MONRO : D.

Lemma xt_resize_length (garbage : list D) (n : nat) (a : list D) :
  length (xt_resize garbage n a) = n.
Proof.
  unfold xt_resize, uninitialized.
  destruct (decide (length a = n)); [assumption | apply length_resize].
Qed.

Lemma update_density_local_unrelaxed (heat : HeatFluidsDriver D Position)
    (this this' : CoupledDriver D) :
  heat_active heat = true ->
  update_density_local ROBBINS_MONRO false heat this = Ok this' ->
  cell_densities_prev_ this' = cell_densities_prev_ this
  /\ length (cell_densities_ this') = length (cell_densities_ this).
Proof.
  intros Hact E. unfold update_density_local in E.
  rewrite Hact in E. cbn [andb mbind outcome_bind] in E.
  apply bind_Ok in E. destruct E as (dens & Havg & E).
  inversion E; subst this'; clear E.
  apply average_densities_frame in Havg. destruct Havg as [Hlen _].
  split; [reflexivity | exact Hlen].
Qed.

(** X16.  A call of [init_densities] that returns leaves as many processes
    as it found.  With the neutronics initial condition no [set_density]
    call is made.  On every heat-active process the previous densities then
    begin with the current ones; with the heat initial condition, a
    heat-active process that holds no neutronics solver and is not the
    neutronics root ends with two equal arrays, one entry per cell. *)
Theorem init_densities_sets_previous (ic : Initial)
    (garbage garbage_prev : nat -> list D)
    (w w' : list (@Process D Position))
    (calls : list (list (CellHandle * D))) :
  init_densities ROBBINS_MONRO ic garbage garbage_prev w = Ok (w', calls) ->
  length w' = length w
  /\ (ic = Initial_neutronics -> Forall (fun cs => cs = []) calls)
  /\ (forall rank p',
        w' !! rank = Some p' -> in_heat p' = true ->
        exists rest,
          cell_densities_prev_ (this_ p')
          = cell_densities_ (this_ p') ++ rest)
  /\ (ic = Initial_heat ->
      forall rank p,
        w !! rank = Some p ->
        in_heat p = true -> in_neutronics p = false ->
        Z.of_nat rank <> neutronics_root_ w ->
        exists p',
          w' !! rank = Some p'
          /\ cell_densities_prev_ (this_ p') = cell_densities_ (this_ p')
          /\ length (cell_densities_ (this_ p'))
             = length (cells_ (this_ p))).
Proof.
  intros E. unfold init_densities in E. cbv zeta in E.
  match type of E with
  | context [imap ?f w] =>
      set (resized := f) in E; set (w0 := imap resized w) in E
  end.
  apply bind_Ok in E. destruct E as (r & Hr & E).
  apply bind_Ok in E. destruct E as (wf & Hcopy & E).
  inversion E; subst w' calls; clear E.
  apply on_each_lookup in Hcopy. destruct Hcopy as [Hlenf Hf].
  assert (Hlen0 : length w0 = length w) by apply length_imap.
  assert (Hlenr : length r.1 = length w0).
  { destruct ic.
    - apply bind_Ok in Hr. destruct Hr as (w2 & Hfold & Hr).
      inversion Hr; subst r; clear Hr. cbn [fst].
      revert Hfold. apply (foldM_invariant (fun x => length x = length w0));
        [| reflexivity].
      intros s a s' _ Hs Hstep.
      apply initial_values_round_length in Hstep. congruence.
    - destruct r as [w2 cs].
      apply (update_in_the_world
               (fun p => update_density_local ROBBINS_MONRO false
                                              (heat p) (this_ p))
               cell_densities_ set_cell_densities_ accumulate_rho_dot_V
               (neutronics_root_ w0) (heat_ranks_ w0) w0 w2 cs) in Hr.
      destruct Hr as [Hr _]. exact Hr. }
  split; [congruence |]. split; [| split].
  - intros ->. apply bind_Ok in Hr. destruct Hr as (w2 & _ & Hr).
    inversion Hr; subst r; clear Hr. cbn [snd].
    apply Forall_forall. intros cs Hin. apply list_elem_of_fmap in Hin.
    destruct Hin as (? & -> & _). reflexivity.
  - intros rank p' Hp' Hact.
    destruct (lookup_lt_is_Some_2 r.1 rank) as [q Hq].
    { rewrite <- Hlenf. eapply lookup_lt_Some; eauto. }
    destruct (Hf rank q Hq) as (t & Ht & Hrank).
    assert (t = p') by congruence. subst t.
    destruct (in_heat q) eqn:Hq_act.
    + apply bind_Ok in Ht. destruct Ht as (prev & Hprev & Ht).
      inversion Ht; subst p'; clear Ht.
      apply std_copy_Ok in Hprev. destruct Hprev as [_ ->].
      eexists. reflexivity.
    + inversion Ht; subst p'. congruence.
  - intros -> rank p Hp Hact Hoff Hroot.
    destruct r as [w2 cs]. cbn [fst snd] in *.
    assert (Hp0 : w0 !! rank = Some (resized rank p)).
    { subst w0. rewrite list_lookup_imap, Hp. reflexivity. }
    assert (Hflags : forall (member : @Process D Position -> bool),
               (forall k q, member (resized k q) = member q) ->
               map member w0 = map member w).
    { intros member Hm. apply list_eq. intros i. subst w0.
      rewrite !list_lookup_fmap, list_lookup_imap.
      destruct (w !! i); simpl; [rewrite Hm |]; reflexivity. }
    assert (Hkeep : forall k q, heat (resized k q) = heat q
                                /\ neutronics (resized k q) = neutronics q).
    { intros k q. subst resized. cbn beta.
      destruct (in_heat q); split; reflexivity. }
    assert (Hroot0 : neutronics_root_ w0 = neutronics_root_ w).
    { unfold neutronics_root_.
      rewrite (root_of_flags in_neutronics w0), (root_of_flags _ w).
      rewrite (Hflags in_neutronics); [reflexivity |].
      intros k q. unfold in_neutronics.
      rewrite (proj2 (Hkeep k q)). reflexivity. }
    apply (update_in_the_world
             (fun p => update_density_local ROBBINS_MONRO false
                                            (heat p) (this_ p))
             cell_densities_ set_cell_densities_ accumulate_rho_dot_V
             (neutronics_root_ w0) (heat_ranks_ w0) w0 w2 cs) in Hr.
    destruct Hr as (_ & _ & Hr).
    destruct (Hr rank (resized rank p) Hp0)
      as (q & cs' & Hq & _ & Hhq & Hnq & _ & _ & Hlocal).
    destruct (Hkeep rank p) as [Hh0 Hn0].
    assert (Hl : update_density_local ROBBINS_MONRO false (heat p)
                   (this_ (resized rank p)) = Ok (this_ q)).
    { rewrite <- Hh0. apply Hlocal.
      - unfold in_neutronics. rewrite Hn0. exact Hoff.
      - rewrite Hroot0. exact Hroot. }
    apply update_density_local_unrelaxed in Hl; [| exact Hact].
    destruct Hl as [Hprev Hcur].
    assert (Hthis0 : length (cell_densities_ (this_ (resized rank p)))
                     = length (cells_ (this_ p))
                     /\ length (cell_densities_prev_ (this_ (resized rank p)))
                        = length (cells_ (this_ p))).
    { subst resized. cbn beta. rewrite Hact. cbn.
      split; apply xt_resize_length. }
    destruct Hthis0 as [Hc0 Hp0'].
    destruct (Hf rank q Hq) as (t & Ht & Hrank).
    assert (Hq_act : in_heat q = true).
    { unfold in_heat. rewrite Hhq, Hh0. exact Hact. }
    rewrite Hq_act in Ht.
    apply bind_Ok in Ht. destruct Ht as (prev & Hcopy & Ht).
    inversion Ht; subst t; clear Ht.
    rewrite std_copy_same_length in Hcopy by congruence.
    inversion Hcopy; subst prev; clear Hcopy.
    eexists. split; [exact Hrank |]. cbn. split; [reflexivity | congruence].
Qed.

Lemma update_temperature_local_unrelaxed
    (heat : HeatFluidsDriver D Position) (this this' : CoupledDriver D) :
  heat_active heat = true ->
  update_temperature_local ROBBINS_MONRO false heat this = Ok this' ->
  cell_temperatures_prev_ this' = cell_temperatures_prev_ this
  /\ length (cell_temperatures_ this') = length (cell_temperatures_ this).
Proof.
  intros Hact E. unfold update_temperature_local in E.
  rewrite Hact in E. cbn [andb mbind outcome_bind] in E.
  apply bind_Ok in E. destruct E as (temps & Havg & E).
  inversion E; subst this'; clear E.
  apply average_temperatures_length in Havg.
  split; [reflexivity | exact Havg].
Qed.

(** X17.  A call of [init_temperatures] that returns leaves as many
    processes as it found.  With the neutronics initial condition no
    [set_temperature] call is made.  On every heat-active process the
    previous temperatures then begin with the current ones; with the heat
    initial condition, a heat-active process that holds no neutronics solver
    and is not the neutronics root ends with two equal arrays, one entry per
    cell. *)
Theorem init_temperatures_sets_previous (ic : Initial)
    (garbage garbage_prev : nat -> list D)
    (w w' : list (@Process D Position))
    (calls : list (list (CellHandle * D))) :
  init_temperatures ROBBINS_MONRO ic garbage garbage_prev w = Ok (w', calls) ->
  length w' = length w
  /\ (ic = Initial_neutronics -> Forall (fun cs => cs = []) calls)
  /\ (forall rank p',
        w' !! rank = Some p' -> in_heat p' = true ->
        exists rest,
          cell_temperatures_prev_ (this_ p')
          = cell_temperatures_ (this_ p') ++ rest)
  /\ (ic = Initial_heat ->
      forall rank p,
        w !! rank = Some p ->
        in_heat p = true -> in_neutronics p = false ->
        Z.of_nat rank <> neutronics_root_ w ->
        exists p',
          w' !! rank = Some p'
          /\ cell_temperatures_prev_ (this_ p') = cell_temperatures_ (this_ p')
          /\ length (cell_temperatures_ (this_ p'))
             = length (cells_ (this_ p))).
Proof.
  intros E. unfold init_temperatures in E. cbv zeta in E.
  match type of E with
  | context [imap ?f w] =>
      set (resized := f) in E; set (w0 := imap resized w) in E
  end.
  apply bind_Ok in E. destruct E as (r & Hr & E).
  apply bind_Ok in E. destruct E as (wf & Hcopy & E).
  inversion E; subst w' calls; clear E.
  apply on_each_lookup in Hcopy. destruct Hcopy as [Hlenf Hf].
  assert (Hlen0 : length w0 = length w) by apply length_imap.
  assert (Hlenr : length r.1 = length w0).
  { destruct ic.
    - apply bind_Ok in Hr. destruct Hr as (w2 & Hfold & Hr).
      inversion Hr; subst r; clear Hr. cbn [fst].
      revert Hfold. apply (foldM_invariant (fun x => length x = length w0));
        [| reflexivity].
      intros s a s' _ Hs Hstep.
      apply initial_values_round_length in Hstep. congruence.
    - destruct r as [w2 cs].
      apply (update_in_the_world
               (fun p => update_temperature_local ROBBINS_MONRO false
                                              (heat p) (this_ p))
               cell_temperatures_ set_cell_temperatures_ accumulate_T_dot_V
               (neutronics_root_ w0) (heat_ranks_ w0) w0 w2 cs) in Hr.
      destruct Hr as [Hr _]. exact Hr. }
  split; [congruence |]. split; [| split].
  - intros ->. apply bind_Ok in Hr. destruct Hr as (w2 & _ & Hr).
    inversion Hr; subst r; clear Hr. cbn [snd].
    apply Forall_forall. intros cs Hin. apply list_elem_of_fmap in Hin.
    destruct Hin as (? & -> & _). reflexivity.
  - intros rank p' Hp' Hact.
    destruct (lookup_lt_is_Some_2 r.1 rank) as [q Hq].
    { rewrite <- Hlenf. eapply lookup_lt_Some; eauto. }
    destruct (Hf rank q Hq) as (t & Ht & Hrank).
    assert (t = p') by congruence. subst t.
    destruct (in_heat q) eqn:Hq_act.
    + apply bind_Ok in Ht. destruct Ht as (prev & Hprev & Ht).
      inversion Ht; subst p'; clear Ht.
      apply std_copy_Ok in Hprev. destruct Hprev as [_ ->].
      eexists. reflexivity.
    + inversion Ht; subst p'. congruence.
  - intros -> rank p Hp Hact Hoff Hroot.
    destruct r as [w2 cs]. cbn [fst snd] in *.
    assert (Hp0 : w0 !! rank = Some (resized rank p)).
    { subst w0. rewrite list_lookup_imap, Hp. reflexivity. }
    assert (Hflags : forall (member : @Process D Position -> bool),
               (forall k q, member (resized k q) = member q) ->
               map member w0 = map member w).
    { intros member Hm. apply list_eq. intros i. subst w0.
      rewrite !list_lookup_fmap, list_lookup_imap.
      destruct (w !! i); simpl; [rewrite Hm |]; reflexivity. }
    assert (Hkeep : forall k q, heat (resized k q) = heat q
                                /\ neutronics (resized k q) = neutronics q).
    { intros k q. subst resized. cbn beta.
      destruct (in_heat q); split; reflexivity. }
    assert (Hroot0 : neutronics_root_ w0 = neutronics_root_ w).
    { unfold neutronics_root_.
      rewrite (root_of_flags in_neutronics w0), (root_of_flags _ w).
      rewrite (Hflags in_neutronics); [reflexivity |].
      intros k q. unfold in_neutronics.
      rewrite (proj2 (Hkeep k q)). reflexivity. }
    apply (update_in_the_world
             (fun p => update_temperature_local ROBBINS_MONRO false
                                            (heat p) (this_ p))
             cell_temperatures_ set_cell_temperatures_ accumulate_T_dot_V
             (neutronics_root_ w0) (heat_ranks_ w0) w0 w2 cs) in Hr.
    destruct Hr as (_ & _ & Hr).
    destruct (Hr rank (resized rank p) Hp0)
      as (q & cs' & Hq & _ & Hhq & Hnq & _ & _ & Hlocal).
    destruct (Hkeep rank p) as [Hh0 Hn0].
    assert (Hl : update_temperature_local ROBBINS_MONRO false (heat p)
                   (this_ (resized rank p)) = Ok (this_ q)).
    { rewrite <- Hh0. apply Hlocal.
      - unfold in_neutronics. rewrite Hn0. exact Hoff.
      - rewrite Hroot0. exact Hroot. }
    apply update_temperature_local_unrelaxed in Hl; [| exact Hact].
    destruct Hl as [Hprev Hcur].
    assert (Hthis0 : length (cell_temperatures_ (this_ (resized rank p)))
                     = length (cells_ (this_ p))
                     /\ length (cell_temperatures_prev_
                                  (this_ (resized rank p)))
                        = length (cells_ (this_ p))).
    { subst resized. cbn beta. rewrite Hact. cbn.
      split; apply xt_resize_length. }
    destruct Hthis0 as [Hc0 Hp0'].
    destruct (Hf rank q Hq) as (t & Ht & Hrank).
    assert (Hq_act : in_heat q = true).
    { unfold in_heat. rewrite Hhq, Hh0. exact Hact. }
    rewrite Hq_act in Ht.
    apply bind_Ok in Ht. destruct Ht as (prev & Hcopy & Ht).
    inversion Ht; subst t; clear Ht.
    rewrite std_copy_same_length in Hcopy by congruence.
    inversion Hcopy; subst prev; clear Hcopy.
    eexists. split; [exact Hrank |]. cbn. split; [reflexivity | congruence].
Qed.

End InitialValues.

Lemma init_densities_sets_previous_witness :
  length overlap_world_densities.1 = length overlap_world
  /\ (Initial_heat = Initial_neutronics ->
      Forall (fun cs => cs = []) overlap_world_densities.2)
  /\ (forall rank p',
        overlap_world_densities.1 !! rank = Some p' -> in_heat p' = true ->
        exists rest,
          cell_densities_prev_ (this_ p')
          = cell_densities_ (this_ p') ++ rest)
  /\ (Initial_heat = Initial_heat ->
      forall rank p,
        overlap_world !! rank = Some p ->
        in_heat p = true -> in_neutronics p = false ->
        Z.of_nat rank <> neutronics_root_ overlap_world ->
        exists p',
          overlap_world_densities.1 !! rank = Some p'
          /\ cell_densities_prev_ (this_ p') = cell_densities_ (this_ p')
          /\ length (cell_densities_ (this_ p'))
             = length (cells_ (this_ p))).
Proof.
  apply (init_densities_sets_previous sentinel64 Initial_heat
           (fun _ => []) (fun _ => []) overlap_world
           overlap_world_densities.1 overlap_world_densities.2).
  vm_compute. reflexivity.
Defined.

Lemma init_temperatures_sets_previous_witness :
  length overlap_world_temperatures.1 = length overlap_world
  /\ (Initial_heat = Initial_neutronics ->
      Forall (fun cs => cs = []) overlap_world_temperatures.2)
  /\ (forall rank p',
        overlap_world_temperatures.1 !! rank = Some p' ->
        in_heat p' = true ->
        exists rest,
          cell_temperatures_prev_ (this_ p')
          = cell_temperatures_ (this_ p') ++ rest)
  /\ (Initial_heat = Initial_heat ->
      forall rank p,
        overlap_world !! rank = Some p ->
        in_heat p = true -> in_neutronics p = false ->
        Z.of_nat rank <> neutronics_root_ overlap_world ->
        exists p',
          overlap_world_temperatures.1 !! rank = Some p'
          /\ cell_temperatures_prev_ (this_ p')
             = cell_temperatures_ (this_ p')
          /\ length (cell_temperatures_ (this_ p'))
             = length (cells_ (this_ p))).
Proof.
  apply (init_temperatures_sets_previous sentinel64 Initial_heat
           (fun _ => []) (fun _ => []) overlap_world
           overlap_world_temperatures.1 overlap_world_temperatures.2).
  vm_compute. reflexivity.
Defined.

(** In the two-process run the heat-only rank 1 ends with equal arrays,
    while rank 0, which is also the neutronics root, is left with the
    one-cell array it received last and its own two-cell previous
    array. *)
Example overlap_world_initial_temperatures :
  map (fun p => (cell_temperatures_ (this_ p),
                 cell_temperatures_prev_ (this_ p)))
      overlap_world_temperatures.1
  = [([600%float], [600; 0]%float); ([600%float], [600%float])].
Proof. vm_compute. reflexivity. Qed.

(** ** The roots of the solver communicators *)

Lemma gather_subcomm_ranks_ascending {St} (member : St -> bool)
    (w : list St) :
  StronglySorted lt (gather_subcomm_ranks member w).
Proof.
  unfold gather_subcomm_ranks.
  assert (G : forall (g : nat -> nat),
             (forall i j, (i < j)%nat -> (g i < g j)%nat) ->
             StronglySorted lt
               (filter (fun ip : nat * St => member ip.2 = true)
                       (imap (fun i x => (g i, x)) w)).*1).
  { induction w as [|x w IH]; intros g Hg; [constructor |].
    cbn [imap]. rewrite filter_cons.
    assert (Htail : StronglySorted lt
                      (filter (fun ip : nat * St => member ip.2 = true)
                              (imap (fun i x => ((g ∘ Datatypes.S) i, x))
                                    w)).*1).
    { apply IH. intros i j Hij. simpl. apply Hg. lia. }
    destruct (decide (member (g 0%nat, x).2 = true)); [| exact Htail].
    cbn [fmap list_fmap fst]. constructor; [exact Htail |].
    apply Forall_forall. intros r Hr.
    apply list_elem_of_fmap in Hr. destruct Hr as ([k s] & -> & Hin).
    apply list_elem_of_filter in Hin. destruct Hin as [_ Hin].
    apply elem_of_lookup_imap in Hin. destruct Hin as (i & y & Heq & _).
    inversion Heq; subst. simpl. apply Hg. lia. }
  apply (G (fun i => i)). auto.
Qed.

(** X18.  The rank that lines 161-162 and 165-166 spread with [MPI_MAX] is
    the lowest global rank on which the solver is active, and -1 when it is
    active nowhere. *)
Theorem root_of_lowest_member {St} (member : St -> bool) (w : list St) :
  (forall r s,
     w !! r = Some s -> member s = true ->
     (forall k s', (k < r)%nat -> w !! k = Some s' -> member s' = false) ->
     root_of member w = Z.of_nat r)
  /\ ((forall r s, w !! r = Some s -> member s = false) ->
      root_of member w = -1).
Proof.
  split.
  - intros r s Hs Hm Hlow.
    assert (Hin : r ∈ gather_subcomm_ranks member w).
    { apply elem_of_gather_subcomm_ranks. eauto. }
    pose proof (gather_subcomm_ranks_ascending member w) as Hsorted.
    destruct (gather_subcomm_ranks member w) as [|h rest] eqn:HL;
      [inversion Hin |].
    assert (Hh : h ∈ gather_subcomm_ranks member w) by (rewrite HL; left).
    apply elem_of_gather_subcomm_ranks in Hh. destruct Hh as (sh & Hsh & Hmh).
    assert (h = r) as ->.
    { apply elem_of_cons in Hin. destruct Hin as [-> | Hin]; [reflexivity |].
      apply StronglySorted_inv in Hsorted. destruct Hsorted as [_ Hall].
      rewrite Forall_forall in Hall. specialize (Hall r Hin).
      rewrite (Hlow h sh Hall Hsh) in Hmh. discriminate. }
    apply (root_of_first member w r rest HL).
  - intros Hnone. unfold root_of.
    destruct (gather_subcomm_ranks member w) as [|h rest] eqn:HL.
    + destruct w as [|x w]; [reflexivity |].
      cbn [imap allreduce_max is_root]. apply foldl_max_is; [| left].
      intros z Hz. apply elem_of_cons in Hz.
      destruct Hz as [-> | Hz]; [reflexivity |].
      apply elem_of_lookup_imap in Hz. destruct Hz as (i & y & -> & _).
      reflexivity.
    + assert (Hh : h ∈ gather_subcomm_ranks member w) by (rewrite HL; left).
      apply elem_of_gather_subcomm_ranks in Hh.
      destruct Hh as (sh & Hsh & Hmh).
      rewrite (Hnone h sh Hsh) in Hmh. discriminate.
Qed.

Lemma root_of_lowest_member_witness :
  heat_root_ (two_heat_ranks 0.5) = 1
  /\ neutronics_root_ [ {| this_ := one_fluid_cell; heat := fluid_heat;
                          neutronics := idle_neutronics |} ] = -1.
Proof.
  split.
  - apply (proj1 (root_of_lowest_member in_heat (two_heat_ranks 0.5))
             1%nat {| this_ := blank (coupling64 1 0.5 1);
                      heat := heat_rank [100; 200]%float [1; 1]%float [0; 1];
                      neutronics := idle_neutronics |}).
    + reflexivity.
    + reflexivity.
    + intros k s' Hk Hs'. destruct k as [|k]; [| lia].
      inversion Hs'. reflexivity.
  - apply (proj2 (root_of_lowest_member in_neutronics
                    [ {| this_ := one_fluid_cell; heat := fluid_heat;
                         neutronics := idle_neutronics |} ])).
    intros r s Hs. destruct r as [|r]; inversion Hs. reflexivity.
Defined.
